(** * BPTF: Bayesian Probabilistic Tensor Factorization (imputer/BPTF.ipynb)

    A shallow embedding of the notebook's Gibbs sampler.

    - Scalars are an abstract type [T] with the float operations the code
      uses ([Scalar]); the theorems hold for every interpretation, IEEE
      binary64 included ([float_scalar] below runs the model on Rocq's
      primitive floats, NaN and all).
    - numpy arrays carry their shape next to their data, so that empty
      dimensions and shape errors are those of numpy.  Element-wise
      operations broadcast as numpy does and raise [ValueError] otherwise.
      The order in which np.sum adds the elements of an array and the
      arithmetic inside a product [@] are left to the interpretation of
      the scalars ([fsum], [fdot]): numpy adds in pairs of blocks and
      hands products to the BLAS.
    - The linear-algebra and random routines of numpy/scipy (inv, solve,
      cholesky, solve_triangular, normal, wishart.rvs, gamma) are an
      interface ([Extern]); the random ones thread the generator state.
    - The caller's arrays live in a store addressed by object identity:
      the code updates U, V, X and the sparse tensor in place. *)

From Stdlib Require Import Floats Uint63 ZArith Ring_theory Ring.
From stdpp Require Import gmap strings list.

(** ** Exceptions and results *)

Inductive exn :=
  | KeyError | IndexError | ValueError | LinAlgError | ZeroDivisionError.

Inductive result (A : Type) :=
  | Ok (a : A)
  | Raise (e : exn).
Arguments Ok {A} a.
Arguments Raise {A} e.

Global Instance result_ret : MRet result := λ A a, Ok a.

Global Instance result_bind : MBind result := λ A B f r,
  match r with Ok a => f a | Raise e => Raise e end.

Global Instance result_fmap : FMap result := λ A B f r,
  match r with Ok a => Ok (f a) | Raise e => Raise e end.

(** [o] if present, else the exception [e] *)
Definition or_raise {A} (e : exn) (o : option A) : result A :=
  match o with Some a => Ok a | None => Raise e end.

(** ** Scalars *)

Class Scalar (T : Type) := {
  fzero : T;
  fone : T;
  fadd : T → T → T;
  fsub : T → T → T;
  fmul : T → T → T;
  fdiv : T → T → T;
  fabs : T → T;
  fsqrt : T → T;
  of_nat : nat → T;        (* a Python int used as a float *)
  fisnan : T → bool;       (* np.isnan *)
  feqb : T → T → bool;     (* == *)
  fhalf : T;               (* the literal 0.5 *)
  fmicro : T;              (* the literal 1e-6 *)
  (** np.sum of the data of a contiguous array: numpy chooses the order
      of the additions (in pairs of blocks from 8 elements on) *)
  fsum : list T → T;
  (** the inner product of a row and a column inside [@]: the BLAS
      chooses the order of the operations and their rounding (fused or
      not).  An entry of a product is taken to depend on its row and its
      column alone, not on where it lies in the product. *)
  fdot : list T → list T → T;
}.

(** ** Arrays: shape and data *)

Record matrix (A : Type) := Mat {
  nrows : nat;
  ncols : nat;
  rows : list (list A);
}.
Arguments Mat {A} nrows ncols rows.
Arguments nrows {A} m.
Arguments ncols {A} m.
Arguments rows {A} m.

Abbreviation shape3 := (nat * nat * nat)%type.
Abbreviation index3 := (nat * nat * nat)%type.

Record tensor (A : Type) := Ten {
  dims : shape3;
  slabs : list (list (list A));
}.
Arguments Ten {A} dims slabs.
Arguments dims {A} t.
Arguments slabs {A} t.

(** Well-shaped arrays: the data has the declared shape. *)
Definition wf_matrix {A} (m : matrix A) : Prop :=
  length (rows m) = nrows m ∧ Forall (λ r, length r = ncols m) (rows m).

Definition wf_tensor {A} (t : tensor A) : Prop :=
  length (slabs t) = (dims t).1.1 ∧
  Forall (λ s, length s = (dims t).1.2 ∧
               Forall (λ r, length r = (dims t).2) s) (slabs t).

(** *** Broadcasting *)

(** one axis: equal sizes, or one of them 1 *)
Definition bdim (m n : nat) : result nat :=
  if decide (m = n) then Ok m
  else if decide (m = 1) then Ok n
  else if decide (n = 1) then Ok m
  else Raise ValueError.

Definition bshape3 (s1 s2 : shape3) : result shape3 :=
  a ← bdim s1.1.1 s2.1.1;
  b ← bdim s1.1.2 s2.1.2;
  c ← bdim s1.2 s2.2;
  Ok (a, b, c).

(** the data of a broadcast along one axis (the shapes were checked) *)
Definition bzip {A B C} (f : A → B → C) (la : list A) (lb : list B) : list C :=
  match la, lb with
  | [a], _ => f a <$> lb
  | _, [b] => (λ a, f a b) <$> la
  | _, _ => zip_with f la lb
  end.

(** 1-D [op] 1-D *)
Definition vzip {A B C} (f : A → B → C) (a : list A) (b : list B)
  : result (list C) :=
  _ ← bdim (length a) (length b); Ok (bzip f a b).

(** 2-D [op] 2-D *)
Definition mzip {A B C} (f : A → B → C) (a : matrix A) (b : matrix B)
  : result (matrix C) :=
  r ← bdim (nrows a) (nrows b);
  c ← bdim (ncols a) (ncols b);
  Ok (Mat r c (bzip (bzip f) (rows a) (rows b))).

(** 2-D [op] 1-D: the vector is a row, repeated *)
Definition mzip_row {A B C} (f : A → B → C) (a : matrix A) (v : list B)
  : result (matrix C) :=
  c ← bdim (ncols a) (length v);
  Ok (Mat (nrows a) c ((λ r, bzip f r v) <$> rows a)).

(** 3-D [op] 3-D *)
Definition tzip {A B C} (f : A → B → C) (a : tensor A) (b : tensor B)
  : result (tensor C) :=
  s ← bshape3 (dims a) (dims b);
  Ok (Ten s (bzip (bzip (bzip f)) (slabs a) (slabs b))).

(** [a op= b]: the result must have the shape of [a] *)
Definition tzip_inplace {A B} (f : A → B → A) (a : tensor A) (b : tensor B)
  : result (tensor A) :=
  r ← tzip f a b;
  if decide (dims r = dims a) then Ok r else Raise ValueError.

Definition vzip_inplace {A B} (f : A → B → A) (a : list A) (b : list B)
  : result (list A) :=
  r ← vzip f a b;
  if decide (length r = length a) then Ok r else Raise ValueError.

(** *** Element-wise maps *)

Definition mmap {A B} (f : A → B) (m : matrix A) : matrix B :=
  Mat (nrows m) (ncols m) (fmap (M:=list) f <$> rows m).

Definition tmap {A B} (f : A → B) (t : tensor A) : tensor B :=
  Ten (dims t) (fmap (M:=list) (fmap (M:=list) f) <$> slabs t).

(** *** Indexing *)

Definition tget {A} (t : tensor A) (p : index3) : option A :=
  s ← slabs t !! p.1.1; r ← (s : list (list A)) !! p.1.2; (r : list A) !! p.2.

(** np.where on a boolean array, in row-major order *)
Definition where1 (l : list bool) : list nat :=
  concat (imap (λ i (b : bool), if b then [i] else []) l).

Definition where3 (m : tensor bool) : list index3 :=
  concat (imap (λ i slab,
     concat (imap (λ j row, (λ t, (i, j, t)) <$> where1 row) slab))
   (slabs m)).

(** tensor[pos] for a tuple of index arrays *)
Definition gather {A} (t : tensor A) (pos : list index3) : result (list A) :=
  mapM (λ p, or_raise IndexError (tget t p)) pos.

(** M[i, :] *)
Definition row {A} (m : matrix A) (i : nat) : result (list A) :=
  or_raise IndexError (rows m !! i).

(** M[:, j] *)
Definition col {A} (m : matrix A) (j : nat) : result (list A) :=
  if decide (j < ncols m) then or_raise IndexError (mapM (λ r : list A, r !! j) (rows m))
  else Raise IndexError.

(** T[:, :, k] *)
Definition slice_last {A} (t : tensor A) (k : nat) : result (matrix A) :=
  if decide (k < (dims t).2)
  then or_raise IndexError
         (Mat (dims t).1.1 (dims t).1.2 <$>
            mapM (mapM (λ r : list A, r !! k)) (slabs t))
  else Raise IndexError.

(** what [M[i, :] = v] stores: [v], or its single entry along the row *)
Definition fit_row {A} (n : nat) (v : list A) : result (list A) :=
  if decide (length v = n) then Ok v
  else match v with
       | [x] => Ok (replicate n x)
       | _ => Raise ValueError
       end.

(** M[i, :] = v *)
Definition set_row {A} (m : matrix A) (i : nat) (v : list A)
  : result (matrix A) :=
  if decide (i < nrows m)
  then r ← fit_row (ncols m) v; Ok (Mat (nrows m) (ncols m) (<[i := r]> (rows m)))
  else Raise IndexError.

(** *** Shapes and layout *)

(** the columns of [n]-wide rows *)
Fixpoint columns {A} (n : nat) (rs : list (list A)) : list (list A) :=
  match n with
  | 0 => []
  | S k => concat (take 1 <$> rs) :: columns k (drop 1 <$> rs)
  end.

(** M.T *)
Definition transpose {A} (m : matrix A) : matrix A :=
  Mat (ncols m) (nrows m) (columns (ncols m) (rows m)).

(** [k] consecutive pieces of length [n] *)
Fixpoint chunks {A} (k n : nat) (l : list A) : list (list A) :=
  match k with
  | 0 => []
  | S k' => take n l :: chunks k' n (drop n l)
  end.

(** M.reshape([a, b, c]), C order *)
Definition reshape3 {A} (m : matrix A) (s : shape3) : result (tensor A) :=
  if decide (nrows m * ncols m = s.1.1 * s.1.2 * s.2)
  then Ok (Ten s (chunks s.1.2 s.2 <$> chunks s.1.1 (s.1.2 * s.2) (concat (rows m))))
  else Raise ValueError.

(** M[:, :, None] *)
Definition new_axis_last {A} (m : matrix A) : tensor A :=
  Ten (nrows m, ncols m, 1) (fmap (M:=list) (λ x, [x]) <$> rows m).

(** v[:, None] *)
Definition column_vector {A} (v : list A) : matrix A :=
  Mat (length v) 1 ((λ x, [x]) <$> v).

Inductive axis := Axis0 | Axis1 | Axis2.

(** tensor.shape[mode] *)
Definition axis_len (s : shape3) (mode : axis) : nat :=
  match mode with Axis0 => s.1.1 | Axis1 => s.1.2 | Axis2 => s.2 end.

(** np.moveaxis(tensor, mode, 0) *)
Definition moveaxis {A} (t : tensor A) (mode : axis) : tensor A :=
  let '(d1, d2, d3) := dims t in
  match mode with
  | Axis0 => t
  | Axis1 => Ten (d2, d1, d3) (columns d2 (slabs t))
  | Axis2 => Ten (d3, d1, d2) (columns d3 (columns d3 <$> slabs t))
  end.

(** np.reshape(t, (t.shape[0], -1), order = 'F'): within a row the first
    of the two folded axes runs fastest *)
Definition reshape_F {A} (t : tensor A) : matrix A :=
  let '(d1, d2, d3) := dims t in
  Mat d1 (d2 * d3) ((λ s, concat (columns d3 s)) <$> slabs t).

(** ** Arithmetic on arrays *)

Section Numeric.
Context {T : Type} `{!Scalar T}.

(** != *)
Definition fneqb (x y : T) : bool := negb (feqb x y).

(** a bool used as a number *)
Definition of_bool (b : bool) : T := if b then fone else fzero.

(** the sum of a list, added in order from zero: what a reduction along
    an axis (np.mean(M, axis = 0), einsum) accumulates for one entry *)
Definition vsum (l : list T) : T := foldl fadd fzero l.

(** np.sum of a 3-D array: of its data, in row-major order *)
Definition tsum (t : tensor T) : T := fsum (concat (concat (slabs t))).

(** np.zeros *)
Definition vzeros (n : nat) : list T := replicate n fzero.

Definition tzeros (s : shape3) : tensor T :=
  Ten s (replicate s.1.1 (replicate s.1.2 (replicate s.2 fzero))).

(** np.eye *)
Definition eye (n : nat) : matrix T :=
  Mat n n ((λ i, (λ j, if decide (i = j) then fone else fzero) <$> seq 0 n)
             <$> seq 0 n).

(** np.outer *)
Definition outer (a b : list T) : matrix T :=
  Mat (length a) (length b) ((λ x, fmul x <$> b) <$> a).

(** np.mean(M, axis = 0) *)
Definition mean0 (m : matrix T) : list T :=
  (λ c, fdiv (vsum c) (of_nat (nrows m))) <$> columns (ncols m) (rows m).

(** scalar * array, array / scalar *)
Definition vscale (c : T) (v : list T) : list T := fmul c <$> v.

Definition mscale (c : T) (m : matrix T) : matrix T := mmap (fmul c) m.

Definition tscale (c : T) (t : tensor T) : tensor T := tmap (fmul c) t.

Definition vdiv (v : list T) (c : T) : list T := (λ x, fdiv x c) <$> v.

Definition mdiv (m : matrix T) (c : T) : matrix T := mmap (λ x, fdiv x c) m.

Definition tdiv (t : tensor T) (c : T) : tensor T := tmap (λ x, fdiv x c) t.

(** array + array, array - array *)
Definition vadd := vzip fadd.

Definition vsub := vzip fsub.

Definition madd := mzip fadd.

Definition tadd := tzip fadd.

(** A @ B: entry (i, j) is the inner product of row i of A and column j
    of B, as the BLAS computes it *)
Definition np_matmul (a b : matrix T) : result (matrix T) :=
  if decide (ncols a = nrows b)
  then Ok (Mat (nrows a) (ncols b)
             ((λ r, fdot r <$> columns (ncols b) (rows b)) <$> rows a))
  else Raise ValueError.

(** A @ v *)
Definition np_matvec (a : matrix T) (v : list T) : result (list T) :=
  if decide (ncols a = length v)
  then Ok ((λ r, fdot r v) <$> rows a)
  else Raise ValueError.

(** scipy.linalg.khatri_rao: row [i * nrows b + j] is the product of row
    [i] of [a] and row [j] of [b] *)
Definition kr_prod (a b : matrix T) : result (matrix T) :=
  if decide (ncols a = ncols b)
  then Ok (Mat (nrows a * nrows b) (ncols a)
             (concat ((λ ra, (λ rb, zip_with fmul ra rb) <$> rows b)
                        <$> rows a)))
  else Raise ValueError.

(** np.einsum('is, js, ts -> ijt', U, V, X) *)
Definition einsum (U V X : matrix T) : result (tensor T) :=
  r ← bdim (ncols U) (ncols V);
  _ ← bdim r (ncols X);
  Ok (Ten (nrows U, nrows V, nrows X)
        ((λ u, (λ v, (λ x, vsum (bzip fmul (bzip fmul u v) x)) <$> rows X)
                 <$> rows V) <$> rows U)).

(** a Python [int / int] *)
Definition pydiv (a b : nat) : result T :=
  if decide (b = 0) then Raise ZeroDivisionError
  else Ok (fdiv (of_nat a) (of_nat b)).

(** *** The notebook's array helpers *)

(** def cov_mat(mat, mat_bar): mat = mat - mat_bar; return mat.T @ mat *)
Definition cov_mat (mat : matrix T) (mat_bar : list T) : result (matrix T) :=
  mat ← mzip_row fsub mat mat_bar;
  np_matmul (transpose mat) mat.

(** def ten2mat(tensor, mode):
      return np.reshape(np.moveaxis(tensor, mode, 0),
                        (tensor.shape[mode], -1), order = 'F')
    reshape cannot infer the -1 beside a length of 0 and raises
    ValueError *)
Definition ten2mat {A} (t : tensor A) (mode : axis) : result (matrix A) :=
  if decide (axis_len (dims t) mode = 0) then Raise ValueError
  else Ok (reshape_F (moveaxis t mode)).

(** def compute_mape(var, var_hat):
      return np.sum(np.abs(var - var_hat) / var) / var.shape[0] *)
Definition compute_mape (var var_hat : list T) : result T :=
  d ← vsub var var_hat;
  q ← vzip fdiv (fabs <$> d) var;
  Ok (fdiv (fsum q) (of_nat (length var))).

(** def compute_rmse(var, var_hat):
      return np.sqrt(np.sum((var - var_hat) ** 2) / var.shape[0]) *)
Definition compute_rmse (var var_hat : list T) : result T :=
  d ← vsub var var_hat;
  Ok (fsqrt (fdiv (fsum ((λ x, fmul x x) <$> d)) (of_nat (length var)))).

End Numeric.

(** ** numpy.linalg, scipy.linalg and the random generators *)

Class Extern (T G : Type) := {
  inv : matrix T → result (matrix T);
  solve : matrix T → list T → result (list T);
  (** scipy.linalg.cholesky: the upper factor *)
  cholesky_upper : matrix T → result (matrix T);
  (** scipy.linalg.solve_triangular(a, b, lower = False) *)
  solve_ut : matrix T → list T → result (list T);
  (** numpy.random.normal(size = (n,)) *)
  normrnd : nat → G → list T * G;
  (** scipy.stats.wishart.rvs(df, scale) *)
  wishart_rvs : nat → matrix T → G → result (matrix T) * G;
  (** numpy.random.gamma(shape, scale) *)
  gamma_rvs : T → T → G → result T * G;
}.

(** ** The store and the computations over it *)

Abbreviation loc := nat (only parsing).

(** what the notebook prints *)
Inductive line (T : Type) :=
  | Iter (n : nat)
  | MAPE (x : T)
  | RMSE (x : T)
  | Imputation_MAPE (x : T)
  | Imputation_RMSE (x : T)
  | Blank.
Arguments Iter {T} n.
Arguments MAPE {T} x.
Arguments RMSE {T} x.
Arguments Imputation_MAPE {T} x.
Arguments Imputation_RMSE {T} x.
Arguments Blank {T}.

Record world (T G : Type) := World {
  mats : gmap loc (matrix T);    (* the 2-D array objects *)
  tens : gmap loc (tensor T);    (* the 3-D array objects *)
  rng : G;                       (* numpy's global generator *)
  stdout : list (line T);
}.
Arguments World {T G} mats tens rng stdout.
Arguments mats {T G} w.
Arguments tens {T G} w.
Arguments rng {T G} w.
Arguments stdout {T G} w.

(** a computation: it ends in a value or an exception, and in a store *)
Definition M (T G A : Type) : Type := world T G → result A * world T G.

Section Monad.
Context {T G : Type}.

Definition ret {A} (a : A) : M T G A := λ w, (Ok a, w).

Definition bind {A B} (m : M T G A) (k : A → M T G B) : M T G B := λ w,
  match m w with
  | (Ok a, w') => k a w'
  | (Raise e, w') => (Raise e, w')
  end.

Definition lift {A} (r : result A) : M T G A := λ w, (r, w).

(** an array argument that names no object of the store *)
Definition read_mat (l : loc) : M T G (matrix T) := λ w,
  (or_raise KeyError (mats w !! l), w).

Definition read_ten (l : loc) : M T G (tensor T) := λ w,
  (or_raise KeyError (tens w !! l), w).

Definition write_mat (l : loc) (m : matrix T) : M T G unit := λ w,
  (Ok (), World (<[l := m]> (mats w)) (tens w) (rng w) (stdout w)).

Definition write_ten (l : loc) (t : tensor T) : M T G unit := λ w,
  (Ok (), World (mats w) (<[l := t]> (tens w)) (rng w) (stdout w)).

(** a draw from the generator *)
Definition draw {A} (f : G → A * G) : M T G A := λ w,
  let '(a, g) := f (rng w) in
  (Ok a, World (mats w) (tens w) g (stdout w)).

Definition draw_or_raise {A} (f : G → result A * G) : M T G A := λ w,
  let '(r, g) := f (rng w) in
  (r, World (mats w) (tens w) g (stdout w)).

Definition print (l : line T) : M T G unit := λ w,
  (Ok (), World (mats w) (tens w) (rng w) (stdout w ++ [l])).

End Monad.

Global Instance M_ret {T G} : MRet (M T G) := @ret T G.

Global Instance M_bind {T G} : MBind (M T G) := λ A B k m, bind m k.

Section Loops.
Context {T G : Type}.

(** for x in l: body(x) *)
Fixpoint for_each {A} (l : list A) (body : A → M T G unit) : M T G unit :=
  match l with
  | [] => ret ()
  | x :: l' => body x;; for_each l' body
  end.

(** a loop that carries local variables [s] *)
Fixpoint for_fold {A S} (l : list A) (s : S) (body : S → A → M T G S)
  : M T G S :=
  match l with
  | [] => ret s
  | x :: l' => s' ← body s x; for_fold l' s' body
  end.

End Loops.

(** ** The notebook's functions *)

Section BPTF.
Context {T G : Type} `{!Scalar T} `{!Extern T G}.

Local Abbreviation M := (M T G).

(** M[i, :] = v on the array object [l] *)
Definition assign_row (l : loc) (i : nat) (v : list T) : M unit :=
  m ← read_mat l;
  m' ← lift (set_row m i v);
  write_mat l m'.

(** def mvnrnd_pre(mu, Lambda):
      src = normrnd(size = (mu.shape[0],))
      return solve_ut(cholesky_upper(Lambda, overwrite_a = True, check_finite = False),
                      src, lower = False, check_finite = False, overwrite_b = True) + mu
    [Lambda] is passed by value.  With overwrite_a the factorisation may
    be written into the array that holds [Lambda] when its layout suits
    LAPACK; every caller passes a temporary (a product by a scalar) or a
    slice of its local var3 that is not read after the call, and never an
    array object of the store, so what is left in it is never observed. *)
Definition mvnrnd_pre (mu : list T) (Lambda : matrix T) : M (list T) :=
  src ← draw (normrnd (length mu));
  C ← lift (cholesky_upper Lambda);
  y ← lift (solve_ut C src);
  lift (vadd y mu).

(** The lines of sample_factor_u and of sample_factor_v that draw the
    hyperparameters of the factor matrix [F] (U there, V here):
      dim1, rank = F.shape
      F_bar = np.mean(F, axis = 0)
      temp = dim1 / (dim1 + beta0)
      var_mu_hyper = temp * F_bar
      var_F_hyper = inv(np.eye(rank) + cov_mat(F, F_bar)
                        + temp * beta0 * np.outer(F_bar, F_bar))
      var_Lambda_hyper = wishart.rvs(df = dim1 + rank, scale = var_F_hyper)
      var_mu_hyper = mvnrnd_pre(var_mu_hyper, (dim1 + beta0) * var_Lambda_hyper) *)
Definition entity_hyper (F : matrix T) (beta0 : nat)
  : M (list T * matrix T) :=
  let dim1 := nrows F in
  let rank := ncols F in
  let F_bar := mean0 F in
  temp ← lift (pydiv dim1 (dim1 + beta0));
  let var_mu_hyper := vscale temp F_bar in
  c ← lift (cov_mat F F_bar);
  s ← lift (madd (eye rank) c);
  s ← lift (madd s (mscale (fmul temp (of_nat beta0)) (outer F_bar F_bar)));
  var_F_hyper ← lift (inv s);
  var_Lambda_hyper ← draw_or_raise (wishart_rvs (dim1 + rank) var_F_hyper);
  var_mu_hyper ← mvnrnd_pre var_mu_hyper
                   (mscale (of_nat (dim1 + beta0)) var_Lambda_hyper);
  mret (var_mu_hyper, var_Lambda_hyper).

(** the body of the row loop of sample_factor_u and sample_factor_v:
      F[i, :] = mvnrnd_pre(solve(var3[:, :, i], var4[:, i]), var3[:, :, i]) *)
Definition resample_row (F : loc) (var3 : tensor T) (var4 : matrix T)
    (i : nat) : M unit :=
  P ← lift (slice_last var3 i);
  b ← lift (col var4 i);
  m ← lift (solve P b);
  r ← mvnrnd_pre m P;
  assign_row F i r.

(** def sample_factor_u(tau_sparse_tensor, tau_ind, U, V, X, beta0 = 1) *)
Definition sample_factor_u (tau_sparse_tensor tau_ind : tensor T)
    (U V X : loc) (beta0 : nat) : M loc :=
  Um ← read_mat U;
  let dim1 := nrows Um in
  let rank := ncols Um in
  '(var_mu_hyper, var_Lambda_hyper) ← entity_hyper Um beta0;
  Xm ← read_mat X;
  Vm ← read_mat V;
  var1 ← lift (transpose <$> kr_prod Xm Vm);
  var2 ← lift (kr_prod var1 var1);
  m ← lift (ten2mat tau_ind Axis0);
  p ← lift (np_matmul var2 (transpose m));
  c3 ← lift (reshape3 p (rank, rank, dim1));
  var3 ← lift (tadd c3 (new_axis_last var_Lambda_hyper));
  m ← lift (ten2mat tau_sparse_tensor Axis0);
  c4 ← lift (np_matmul var1 (transpose m));
  lm ← lift (np_matvec var_Lambda_hyper var_mu_hyper);
  var4 ← lift (madd c4 (column_vector lm));
  for_each (seq 0 dim1) (resample_row U var3 var4);;
  mret U.

(** def sample_factor_v(tau_sparse_tensor, tau_ind, U, V, X, beta0 = 1) *)
Definition sample_factor_v (tau_sparse_tensor tau_ind : tensor T)
    (U V X : loc) (beta0 : nat) : M loc :=
  Vm ← read_mat V;
  let dim2 := nrows Vm in
  let rank := ncols Vm in
  '(var_mu_hyper, var_Lambda_hyper) ← entity_hyper Vm beta0;
  Xm ← read_mat X;
  Um ← read_mat U;
  var1 ← lift (transpose <$> kr_prod Xm Um);
  var2 ← lift (kr_prod var1 var1);
  m ← lift (ten2mat tau_ind Axis1);
  p ← lift (np_matmul var2 (transpose m));
  c3 ← lift (reshape3 p (rank, rank, dim2));
  var3 ← lift (tadd c3 (new_axis_last var_Lambda_hyper));
  m ← lift (ten2mat tau_sparse_tensor Axis1);
  c4 ← lift (np_matmul var1 (transpose m));
  lm ← lift (np_matvec var_Lambda_hyper var_mu_hyper);
  var4 ← lift (madd c4 (column_vector lm));
  for_each (seq 0 dim2) (resample_row V var3 var4);;
  mret V.

(** X[i, :] read from the array object *)
Definition read_row (l : loc) (i : nat) : M (list T) :=
  m ← read_mat l; lift (row m i).

(** the body of the time loop of sample_factor_x *)
Definition resample_step (X : loc) (dim3 : nat) (var3 : tensor T)
    (var4 : matrix T) (var_mu_hyper : list T) (var_Lambda_hyper : matrix T)
    (t : nat) : M unit :=
  if decide (t = 0) then
    x1 ← read_row X (t + 1);
    s ← lift (vadd x1 var_mu_hyper);
    P ← lift (slice_last var3 t);
    P ← lift (madd P (mscale (of_nat 2) var_Lambda_hyper));
    r ← mvnrnd_pre (vdiv s (of_nat 2)) P;
    assign_row X t r
  else if decide (t = dim3 - 1) then
    b ← lift (col var4 t);
    xp ← read_row X (t - 1);
    lx ← lift (np_matvec var_Lambda_hyper xp);
    temp1 ← lift (vadd b lx);
    P ← lift (slice_last var3 t);
    temp2 ← lift (madd P var_Lambda_hyper);
    m ← lift (solve temp2 temp1);
    r ← mvnrnd_pre m temp2;
    assign_row X t r
  else
    b ← lift (col var4 t);
    xp ← read_row X (t - 1);
    xn ← read_row X (t + 1);
    s ← lift (vadd xp xn);
    lx ← lift (np_matvec var_Lambda_hyper s);
    temp1 ← lift (vadd b lx);
    P ← lift (slice_last var3 t);
    temp2 ← lift (madd P (mscale (of_nat 2) var_Lambda_hyper));
    m ← lift (solve temp2 temp1);
    r ← mvnrnd_pre m temp2;
    assign_row X t r.

(** def sample_factor_x(tau_sparse_tensor, tau_ind, U, V, X, beta0 = 1) *)
Definition sample_factor_x (tau_sparse_tensor tau_ind : tensor T)
    (U V X : loc) (beta0 : nat) : M loc :=
  Xm ← read_mat X;
  let dim3 := nrows Xm in
  let rank := ncols Xm in
  x0 ← lift (row Xm 0);
  let var_mu_hyper := vdiv x0 (of_nat (beta0 + 1)) in
  dx ← lift (mzip fsub (Mat (dim3 - 1) rank (drop 1 (rows Xm)))
                       (Mat (dim3 - 1) rank (take (dim3 - 1) (rows Xm))));
  d2 ← lift (np_matmul (transpose dx) dx);
  s ← lift (madd (eye rank) d2);
  s ← lift (madd s (mdiv (mscale (of_nat beta0) (outer x0 x0))
                         (of_nat (beta0 + 1))));
  var_V_hyper ← lift (inv s);
  var_Lambda_hyper ← draw_or_raise (wishart_rvs (dim3 + rank) var_V_hyper);
  var_mu_hyper ← mvnrnd_pre var_mu_hyper
                   (mscale (of_nat (beta0 + 1)) var_Lambda_hyper);
  Vm ← read_mat V;
  Um ← read_mat U;
  var1 ← lift (transpose <$> kr_prod Vm Um);
  var2 ← lift (kr_prod var1 var1);
  m ← lift (ten2mat tau_ind Axis2);
  p ← lift (np_matmul var2 (transpose m));
  var3 ← lift (reshape3 p (rank, rank, dim3));
  m ← lift (ten2mat tau_sparse_tensor Axis2);
  var4 ← lift (np_matmul var1 (transpose m));
  for_each (seq 0 dim3)
    (resample_step X dim3 var3 var4 var_mu_hyper var_Lambda_hyper);;
  mret X.

(** np.sum of a boolean array *)
Definition count_true (t : tensor bool) : nat :=
  length (filter (λ b : bool, b = true) (concat (concat (slabs t)))).

(** def sample_precision_tau(sparse_tensor, tensor_hat, ind):
      var_alpha = 1e-6 + 0.5 * np.sum(ind)
      var_beta = 1e-6 + 0.5 * np.sum(((sparse_tensor - tensor_hat) ** 2) * ind)
      return np.random.gamma(var_alpha, 1 / var_beta) *)
Definition sample_precision_tau (sparse_tensor tensor_hat : tensor T)
    (ind : tensor bool) : M T :=
  let var_alpha := fadd fmicro (fmul fhalf (of_nat (count_true ind))) in
  d ← lift (tzip fsub sparse_tensor tensor_hat);
  e ← lift (tzip (λ x (b : bool), fmul x (of_bool b))
              (tmap (λ x, fmul x x) d) ind);
  let var_beta := fadd fmicro (fmul fhalf (tsum e)) in
  draw_or_raise (gamma_rvs var_alpha (fdiv fone var_beta)).

(** np.isnan(a).any() *)
Definition any_nan (t : tensor T) : bool :=
  existsb fisnan (concat (concat (slabs t))).

(** a[np.isnan(a)] = 0 *)
Definition nan_to_zero (t : tensor T) : tensor T :=
  tmap (λ x, if fisnan x then fzero else x) t.

Definition show_iter : nat := 200.

(** the local variables the sweeps carry *)
Record chain := Chain {
  tau : T;
  temp_hat : list T;
  tensor_hat_plus : tensor T;
}.

(** one pass of the body of [for it in range(burn_iter + gibbs_iter)] *)
Definition sweep (sparse_tensor U V X : loc) (ind : tensor bool)
    (pos_test : list index3) (dense_test : list T) (burn_iter : nat)
    (c : chain) (it : nat) : M chain :=
  let tau_ind := tmap (λ b, fmul (tau c) (of_bool b)) ind in
  sp ← read_ten sparse_tensor;
  let tau_sparse_tensor := tscale (tau c) sp in
  U ← sample_factor_u tau_sparse_tensor tau_ind U V X 1;
  V ← sample_factor_v tau_sparse_tensor tau_ind U V X 1;
  X ← sample_factor_x tau_sparse_tensor tau_ind U V X 1;
  Um ← read_mat U;
  Vm ← read_mat V;
  Xm ← read_mat X;
  tensor_hat ← lift (einsum Um Vm Xm);
  h ← lift (gather tensor_hat pos_test);
  temp_hat ← lift (vzip_inplace fadd (temp_hat c) h);
  sp ← read_ten sparse_tensor;
  tau ← sample_precision_tau sp tensor_hat ind;
  tensor_hat_plus ←
    (if decide (burn_iter < it + 1)
     then lift (tzip_inplace fadd (tensor_hat_plus c) tensor_hat)
     else mret (tensor_hat_plus c));
  temp_hat ←
    (if decide ((it + 1) `mod` show_iter = 0 ∧ it < burn_iter)
     then
       let temp_hat := vdiv temp_hat (of_nat show_iter) in
       print (Iter (it + 1));;
       mape ← lift (compute_mape dense_test temp_hat);
       print (MAPE mape);;
       rmse ← lift (compute_rmse dense_test temp_hat);
       print (RMSE rmse);;
       let temp_hat := vzeros (length pos_test) in
       print Blank;;
       mret temp_hat
     else mret temp_hat);
  mret (Chain tau temp_hat tensor_hat_plus).

(** what BPTF prepares before the loop: the observation mask, the
    held-out positions and the reference values there *)
Definition prepare (dense_tensor sparse_tensor : loc)
  : M (tensor bool * list index3 * list T) :=
  sp ← read_ten sparse_tensor;
  '(ind, pos_test) ←
    (if negb (any_nan sp)
     then
       let ind := tmap (λ x, fneqb x fzero) sp in
       dn ← read_ten dense_tensor;
       test ← lift (tzip andb (tmap (λ x, fneqb x fzero) dn)
                              (tmap (λ x, feqb x fzero) sp));
       mret (ind, where3 test)
     else
       dn ← read_ten dense_tensor;
       test ← lift (tzip andb (tmap (λ x, fneqb x fzero) dn)
                              (tmap fisnan sp));
       let ind := tmap (λ x, negb (fisnan x)) sp in
       write_ten sparse_tensor (nan_to_zero sp);;
       mret (ind, where3 test));
  dn ← read_ten dense_tensor;
  dense_test ← lift (gather dn pos_test);
  mret (ind, pos_test, dense_test).

(** def BPTF(dense_tensor, sparse_tensor, init, burn_iter, gibbs_iter) *)
Definition BPTF (dense_tensor sparse_tensor : loc) (init : gmap string loc)
    (burn_iter gibbs_iter : nat) : M (tensor T) :=
  sp ← read_ten sparse_tensor;
  let dim := dims sp in
  U ← lift (or_raise KeyError (init !! "U"));
  V ← lift (or_raise KeyError (init !! "V"));
  X ← lift (or_raise KeyError (init !! "X"));
  '(ind, pos_test, dense_test) ← prepare dense_tensor sparse_tensor;
  let c0 := Chain fone (vzeros (length pos_test)) (tzeros dim) in
  c ← for_fold (seq 0 (burn_iter + gibbs_iter)) c0
        (sweep sparse_tensor U V X ind pos_test dense_test burn_iter);
  let tensor_hat := tdiv (tensor_hat_plus c) (of_nat gibbs_iter) in
  h ← lift (gather tensor_hat pos_test);
  mape ← lift (compute_mape dense_test h);
  print (Imputation_MAPE mape);;
  h ← lift (gather tensor_hat pos_test);
  rmse ← lift (compute_rmse dense_test h);
  print (Imputation_RMSE rmse);;
  print Blank;;
  mret tensor_hat.

End BPTF.

(** ** Running the model on binary64 floats

    [float_scalar] interprets the scalars as IEEE doubles.  [float_extern]
    stands in for numpy/scipy on 2 x 2 systems: closed forms for inv,
    solve, cholesky and the triangular solve, a generator that replays a
    fixed table of normal variates, and Wishart and Gamma "draws" that
    return the mean of the distribution. *)

Module Float64.

(** The summation on which the concrete runs evaluate np.sum, pairwise in
    the manner of numpy: in order below 8 elements; up to 128 elements
    with 8 accumulators, one per position modulo 8, added in pairs at the
    end, and the rest in order; by halves (rounded down to a multiple of
    8) above.  No theorem depends on this choice: they are stated for
    every [fsum]. *)
Definition block_sum (l : list float) : float :=
  let n := length l in
  let full := n - n `mod` 8 in
  match foldl (zip_with PrimFloat.add) (take 8 l)
              (chunks (full `div` 8 - 1) 8 (drop 8 l)) with
  | [r0; r1; r2; r3; r4; r5; r6; r7] =>
      foldl PrimFloat.add
        (((r0 + r1) + (r2 + r3)) + ((r4 + r5) + (r6 + r7)))%float
        (drop full l)
  | _ => 0%float
  end.

Fixpoint pairwise_sum (fuel : nat) (l : list float) : float :=
  let n := length l in
  if decide (n < 8) then foldl PrimFloat.add 0%float l
  else if decide (n ≤ 128) then block_sum l
  else match fuel with
       | 0 => 0%float
       | S fuel' =>
           let n2 := n `div` 2 - (n `div` 2) `mod` 8 in
           (pairwise_sum fuel' (take n2 l) + pairwise_sum fuel' (drop n2 l))%float
       end.

(** the block sum added to the identity *)
Definition np_sum (l : list float) : float :=
  (0 + pairwise_sum (length l) l)%float.

(** the inner product on which the concrete runs evaluate [@], as the
    reference BLAS computes it: the products, each rounded, added in
    order *)
Definition ref_dot (a b : list float) : float :=
  foldl PrimFloat.add 0%float (zip_with PrimFloat.mul a b).

Local Open Scope float_scope.

Global Instance float_scalar : Scalar float := {|
  fzero := 0;
  fone := 1;
  fadd := PrimFloat.add;
  fsub := PrimFloat.sub;
  fmul := PrimFloat.mul;
  fdiv := PrimFloat.div;
  fabs := PrimFloat.abs;
  fsqrt := PrimFloat.sqrt;
  of_nat n := PrimFloat.of_uint63 (Uint63.of_Z (Z.of_nat n));
  fisnan := PrimFloat.is_nan;
  feqb := PrimFloat.eqb;
  fhalf := 0.5;
  fmicro := 0x1.0c6f7a0b5ed8dp-20;
  fsum := np_sum;
  fdot := ref_dot;
|}.

Definition inv2 (m : matrix float) : result (matrix float) :=
  match rows m with
  | [[a; b]; [c; d]] =>
      let det := a * d - b * c in
      if det =? 0 then Raise LinAlgError
      else Ok (Mat 2%nat 2%nat [[d / det; - b / det]; [- c / det; a / det]])
  | _ => Raise LinAlgError
  end.

Definition solve2 (m : matrix float) (v : list float) : result (list float) :=
  match rows m, v with
  | [[a; b]; [c; d]], [x; y] =>
      let det := a * d - b * c in
      if det =? 0 then Raise LinAlgError
      else Ok [(d * x - b * y) / det; (a * y - c * x) / det]
  | _, _ => Raise ValueError
  end.

Definition cholesky2 (m : matrix float) : result (matrix float) :=
  match rows m with
  | [[a; b]; [_; d]] =>
      if 0 <? a then
        let c11 := PrimFloat.sqrt a in
        let c12 := b / c11 in
        let r := d - c12 * c12 in
        if 0 <? r then Ok (Mat 2%nat 2%nat [[c11; c12]; [0; PrimFloat.sqrt r]])
        else Raise LinAlgError
      else Raise LinAlgError
  | _ => Raise ValueError
  end.

Definition solve_ut2 (m : matrix float) (v : list float)
  : result (list float) :=
  match rows m, v with
  | [[c11; c12]; [_; c22]], [x; y] =>
      if (c11 =? 0) || (c22 =? 0) then Raise LinAlgError
      else let y2 := y / c22 in Ok [(x - c12 * y2) / c11; y2]
  | _, _ => Raise ValueError
  end.

Definition variates : list float :=
  [0.5; -1.25; 0.25; 1.5; -0.75; 0.125; -0.5; 1].

Definition replay (n g : nat) : list float * nat :=
  ((λ k, default 0 (variates !! ((g + k) `mod` 8)%nat)) <$> seq 0%nat n, (g + n)%nat).

Global Instance float_extern : Extern float nat := {|
  inv := inv2;
  solve := solve2;
  cholesky_upper := cholesky2;
  solve_ut := solve_ut2;
  normrnd := replay;
  wishart_rvs df scale g := (Ok (mscale (of_nat df) scale), g);
  gamma_rvs shape scale g := (Ok (shape * scale), g);
|}.

Local Close Scope float_scope.

(** a 2 x 2 x 2 run *)
Definition dense0 : tensor float :=
  Ten (2, 2, 2) [[[1; 2]; [3; 4]]; [[5; 6]; [7; 8]]]%float.

Definition sparse0 : tensor float :=
  Ten (2, 2, 2) [[[1; nan]; [3; 4]]; [[5; 6]; [nan; 8]]]%float.

Definition U0 : matrix float := Mat 2 2 [[0.5; 0.25]; [-0.25; 0.5]]%float.

Definition V0 : matrix float := Mat 2 2 [[0.25; -0.5]; [0.5; 0.125]]%float.

Definition X0 : matrix float := Mat 2 2 [[-0.5; 0.5]; [0.25; 0.75]]%float.

Definition init0 : gmap string loc := {[ "U" := 0; "V" := 1; "X" := 2 ]}.

Definition world0 : world float nat :=
  World {[ 0 := U0; 1 := V0; 2 := X0 ]} {[ 0 := dense0; 1 := sparse0 ]} 0 [].

End Float64.

(** * The integers as exact scalars

    An instance whose arithmetic satisfies the semiring laws.  Division is
    floor division and the square root is the integer square root; the two
    fractional constants have no integer value and nothing run on this
    instance mentions them. *)
Module Integer.

Local Open Scope Z_scope.

Global Instance Z_scalar : Scalar Z := {|
  fzero := 0;
  fone := 1;
  fadd := Z.add;
  fsub := Z.sub;
  fmul := Z.mul;
  fdiv := Z.div;
  fabs := Z.abs;
  fsqrt := Z.sqrt;
  of_nat := Z.of_nat;
  fisnan _ := false;
  feqb := Z.eqb;
  fhalf := 0;
  fmicro := 0;
  fsum := foldl Z.add 0;
  fdot a b := foldl Z.add 0 (zip_with Z.mul a b);
|}.

(** exact division: defined when it leaves no remainder *)
Definition exact_div (a b : Z) : result Z :=
  if (b =? 0) || negb (a mod b =? 0) then Raise LinAlgError else Ok (a / b).

Definition exact_sqrt (a : Z) : result Z :=
  if (Z.sqrt a * Z.sqrt a =? a) && (0 <? a) then Ok (Z.sqrt a)
  else Raise LinAlgError.

Definition inv2 (m : matrix Z) : result (matrix Z) :=
  match rows m with
  | [[a; b]; [c; d]] =>
      let det := a * d - b * c in
      a' ← exact_div d det; b' ← exact_div (- b) det;
      c' ← exact_div (- c) det; d' ← exact_div a det;
      Ok (Mat 2%nat 2%nat [[a'; b']; [c'; d']])
  | _ => Raise LinAlgError
  end.

Definition solve2 (m : matrix Z) (v : list Z) : result (list Z) :=
  match rows m, v with
  | [[a; b]; [c; d]], [x; y] =>
      let det := a * d - b * c in
      x' ← exact_div (d * x - b * y) det;
      y' ← exact_div (a * y - c * x) det;
      Ok [x'; y']
  | _, _ => Raise ValueError
  end.

Definition cholesky2 (m : matrix Z) : result (matrix Z) :=
  match rows m with
  | [[a; b]; [_; d]] =>
      c11 ← exact_sqrt a;
      c12 ← exact_div b c11;
      c22 ← exact_sqrt (d - c12 * c12);
      Ok (Mat 2%nat 2%nat [[c11; c12]; [0; c22]])
  | _ => Raise ValueError
  end.

Definition solve_ut2 (m : matrix Z) (v : list Z) : result (list Z) :=
  match rows m, v with
  | [[c11; c12]; [_; c22]], [x; y] =>
      y2 ← exact_div y c22;
      y1 ← exact_div (x - c12 * y2) c11;
      Ok [y1; y2]
  | _, _ => Raise ValueError
  end.

(** the random stream: a list of variates drawn in advance *)
Definition replay (n : nat) (g : list Z) : list Z * list Z :=
  (take n (g ++ replicate n 0), drop n g).

Global Instance Z_extern : Extern Z (list Z) := {|
  inv := inv2;
  solve := solve2;
  cholesky_upper := cholesky2;
  solve_ut := solve_ut2;
  normrnd := replay;
  wishart_rvs df scale g := (Ok (mscale (Z.of_nat df) scale), g);
  gamma_rvs shape scale g := (Ok (shape * scale), g);
|}.

(** Lambda = C^T C with C = [[1, 1], [0, 1]], and A = C^-1 *)
Definition C1 : matrix Z := Mat 2 2 [[1; 1]; [0; 1]].

Definition Lambda1 : matrix Z := Mat 2 2 [[1; 1]; [1; 2]].

Definition A1 : matrix Z := Mat 2 2 [[1; -1]; [0; 1]].

Definition mu1 : list Z := [10; 20].

Definition world1 : world Z (list Z) := World ∅ ∅ [3; 5; 7] [].

End Integer.

(** * Concrete runs

    Small inputs on which the model is run, on binary64 floats. *)

(** a reference tensor with a single time slice beside a 2 x 2 x 2 sparse
    tensor whose missing entries lie in that slice *)
Definition dense_thin : tensor float :=
  Ten (2, 2, 1) [[[1]; [2]]; [[3]; [4]]]%float.








Definition is_Ok {A} (r : result A) : bool :=
  match r with Ok _ => true | Raise _ => false end.

(** the example of the held-out set: dense = [[1, 0], [2, 3]] and
    sparse = [[1, NaN], [2, 0]], as tensors with a single time slice, so
    that position (i, j) of the example is position (i, j, 0) *)
Definition dense_ex : tensor float :=
  Ten (2, 2, 1) [[[1]; [0]]; [[2]; [3]]]%float.

Definition sparse_ex : tensor float :=
  Ten (2, 2, 1) [[[1]; [nan]]; [[2]; [0]]]%float.

Definition world_ex : world float nat :=
  World ∅ {[ 0 := dense_ex; 1 := sparse_ex ]} 0 [].



(** the 2 x 2 x 2 run with other reference values *)
Definition dense0' : tensor float :=
  Ten (2, 2, 2) [[[10; 20]; [30; 40]]; [[50; 60]; [70; 80]]]%float.

Definition world0' : world float nat :=
  World {[ 0 := Float64.U0; 1 := Float64.V0; 2 := Float64.X0 ]}
        {[ 0 := dense0'; 1 := Float64.sparse0 ]} 0 [].

(** a tensor with a single time slice and a temporal factor of one row *)
Definition sparse_one : tensor float :=
  Ten (2, 2, 1) [[[1]; [nan]]; [[3]; [4]]]%float.

Definition X_one : matrix float := Mat 1 2 [[-0.5; 0.5]]%float.

Definition world_one : world float nat :=
  World {[ 0 := Float64.U0; 1 := Float64.V0; 2 := X_one ]}
        {[ 0 := dense_thin; 1 := sparse_one ]} 0 [].







(** * Specifications

    The definitions of this part are not translations of the code.  They
    say, in the terms of the method, what the code is proved to compute
    (the row draws, the sweeps, the Normal-Wishart update), and name the
    relations between stores the proofs use. *)

Section FrameRelations.
Context {T G : Type}.
Local Abbreviation M := (M T G).
Implicit Types (R : relation (world T G)).

(** whatever the outcome, the final store is [R]-related to the first *)
Definition preserves {A} R (m : M A) : Prop :=
  ∀ w r w', m w = (r, w') → R w w'.

(** the shape of an array object *)
Definition mshape (m : matrix T) : nat * nat * nat :=
  (nrows m, ncols m, length (rows m)).

(** same 3-D objects; the 2-D objects keep their shapes *)
Definition same_shapes : relation (world T G) := λ w w',
  tens w' = tens w ∧ ∀ l, mshape <$> mats w' !! l = mshape <$> mats w !! l.

(** the same array objects *)
Definition same_arrays : relation (world T G) := λ w w',
  tens w' = tens w ∧ mats w' = mats w.

(** the same 2-D objects *)
Definition same_mats : relation (world T G) := λ w w', mats w' = mats w.

(** the same 3-D objects *)
Definition same_tens : relation (world T G) := λ w w', tens w' = tens w.

(** relations that hold whenever the array objects are the same *)
Class Frames R : Prop := frames : ∀ w w', same_arrays w w' → R w w'.

End FrameRelations.

Section Reconstruction.
Context {T G : Type} `{!Scalar T} `{!Extern T G}.

(** the rank contraction of the factor matrices as they are in the store *)
Definition reconstruct (U V X : loc) : M T G (tensor T) :=
  Um ← read_mat U; Vm ← read_mat V; Xm ← read_mat X;
  lift (einsum Um Vm Xm).

(** [acc += r] for each [r] in turn *)
Fixpoint sum_tensors (acc : tensor T) (rs : list (tensor T))
  : result (tensor T) :=
  match rs with
  | [] => Ok acc
  | r :: rs => acc' ← tzip_inplace fadd acc r; sum_tensors acc' rs
  end.

End Reconstruction.

Section Sweeps.
Context {T G : Type} `{!Scalar T} `{!Extern T G}.

(** the chain before the first sweep *)
Definition chain0 (pos_test : list index3) (dim : shape3) : chain :=
  Chain fone (vzeros (length pos_test)) (tzeros dim).

(** the first [k] sweeps of BPTF's loop *)
Definition sweeps (sparse_tensor U V X : loc) (ind : tensor bool)
    (pos_test : list index3) (dense_test : list T) (burn_iter : nat)
    (dim : shape3) (k : nat) : M T G chain :=
  for_fold (seq 0 k) (chain0 pos_test dim)
    (sweep sparse_tensor U V X ind pos_test dense_test burn_iter).

(** the reconstruction of sweep [k] (counted from 1): the contraction of
    U, V, X as the first [k] sweeps leave them *)
Definition reconstruction (sparse_tensor U V X : loc) (ind : tensor bool)
    (pos_test : list index3) (dense_test : list T) (burn_iter : nat)
    (dim : shape3) (k : nat) : M T G (tensor T) :=
  sweeps sparse_tensor U V X ind pos_test dense_test burn_iter dim k;;
  reconstruct U V X.

End Sweeps.

Section StorelessDefs.
Context {T G : Type}.
Local Abbreviation M := (M T G).

Definition set_mats (w : world T G) (ms : gmap loc (matrix T)) : world T G :=
  World ms (tens w) (rng w) (stdout w).

(** [m] neither reads nor writes the 2-D objects *)
Definition storeless {A} (m : M A) : Prop :=
  ∀ w ms, m (set_mats w ms) = ((m w).1, set_mats (m w).2 ms).

End StorelessDefs.

Section RowChain.
Context {T G : Type} `{!Scalar T} `{!Extern T G}.
Local Abbreviation M := (M T G).

(** the row before [t], if there is one *)
Definition row_before {A} (t : nat) (rs : list A) : option A :=
  match t with 0 => None | S t' => rs !! t' end.

(** The rows a loop over [ts] stores, when the draw for row [t] is
    [post t left right]: [left] is the row stored just before in this
    same loop, [right] is row [t + 1] as it was before the loop. *)
Fixpoint chain_rows (post : nat → option (list T) → option (list T) → M (list T))
    (ncol : nat) (old : list (list T)) (ts : list nat)
    (left : option (list T)) : M (list (list T)) :=
  match ts with
  | [] => mret []
  | t :: ts' =>
      v ← post t left (old !! (t + 1));
      r ← lift (fit_row ncol v);
      rest ← chain_rows post ncol old ts' (Some r);
      mret (r :: rest)
  end.

End RowChain.

Section Entries.
Context {T : Type} `{!Scalar T}.

Definition proj (i : nat) (r : list T) : T := default fzero (r !! i).

Definition unbox (s : list T) : T := default fzero (head s).

End Entries.

Section EntityPosterior.
Context {T G : Type} `{!Scalar T} `{!Extern T G}.

(** the Khatri-Rao design matrix of two factors, transposed *)
Definition design (A B : matrix T) : result (matrix T) :=
  transpose <$> kr_prod A B.

(** per row of the unfolded mask: the [rank] x [rank] precision
    contribution (the last axis runs over the rows) *)
Definition precision_contributions (A B : matrix T) (tau_ind : tensor T)
    (mode : axis) (rank dim : nat) : result (tensor T) :=
  var1 ← design A B;
  var2 ← kr_prod var1 var1;
  m ← ten2mat tau_ind mode;
  p ← np_matmul var2 (transpose m);
  reshape3 p (rank, rank, dim).

(** per row of the unfolded data: the linear contribution (one column
    per row) *)
Definition linear_contributions (A B : matrix T) (tau_sparse_tensor : tensor T)
    (mode : axis) : result (matrix T) :=
  var1 ← design A B;
  m ← ten2mat tau_sparse_tensor mode;
  np_matmul var1 (transpose m).

(** the draw of row [i] of an entity factor: precision = contribution_i +
    Lambda_hyper, mean = the solution of that precision against
    linear_contribution_i + Lambda_hyper mu_hyper *)
Definition row_posterior (c3 : tensor T) (c4 : matrix T) (mu_hyper : list T)
    (Lambda_hyper : matrix T) (i : nat) : M T G (list T) :=
  Ci ← lift (slice_last c3 i);
  precision ← lift (madd Ci Lambda_hyper);
  li ← lift (col c4 i);
  lm ← lift (np_matvec Lambda_hyper mu_hyper);
  target ← lift (vadd li lm);
  mean ← lift (solve precision target);
  mvnrnd_pre mean precision.

End EntityPosterior.

Section TemporalPosterior.
Context {T G : Type} `{!Scalar T} `{!Extern T G}.

(** The draw of row [t] of the temporal factor, given [left], the row
    before it as already resampled in this call, and [right], the row
    after it as the previous sweep left it.  [var3] and [var4] hold the
    per-step precision and linear data contributions. *)
Definition x_posterior (dim3 : nat) (var3 : tensor T) (var4 : matrix T)
    (mu_hyper : list T) (Lambda_hyper : matrix T) (t : nat)
    (left right : option (list T)) : M T G (list T) :=
  if decide (t = 0) then
    (* precision = contribution + 2 Lambda; mean = (X[1] + mu) / 2 *)
    x_next ← lift (or_raise IndexError right);
    s ← lift (vadd x_next mu_hyper);
    Ct ← lift (slice_last var3 t);
    precision ← lift (madd Ct (mscale (of_nat 2) Lambda_hyper));
    mvnrnd_pre (vdiv s (of_nat 2)) precision
  else if decide (t = dim3 - 1) then
    (* precision = contribution + Lambda;
       target = linear contribution + Lambda X[t - 1] *)
    lt ← lift (col var4 t);
    x_prev ← lift (or_raise IndexError left);
    lx ← lift (np_matvec Lambda_hyper x_prev);
    target ← lift (vadd lt lx);
    Ct ← lift (slice_last var3 t);
    precision ← lift (madd Ct Lambda_hyper);
    mean ← lift (solve precision target);
    mvnrnd_pre mean precision
  else
    (* precision = contribution + 2 Lambda;
       target = linear contribution + Lambda (X[t - 1] + X[t + 1]) *)
    lt ← lift (col var4 t);
    x_prev ← lift (or_raise IndexError left);
    x_next ← lift (or_raise IndexError right);
    s ← lift (vadd x_prev x_next);
    lx ← lift (np_matvec Lambda_hyper s);
    target ← lift (vadd lt lx);
    Ct ← lift (slice_last var3 t);
    precision ← lift (madd Ct (mscale (of_nat 2) Lambda_hyper));
    mean ← lift (solve precision target);
    mvnrnd_pre mean precision.

End TemporalPosterior.

Section FactorUpdates.
Context {T G : Type} `{!Scalar T} `{!Extern T G}.

(** the three factor updates of a sweep, U then V then X, at noise
    precision [tau] *)
Definition resample_factors (sparse_tensor U V X : loc) (ind : tensor bool)
    (tau : T) : M T G () :=
  let tau_ind := tmap (λ b, fmul tau (of_bool b)) ind in
  sp ← read_ten sparse_tensor;
  let tau_sparse_tensor := tscale tau sp in
  U ← sample_factor_u tau_sparse_tensor tau_ind U V X 1;
  V ← sample_factor_v tau_sparse_tensor tau_ind U V X 1;
  _ ← sample_factor_x tau_sparse_tensor tau_ind U V X 1;
  mret ().

End FactorUpdates.

Section Agreement.
Context {T G : Type}.
Local Abbreviation M := (M T G).

(** the same store and generator, but for the 3-D object [d] and for what
    was printed *)
Definition agree (d : loc) (w1 w2 : world T G) : Prop :=
  mats w1 = mats w2 ∧ rng w1 = rng w2 ∧
  ∀ l, l ≠ d → tens w1 !! l = tens w2 !! l.

(** [m] does in both stores the same thing *)
Definition respects {A} (d : loc) (m : M A) : Prop :=
  ∀ w1 w2, agree d w1 w2 →
    (m w1).1 = (m w2).1 ∧ agree d (m w1).2 (m w2).2.

End Agreement.

Section SweepCore.
Context {T G : Type} `{!Scalar T} `{!Extern T G}.

(** The part of a sweep that the held-out positions do not enter: the
    factor updates, the reconstruction, the new noise precision and the
    posterior-mean accumulator. *)
Definition sweep_core (sparse_tensor U V X : loc) (ind : tensor bool)
    (burn_iter : nat) (tau : T) (tensor_hat_plus : tensor T) (it : nat)
  : M T G (T * tensor T * tensor T) :=
  resample_factors sparse_tensor U V X ind tau;;
  tensor_hat ← reconstruct U V X;
  sp ← read_ten sparse_tensor;
  tau ← sample_precision_tau sp tensor_hat ind;
  tensor_hat_plus ←
    (if decide (burn_iter < it + 1)
     then lift (tzip_inplace fadd tensor_hat_plus tensor_hat)
     else mret tensor_hat_plus);
  mret (tau, tensor_hat_plus, tensor_hat).

(** positions inside an array of shape [d] *)
Definition valid_pos (d : shape3) (pos : list index3) : Prop :=
  Forall (λ p, p.1.1 < d.1.1 ∧ p.1.2 < d.1.2 ∧ p.2 < d.2) pos.

(** the 2-D object [l] has [n] rows *)
Definition has_rows (w : world T G) (l : loc) (n : nat) : Prop :=
  ∃ m, mats w !! l = Some m ∧ nrows m = n ∧ length (rows m) = n.

(** the same but for what was printed *)
Definition same_but_stdout (w w' : world T G) : Prop :=
  mats w' = mats w ∧ tens w' = tens w ∧ rng w' = rng w.

End SweepCore.

Section Outcomes.
Context {T G : Type} `{!Scalar T} `{!Extern T G}.
Local Abbreviation M := (M T G).

(** the two chains: the same noise precision and accumulator, each its
    own held-out buffer *)
Definition chains_agree (pos1 pos2 : list index3) (c1 c2 : chain (T:=T)) : Prop :=
  tau c1 = tau c2 ∧ tensor_hat_plus c1 = tensor_hat_plus c2 ∧
  length (temp_hat c1) = length pos1 ∧ length (temp_hat c2) = length pos2.

Definition outcomes_agree {A} (d : loc) (P : A → A → Prop)
    (r1 r2 : result A * world T G) : Prop :=
  agree d r1.2 r2.2 ∧
  match r1.1, r2.1 with
  | Ok a1, Ok a2 => P a1 a2
  | Raise e1, Raise e2 => e1 = e2
  | _, _ => False
  end.

End Outcomes.

Section NormalWishart.
Context {T G : Type} `{!Scalar T} `{!Extern T G}.

(** the [m] x [n] matrix with entries [f i j] *)
Definition tabulate (m n : nat) (f : nat → nat → T) : matrix T :=
  Mat m n ((λ i, f i <$> seq 0 n) <$> seq 0 m).

(** entry [a] of a vector, entry [(i, a)] of a matrix *)
Definition vget (v : list T) (a : nat) : T := nth a v fzero.

Definition mget (m : matrix T) (i a : nat) : T := vget (nth i (rows m) []) a.

(** F_bar, the mean of the rows of F: entry a is the sum of column a,
    added in the order of the rows, divided by the number of rows *)
Definition row_mean (F : matrix T) : list T :=
  (λ a, fdiv (vsum ((λ r, vget r a) <$> rows F)) (of_nat (nrows F)))
    <$> seq 0 (ncols F).

(** column a of F - F_bar *)
Definition centred_column (F : matrix T) (F_bar : list T) (a : nat) : list T :=
  (λ r, fsub (vget r a) (vget F_bar a)) <$> rows F.

(** the scatter matrix S = (F - F_bar)^T (F - F_bar): entry (a, b) is the
    inner product of the columns a and b of F - F_bar *)
Definition scatter (F : matrix T) (F_bar : list T) : matrix T :=
  tabulate (ncols F) (ncols F) (λ a b,
    fdot (centred_column F F_bar a) (centred_column F F_bar b)).

(** W^-1 = I_R + S + (n / (n + beta0)) beta0 outer(F_bar, F_bar) *)
Definition inverse_scale (F : matrix T) (F_bar : list T) (ratio : T)
    (beta0 : nat) : matrix T :=
  tabulate (ncols F) (ncols F) (λ a b,
    fadd (fadd (if decide (a = b) then fone else fzero)
               (mget (scatter F F_bar) a b))
         (fmul (fmul ratio (of_nat beta0))
               (fmul (vget F_bar a) (vget F_bar b)))).

(** The Normal-Wishart update of an entity factor [F] with [n] rows and
    [R] columns, with F_bar the mean of its rows and ratio = n / (n +
    beta0): Lambda from a Wishart with [n + R] degrees of freedom and
    scale the inverse of [inverse_scale]; then mu from the precision-form
    normal sampler with mean ratio F_bar and precision (n + beta0)
    Lambda, entry by entry. *)
Definition normal_wishart_update (F : matrix T) (beta0 : nat)
  : M T G (list T * matrix T) :=
  let n := nrows F in
  let R := ncols F in
  let F_bar := row_mean F in
  if decide (n + beta0 = 0) then lift (Raise ZeroDivisionError)
  else
    let ratio := fdiv (of_nat n) (of_nat (n + beta0)) in
    W ← lift (inv (inverse_scale F F_bar ratio beta0));
    Lambda ← draw_or_raise (wishart_rvs (n + R) W);
    mu ← mvnrnd_pre
           ((λ a, fmul ratio (vget F_bar a)) <$> seq 0 R)
           (Mat (nrows Lambda) (ncols Lambda)
              (fmap (M:=list) (fmul (of_nat (n + beta0))) <$> rows Lambda));
    mret (mu, Lambda).

End NormalWishart.

Section EntryFunctions.
Context {T : Type} `{!Scalar T}.

(** The products of linear algebra, in which the contracts of the
    routines of scipy are stated: sums of products, added in order. *)
Definition dot (a b : list T) : T := vsum (zip_with fmul a b).

Definition matmul (a b : matrix T) : result (matrix T) :=
  if decide (ncols a = nrows b)
  then Ok (Mat (nrows a) (ncols b)
             ((λ r, dot r <$> columns (ncols b) (rows b)) <$> rows a))
  else Raise ValueError.

Definition matvec (a : matrix T) (v : list T) : result (list T) :=
  if decide (ncols a = length v)
  then Ok ((λ r, dot r v) <$> rows a)
  else Raise ValueError.

(** the entries of the identity matrix *)
Definition delta (i j : nat) : T := if decide (i = j) then fone else fzero.

(** the entries of a product of [n] x [n] matrices given by their entries *)
Definition mulf (n : nat) (f g : nat → nat → T) : nat → nat → T :=
  λ i j, vsum ((λ k, fmul (f i k) (g k j)) <$> seq 0 n).

(** the entries of the transpose *)
Definition trf (f : nat → nat → T) : nat → nat → T := λ i j, f j i.

(** the entries of a product [@] of two tabulated matrices: the inner
    product the library computes of a row of the one and a column of the
    other *)
Definition dotf (n : nat) (f g : nat → nat → T) : nat → nat → T :=
  λ i j, fdot (f i <$> seq 0 n) ((λ k, g k j) <$> seq 0 n).

End EntryFunctions.

(** * Further definitions

    The array helpers, the steps of the time loop, the cells that prepare
    the sparse tensor, and the output of a run. *)

(** ** The unfolding of a tensor *)

(** a tensor whose entry (i, j, k) is the number 100 i + 10 j + k *)
Definition digits : tensor nat :=
  Ten (2, 3, 2) [[[0; 1]; [10; 11]; [20; 21]];
                 [[100; 101]; [110; 111]; [120; 121]]].

(** entry [(r, c)] of a matrix, if it is there *)
Definition mentry {A} (m : matrix A) (r c : nat) : option A :=
  row ← rows m !! r; (row : list A) !! c.

(** the layout of an unfolding: the axis [mode] first, then the Fortran
    reshape *)
Definition unfolding {A} (t : tensor A) (mode : axis) : matrix A :=
  reshape_F (moveaxis t mode).

(** the product of the lengths of the two other axes *)
Definition folded_len (s : shape3) (mode : axis) : nat :=
  match mode with
  | Axis0 => s.1.2 * s.2
  | Axis1 => s.1.1 * s.2
  | Axis2 => s.1.1 * s.1.2
  end.

(** The position in a tensor of shape [s] that the mode-[mode] unfolding
    shows in row [r] and column [c]: of the two folded axes, the first
    runs fastest along a row. *)
Definition fold_index (mode : axis) (s : shape3) (r c : nat) : index3 :=
  match mode with
  | Axis0 => (r, c `mod` s.1.2, c `div` s.1.2)
  | Axis1 => (c `mod` s.1.1, r, c `div` s.1.1)
  | Axis2 => (c `mod` s.1.1, c `div` s.1.1, r)
  end.

(** the entries of a tensor in row-major order *)
Definition flat {A} (t : tensor A) : list A := concat (concat (slabs t)).

(** ** What a run changes *)

(** an init dictionary without the key "X" *)
Definition init_no_X : gmap string loc := {[ "U" := 0; "V" := 1 ]}.

Section ChangedOnly.
Context {T G : Type}.

(** Between two stores: no 3-D object changed but those in [ts], no 2-D
    object changed but those in [ms], and every 2-D object kept its
    shape. *)
Definition changed_only (ms ts : list loc) : relation (world T G) := λ w w',
  (∀ l, l ∉ ts → tens w' !! l = tens w !! l) ∧
  (∀ l, l ∉ ms → mats w' !! l = mats w !! l) ∧
  (∀ l, mshape <$> mats w' !! l = mshape <$> mats w !! l).
End ChangedOnly.

(** ** The data terms of the factor samplers *)

(** small integer factors and a 2 x 2 x 3 tensor *)
Definition U_int : matrix Z := Mat 2 2 [[1; 2]; [3; 4]]%Z.

Definition V_int : matrix Z := Mat 2 2 [[1; 0]; [2; 1]]%Z.

Definition X_int : matrix Z := Mat 3 2 [[1; 1]; [0; 2]; [2; 0]]%Z.

Definition Y_int : tensor Z :=
  Ten (2, 2, 3) [[[1; 2; 3]; [4; 5; 6]]; [[7; 8; 9]; [10; 11; 12]]]%Z.

Section ContributionDefs.
Context {T : Type} `{!Scalar T}.

(** an entry of a tensor, zero outside of it *)
Definition tentry (t : tensor T) (p : index3) : T := default fzero (tget t p).

(** of the two axes that an unfolding folds into its columns: the length
    of the one that runs fastest, and of the other *)
Definition inner_len (s : shape3) (mode : axis) : nat :=
  match mode with Axis0 => s.1.2 | _ => s.1.1 end.

Definition outer_len (s : shape3) (mode : axis) : nat :=
  match mode with Axis2 => s.1.2 | _ => s.2 end.

(** entry [(s, c)] of [kr_prod(A, B).T] *)
Definition design_entry (A B : matrix T) (s c : nat) : T :=
  fmul (mget A (c `div` nrows B) s) (mget B (c `mod` nrows B) s).

End ContributionDefs.

(** ** The steps of the time loop, and the rows a sampler writes *)

Section TemporalSteps.
Context {T G : Type} `{!Scalar T} `{!Extern T G}.

(** The lines of sample_factor_x that draw the hyperparameters of the
    temporal factor from the matrix [Xm] the call finds in X:
      var_mu_hyper = X[0, :] / (beta0 + 1)
      dx = X[1 :, :] - X[: -1, :]
      var_V_hyper = inv(np.eye(rank) + dx.T @ dx
                        + beta0 * np.outer(X[0, :], X[0, :]) / (beta0 + 1))
      var_Lambda_hyper = wishart.rvs(df = dim3 + rank, scale = var_V_hyper)
      var_mu_hyper = mvnrnd_pre(var_mu_hyper, (beta0 + 1) * var_Lambda_hyper) *)
Definition temporal_hyper (Xm : matrix T) (beta0 : nat)
  : M T G (list T * matrix T) :=
  let dim3 := nrows Xm in
  let rank := ncols Xm in
  x0 ← lift (row Xm 0);
  let var_mu_hyper := vdiv x0 (of_nat (beta0 + 1)) in
  dx ← lift (mzip fsub (Mat (dim3 - 1) rank (drop 1 (rows Xm)))
                       (Mat (dim3 - 1) rank (take (dim3 - 1) (rows Xm))));
  d2 ← lift (np_matmul (transpose dx) dx);
  s ← lift (madd (eye rank) d2);
  s ← lift (madd s (mdiv (mscale (of_nat beta0) (outer x0 x0))
                         (of_nat (beta0 + 1))));
  var_V_hyper ← lift (inv s);
  var_Lambda_hyper ← draw_or_raise (wishart_rvs (dim3 + rank) var_V_hyper);
  var_mu_hyper ← mvnrnd_pre var_mu_hyper
                   (mscale (of_nat (beta0 + 1)) var_Lambda_hyper);
  mret (var_mu_hyper, var_Lambda_hyper).





End TemporalSteps.

Section RowsWritten.
Context {T G : Type} `{!Scalar T} `{!Extern T G}.

(** What a call of sample_factor_u leaves: the object U holds the matrix
    [U'], whose rows are the draws of the row loop in their order, made
    with the hyperparameters drawn from the matrix the call found in U;
    nothing else of the store has changed, and the generator is where
    the last draw left it. *)
Definition rows_written_u (tst tind : tensor T) (U V X : loc) (beta0 : nat)
    (w : world T G) (U' : matrix T) (w' : world T G) : Prop :=
  ∃ Um Vm Xm mu L w1 c3 c4 new w2,
    mats w !! U = Some Um ∧ mats w !! V = Some Vm ∧ mats w !! X = Some Xm ∧
    entity_hyper Um beta0 w = (Ok (mu, L), w1) ∧
    precision_contributions Xm Vm tind Axis0 (ncols Um) (nrows Um) = Ok c3 ∧
    linear_contributions Xm Vm tst Axis0 = Ok c4 ∧
    chain_rows (λ i _ _, row_posterior c3 c4 mu L i) (ncols Um) []
      (seq 0 (nrows Um)) None w1 = (Ok new, w2) ∧
    length new = nrows Um ∧
    U' = Mat (nrows Um) (ncols Um) new ∧
    w' = set_mats w2 (<[U := U']> (mats w)).

(** the same of sample_factor_v and the object V *)
Definition rows_written_v (tst tind : tensor T) (U V X : loc) (beta0 : nat)
    (w : world T G) (V' : matrix T) (w' : world T G) : Prop :=
  ∃ Um Vm Xm mu L w1 c3 c4 new w2,
    mats w !! U = Some Um ∧ mats w !! V = Some Vm ∧ mats w !! X = Some Xm ∧
    entity_hyper Vm beta0 w = (Ok (mu, L), w1) ∧
    precision_contributions Xm Um tind Axis1 (ncols Vm) (nrows Vm) = Ok c3 ∧
    linear_contributions Xm Um tst Axis1 = Ok c4 ∧
    chain_rows (λ j _ _, row_posterior c3 c4 mu L j) (ncols Vm) []
      (seq 0 (nrows Vm)) None w1 = (Ok new, w2) ∧
    length new = nrows Vm ∧
    V' = Mat (nrows Vm) (ncols Vm) new ∧
    w' = set_mats w2 (<[V := V']> (mats w)).

(** the same of sample_factor_x and the object X, whose rows are drawn
    one from the other *)
Definition rows_written_x (tst tind : tensor T) (U V X : loc) (beta0 : nat)
    (w : world T G) (X' : matrix T) (w' : world T G) : Prop :=
  ∃ Um Vm Xm mu L w1 var3 var4 new w2,
    mats w !! U = Some Um ∧ mats w !! V = Some Vm ∧ mats w !! X = Some Xm ∧
    temporal_hyper Xm beta0 w = (Ok (mu, L), w1) ∧
    precision_contributions Vm Um tind Axis2 (ncols Xm) (nrows Xm) = Ok var3 ∧
    linear_contributions Vm Um tst Axis2 = Ok var4 ∧
    chain_rows (x_posterior (nrows Xm) var3 var4 mu L) (ncols Xm) (rows Xm)
      (seq 0 (nrows Xm)) None w1 = (Ok new, w2) ∧
    length new = nrows Xm ∧
    X' = Mat (nrows Xm) (ncols Xm) new ∧
    w' = set_mats w2 (<[X := X']> (mats w)).

End RowsWritten.

(** ** The cells that prepare the sparse tensor *)

(** [a[mask] = v] for a Boolean array [mask]: of the shape of [a], or
    IndexError *)
Definition set_where {A} (a : tensor A) (mask : tensor bool) (v : A)
  : result (tensor A) :=
  if decide (dims mask = dims a)
  then Ok (Ten (dims a)
             (zip_with (zip_with (zip_with (λ x (b : bool), if b then v else x)))
                (slabs a) (slabs mask)))
  else Raise IndexError.

Section Masking.
Context {T : Type} `{!Scalar T}.

(** sparse_tensor = dense_tensor.copy()
    sparse_tensor[binary_tensor == 0] = np.nan
    with [nan] for np.nan *)
Definition hide_entries (nan : T) (dense_tensor binary_tensor : tensor T)
  : result (tensor T) :=
  set_where dense_tensor (tmap (λ b, feqb b fzero) binary_tensor) nan.

(** sparse_tensor[sparse_tensor == 0] = np.nan *)
Definition hide_zeros (nan : T) (sparse_tensor : tensor T)
  : result (tensor T) :=
  set_where sparse_tensor (tmap (λ x, feqb x fzero) sparse_tensor) nan.

End Masking.

(** a dense tensor with a zero, and a binary tensor *)
Definition dense_z : tensor float :=
  Ten (2, 2, 2) [[[1; 2]; [0; 4]]; [[5; 6]; [7; 8]]]%float.

Definition binary_z : tensor float :=
  Ten (2, 2, 2) [[[1; 0]; [1; 1]]; [[1; 1]; [0; 1]]]%float.

Definition sparse_z1 : tensor float :=
  Ten (2, 2, 2) [[[1; nan]; [0; 4]]; [[5; 6]; [nan; 8]]]%float.

Definition sparse_z2 : tensor float :=
  Ten (2, 2, 2) [[[1; nan]; [nan; 4]]; [[5; 6]; [nan; 8]]]%float.

Definition world_z : world float nat :=
  World ∅ {[ 0 := dense_z; 1 := sparse_z2 ]} 0 [].

(** ** What a run prints *)

Section OutputDefs.
Context {T G : Type}.

(** nothing is printed *)
Definition same_stdout : relation (world T G) := λ w w',
  stdout w' = stdout w.

(** the four lines of a progress report: the iteration, the two errors
    and an empty line *)
Definition report (n : nat) (errors : T * T) : list (line T) :=
  [Iter n; MAPE errors.1; RMSE errors.2; Blank].

(** the sweeps (counted from 0) that end with a progress report *)
Definition reports (burn_iter : nat) (it : nat) : Prop :=
  (it + 1) `mod` show_iter = 0 ∧ it < burn_iter.

End OutputDefs.

(** * Lemmas *)

(** * Facts about the array operations *)

Section ArrayFacts.
Context {A B C : Type}.
Implicit Types (f : A → B → C).

Lemma bdim_same n : bdim n n = Ok n.
Proof. unfold bdim. by rewrite decide_True. Qed.

Lemma bshape3_same s : bshape3 s s = Ok s.
Proof. destruct s as [[a b] c]. unfold bshape3. simpl. by rewrite !bdim_same. Qed.

Lemma bzip_same_length f g (la : list A) (lb : list B) :
  length la = length lb →
  (∀ i a b, la !! i = Some a → lb !! i = Some b → f a b = g a b) →
  bzip f la lb = zip_with g la lb.
Proof.
  intros Hlen Hfg.
  assert (zip_with f la lb = zip_with g la lb) as <-.
  { clear Hlen. revert lb Hfg. induction la as [|a la IH]; intros [|b lb] Hfg; simpl; try done.
    f_equal; [apply (Hfg 0); done|]. apply IH. intros i. apply (Hfg (S i)). }
  destruct la as [|a [|a' la]], lb as [|b [|b' lb]]; simplify_eq/=; done.
Qed.

Lemma tget_Ten (d : shape3) (l : list (list (list A))) (p : index3) :
  tget (Ten d l) p = (s ← l !! p.1.1; r ← s !! p.1.2; r !! p.2).
Proof. done. Qed.

End ArrayFacts.

Lemma tget_tmap {A B} (f : A → B) (t : tensor A) p :
  tget (tmap f t) p = f <$> tget t p.
Proof.
  unfold tget, tmap. simpl. rewrite list_lookup_fmap.
  destruct (slabs t !! p.1.1) as [s|]; simpl; [|done].
  rewrite list_lookup_fmap. destruct (s !! p.1.2) as [r|]; simpl; [|done].
  by rewrite list_lookup_fmap.
Qed.

Lemma tzip_same_shape {A B C} (f : A → B → C) (a : tensor A) (b : tensor B) :
  wf_tensor a → wf_tensor b → dims a = dims b →
  tzip f a b = Ok (Ten (dims a)
                     (zip_with (zip_with (zip_with f)) (slabs a) (slabs b))).
Proof.
  intros [Ha1 Ha2] [Hb1 Hb2] Hd. unfold tzip. rewrite <- Hd, bshape3_same. simpl.
  do 2 f_equal. rewrite <- Hd in *.
  apply bzip_same_length; [congruence|].
  intros i sa sb Hsa Hsb.
  rewrite Forall_lookup in Ha2. rewrite Forall_lookup in Hb2.
  destruct (Ha2 _ _ Hsa) as [Hl1 Hr1]. destruct (Hb2 _ _ Hsb) as [Hl2 Hr2].
  apply bzip_same_length; [congruence|].
  intros j ra rb Hra Hrb.
  rewrite Forall_lookup in Hr1. rewrite Forall_lookup in Hr2.
  apply bzip_same_length; [|done].
  rewrite (Hr1 _ _ Hra), (Hr2 _ _ Hrb). done.
Qed.

Lemma tget_zip {A B C} (f : A → B → C) d la lb p :
  tget (Ten d (zip_with (zip_with (zip_with f)) la lb)) p =
  (x ← tget (Ten d la) p; y ← tget (Ten d lb) p; Some (f x y)).
Proof.
  rewrite !tget_Ten. rewrite lookup_zip_with.
  destruct (la !! p.1.1) as [sa|]; simpl; [|done].
  destruct (lb !! p.1.1) as [sb|]; simpl.
  2:{ by destruct (sa !! p.1.2) as [ra|]; simpl; [destruct (ra !! p.2)|]. }
  rewrite lookup_zip_with.
  destruct (sa !! p.1.2) as [ra|]; simpl; [|done].
  destruct (sb !! p.1.2) as [rb|]; simpl.
  2:{ by destruct (ra !! p.2). }
  rewrite lookup_zip_with. done.
Qed.

Lemma elem_of_concat_imap {A B} (f : nat → A → list B) (l : list A) (y : B) :
  y ∈ concat (imap f l) ↔ ∃ i x, l !! i = Some x ∧ y ∈ f i x.
Proof.
  revert f. induction l as [|a l IH]; intros f; simpl.
  - split; [by intros ?%elem_of_nil|]. by intros (i & x & ? & _).
  - rewrite elem_of_app, IH. split.
    + intros [H|(i & x & Hi & Hy)]; [by exists 0, a|]. by exists (S i), x.
    + intros ([|i] & x & Hi & Hy); simplify_eq/=; [by left|]. right. by exists i, x.
Qed.

Lemma elem_of_where1 (l : list bool) (t : nat) :
  t ∈ where1 l ↔ l !! t = Some true.
Proof.
  unfold where1. rewrite elem_of_concat_imap. split.
  - intros (i & [|] & Hi & Ht); [|by apply elem_of_nil in Ht].
    apply list_elem_of_singleton in Ht. by subst.
  - intros Ht. exists t, true. split; [done|]. by apply list_elem_of_singleton.
Qed.

Lemma elem_of_where3 (m : tensor bool) (p : index3) :
  p ∈ where3 m ↔ tget m p = Some true.
Proof.
  destruct p as [[i j] t]. unfold where3, tget. simpl.
  rewrite elem_of_concat_imap. split.
  - intros (i' & s & Hs & Hp). apply elem_of_concat_imap in Hp as (j' & r & Hr & Hp).
    apply list_elem_of_fmap in Hp as (t' & ? & Ht). simplify_eq.
    rewrite Hs. simpl. rewrite Hr. simpl. by apply elem_of_where1.
  - destruct (slabs m !! i) as [s|] eqn:Hs; simpl; [|done].
    destruct (s !! j) as [r|] eqn:Hr; simpl; [|done]. intros Ht.
    exists i, s. split; [done|]. apply elem_of_concat_imap. exists j, r. split; [done|].
    apply list_elem_of_fmap. exists t. split; [done|]. by apply elem_of_where1.
Qed.

(** * Running computations *)

Section Run.
Context {T G : Type}.
Local Abbreviation M := (M T G).

Lemma run_bind {A B} (m : M A) (k : A → M B) w :
  (m ≫= k) w = match m w with
               | (Ok a, w') => k a w'
               | (Raise e, w') => (Raise e, w')
               end.
Proof. done. Qed.

Lemma run_ret {A} (a : A) (w : world T G) : (mret a : M A) w = (Ok a, w).
Proof. done. Qed.

Lemma run_lift {A} (r : result A) (w : world T G) : lift r w = (r, w).
Proof. done. Qed.

Lemma run_bind_lift_ok {A B} (r : result A) (a : A) (k : A → M B) w :
  r = Ok a → (lift r ≫= k) w = k a w.
Proof. by intros ->. Qed.

Lemma run_read_ten l (w : world T G) t :
  tens w !! l = Some t → read_ten l w = (Ok t, w).
Proof. unfold read_ten. by intros ->. Qed.

Lemma run_read_mat l (w : world T G) m :
  mats w !! l = Some m → read_mat l w = (Ok m, w).
Proof. unfold read_mat. by intros ->. Qed.

Lemma run_bind_ok {A B} (m : M A) (k : A → M B) w a w1 :
  m w = (Ok a, w1) → (m ≫= k) w = k a w1.
Proof. intros Hm. by rewrite run_bind, Hm. Qed.

Lemma run_bind_raise {A B} (m : M A) (k : A → M B) w e w1 :
  m w = (Raise e, w1) → (m ≫= k) w = (Raise e, w1).
Proof. intros Hm. by rewrite run_bind, Hm. Qed.

Lemma run_bind_ret {A B} (a : A) (k : A → M B) w : (mret a ≫= k) w = k a w.
Proof. done. Qed.

Lemma run_bind_assoc {A B C} (m : M A) (k1 : A → M B) (k2 : B → M C) w :
  ((m ≫= k1) ≫= k2) w = (m ≫= (λ a, k1 a ≫= k2)) w.
Proof. rewrite !run_bind. by destruct (m w) as [[a|e] w1]. Qed.

Lemma run_write_ten l t (w : world T G) :
  write_ten l t w = (Ok (), World (mats w) (<[l := t]> (tens w)) (rng w) (stdout w)).
Proof. done. Qed.

Lemma run_write_mat l m (w : world T G) :
  write_mat l m w = (Ok (), World (<[l := m]> (mats w)) (tens w) (rng w) (stdout w)).
Proof. done. Qed.

Lemma bind_Ok {A B} (m : M A) (k : A → M B) w b w' :
  (m ≫= k) w = (Ok b, w') ↔ ∃ a w1, m w = (Ok a, w1) ∧ k a w1 = (Ok b, w').
Proof.
  rewrite run_bind. destruct (m w) as [[a|e] w1]; split.
  - intros. by exists a, w1.
  - by intros (? & ? & [= -> ->] & ?).
  - done.
  - by intros (? & ? & [=] & ?).
Qed.

Lemma lift_Ok {A} (r : result A) (w : world T G) a w' :
  lift r w = (Ok a, w') ↔ r = Ok a ∧ w' = w.
Proof.
  unfold lift. split.
  - by intros [= -> ->].
  - by intros [-> ->].
Qed.

Lemma ret_Ok {A} (a b : A) (w w' : world T G) :
  (mret a : M A) w = (Ok b, w') ↔ b = a ∧ w' = w.
Proof.
  rewrite run_ret. split.
  - by intros [= -> ->].
  - by intros [-> ->].
Qed.

End Run.

Lemma result_bind_Ok {A B} (r : result A) (k : A → result B) b :
  r ≫= k = Ok b ↔ ∃ a, r = Ok a ∧ k a = Ok b.
Proof.
  destruct r as [a|e]; simpl; split.
  - intros Hk. by exists a.
  - by intros (a' & [= <-] & Hk).
  - done.
  - by intros (a' & [=] & _).
Qed.

Lemma result_fmap_Ok {A B} (r : result A) (f : A → B) b :
  f <$> r = Ok b ↔ ∃ a, r = Ok a ∧ b = f a.
Proof.
  destruct r as [a|e]; simpl; split.
  - intros [= <-]. by exists a.
  - by intros (a' & [= <-] & ->).
  - done.
  - by intros (a' & [=] & _).
Qed.

Lemma or_raise_Ok {A} e (o : option A) a : or_raise e o = Ok a ↔ o = Some a.
Proof. destruct o; simpl; naive_solver. Qed.

Lemma gather_Ok {A} (t : tensor A) (pos : list index3) :
  (∀ p, p ∈ pos → is_Some (tget t p)) →
  ∃ l, gather t pos = Ok l ∧ length l = length pos.
Proof.
  unfold gather. induction pos as [|p pos IH]; intros Hp.
  - by exists [].
  - destruct (Hp p) as [x Hx]; [by left|].
    destruct IH as (l & Hl & Hlen); [intros; apply Hp; by right|].
    exists (x :: l). simpl. rewrite Hx. simpl. rewrite Hl. simpl. by rewrite Hlen.
Qed.

Section Prepare.
Context {T G : Type} `{!Scalar T} `{!Extern T G}.

Lemma wf_tmap {A B} (f : A → B) (t : tensor A) : wf_tensor t → wf_tensor (tmap f t).
Proof.
  intros [H1 H2]. split; simpl; [by rewrite length_fmap|].
  apply Forall_fmap. eapply Forall_impl; [done|]. simpl.
  intros s [Hs1 Hs2]. split; [by rewrite length_fmap|].
  apply Forall_fmap. eapply Forall_impl; [done|]. simpl.
  intros r Hr. by rewrite length_fmap.
Qed.

Lemma tget_and (P Q : T → bool) (dn sp : tensor T) p :
  wf_tensor dn → wf_tensor sp → dims dn = dims sp →
  ∃ test, tzip andb (tmap P dn) (tmap Q sp) = Ok test ∧
    (tget test p = Some true ↔
      ∃ x y, tget dn p = Some x ∧ tget sp p = Some y ∧ P x = true ∧ Q y = true) ∧
    (is_Some (tget test p) → is_Some (tget dn p)).
Proof.
  intros Hdn Hsp Hd. eexists. split.
  { apply tzip_same_shape; [by apply wf_tmap..|done]. }
  rewrite tget_zip.
  change (tget (Ten ?d (slabs ?t)) p) with (tget t p).
  rewrite !tget_tmap.
  destruct (tget dn p) as [x|], (tget sp p) as [y|]; simpl;
    (split; [split|]); try (by intros [? ?]); try done;
    try (by intros (? & ? & ? & ? & _)).
  - intros [= Hxy%andb_true_iff]. by exists x, y.
  - intros (? & ? & [= <-] & [= <-] & -> & ->). done.
Qed.

End Prepare.

Section Prepare.
Context {T G : Type} `{!Scalar T} `{!Extern T G}.

Lemma tget_is_Some_tmap {A B} (f : A → B) (t : tensor A) p :
  is_Some (tget (tmap f t) p) ↔ is_Some (tget t p).
Proof. rewrite tget_tmap. by rewrite fmap_is_Some. Qed.

(** the observation mask and the held-out positions of both input
    conventions *)
Lemma prepare_spec (w : world T G) (dense_tensor sparse_tensor : loc)
    (dn sp : tensor T) :
  tens w !! dense_tensor = Some dn →
  tens w !! sparse_tensor = Some sp →
  wf_tensor dn → wf_tensor sp → dims dn = dims sp →
  ∃ ind pos_test dense_test w',
    prepare dense_tensor sparse_tensor w = (Ok (ind, pos_test, dense_test), w') ∧
    (any_nan sp = true →
       (∀ p, tget ind p = Some true ↔
             ∃ y, tget sp p = Some y ∧ fisnan y = false) ∧
       (∀ p, p ∈ pos_test ↔
             ∃ x y, tget dn p = Some x ∧ tget sp p = Some y ∧
                    fneqb x fzero = true ∧ fisnan y = true) ∧
       tens w' !! sparse_tensor = Some (nan_to_zero sp)) ∧
    (any_nan sp = false →
       (∀ p, tget ind p = Some true ↔
             ∃ y, tget sp p = Some y ∧ fneqb y fzero = true) ∧
       (∀ p, p ∈ pos_test ↔
             ∃ x y, tget dn p = Some x ∧ tget sp p = Some y ∧
                    fneqb x fzero = true ∧ feqb y fzero = true) ∧
       w' = w).
Proof.
  intros Hdn Hsp Wdn Wsp Hd.
  unfold prepare. rewrite (run_bind_ok _ _ _ _ _ (run_read_ten _ _ _ Hsp)).
  destruct (any_nan sp) eqn:Hnan; simpl.
  - destruct (tget_and (λ x, fneqb x fzero) fisnan dn sp (0,0,0) Wdn Wsp Hd)
      as (test & Htest & _).
    rewrite run_bind_assoc, (run_bind_ok _ _ _ _ _ (run_read_ten _ _ _ Hdn)).
    rewrite run_bind_assoc, (run_bind_lift_ok _ _ _ _ Htest).
    rewrite run_bind_assoc, (run_bind_ok _ _ _ _ _ (run_write_ten _ _ _)).
    rewrite run_bind_ret.
    set (w' := World _ _ _ _).
    assert (∃ dn', tens w' !! dense_tensor = Some dn' ∧
              ∀ p, is_Some (tget dn' p) ↔ is_Some (tget dn p)) as (dn' & Hdn' & Hsome).
    { subst w'. simpl. destruct (decide (sparse_tensor = dense_tensor)) as [->|Hne].
      - rewrite lookup_insert_eq. eexists. split; [done|]. intros p.
        assert (dn = sp) as -> by congruence. apply tget_is_Some_tmap.
      - rewrite lookup_insert_ne by done. by exists dn. }
    rewrite (run_bind_ok _ _ _ _ _ (run_read_ten _ _ _ Hdn')).
    destruct (gather_Ok dn' (where3 test)) as (dt & Hdt & _).
    { intros p Hp%elem_of_where3. apply Hsome.
      destruct (tget_and (λ x, fneqb x fzero) fisnan dn sp p Wdn Wsp Hd)
        as (test' & Htest' & _ & Hin).
      assert (test' = test) as -> by congruence. apply Hin. by rewrite Hp. }
    rewrite (run_bind_lift_ok _ _ _ _ Hdt), run_ret.
    eexists _, _, _, _. split; [done|]. split; [|done]. intros _.
    split; [|split].
    + intros p. rewrite tget_tmap. destruct (tget sp p) as [y|]; simpl.
      * split.
        -- intros [= Hy%negb_true_iff]. by exists y.
        -- intros (? & [= <-] & ->). done.
      * split; [done|]. by intros (? & ? & _).
    + intros p. rewrite elem_of_where3.
      destruct (tget_and (λ x, fneqb x fzero) fisnan dn sp p Wdn Wsp Hd)
        as (test' & Htest' & Hiff & _).
      assert (test' = test) as -> by congruence. done.
    + subst w'. simpl. by rewrite lookup_insert_eq.
  - destruct (tget_and (λ x, fneqb x fzero) (λ x, feqb x fzero) dn sp (0,0,0) Wdn Wsp Hd)
      as (test & Htest & _).
    rewrite run_bind_assoc, (run_bind_ok _ _ _ _ _ (run_read_ten _ _ _ Hdn)).
    rewrite run_bind_assoc, (run_bind_lift_ok _ _ _ _ Htest).
    rewrite run_bind_ret.
    rewrite (run_bind_ok _ _ _ _ _ (run_read_ten _ _ _ Hdn)).
    destruct (gather_Ok dn (where3 test)) as (dt & Hdt & _).
    { intros p Hp%elem_of_where3.
      destruct (tget_and (λ x, fneqb x fzero) (λ x, feqb x fzero) dn sp p Wdn Wsp Hd)
        as (test' & Htest' & _ & Hin).
      assert (test' = test) as -> by congruence. apply Hin. by rewrite Hp. }
    rewrite (run_bind_lift_ok _ _ _ _ Hdt), run_ret.
    eexists _, _, _, _. split; [done|]. split; [done|]. intros _.
    split; [|split].
    + intros p. rewrite tget_tmap. destruct (tget sp p) as [y|]; simpl.
      * split.
        -- intros [= Hy]. by exists y.
        -- intros (? & [= <-] & ->). done.
      * split; [done|]. by intros (? & ? & _).
    + intros p. rewrite elem_of_where3.
      destruct (tget_and (λ x, fneqb x fzero) (λ x, feqb x fzero) dn sp p Wdn Wsp Hd)
        as (test' & Htest' & Hiff & _).
      assert (test' = test) as -> by congruence. done.
    + done.
Qed.

End Prepare.

(** * What a computation leaves unchanged *)

Section Preserves.
Context {T G : Type}.
Local Abbreviation M := (M T G).
Implicit Types (R : relation (world T G)).

Lemma preserves_ret {A} R `{!Reflexive R} (a : A) : preserves R (mret a).
Proof. intros w r w' [= _ <-]. done. Qed.

Lemma preserves_lift {A} R `{!Reflexive R} (r : result A) : preserves R (lift r).
Proof. intros w r' w' [= _ <-]. done. Qed.

Lemma preserves_bind {A B} R `{!Transitive R} (m : M A) (k : A → M B) :
  preserves R m → (∀ a, preserves R (k a)) → preserves R (m ≫= k).
Proof.
  intros Hm Hk w r w'. rewrite run_bind.
  destruct (m w) as [[a|e] w1] eqn:Hmw.
  - intros Hkw. etrans; [eapply Hm; eassumption|eapply Hk; eassumption].
  - intros [= _ <-]. by eapply Hm.
Qed.

Lemma preserves_read_mat R `{!Reflexive R} l : preserves R (read_mat l).
Proof. intros w r w' [= _ <-]. done. Qed.

Lemma preserves_read_ten R `{!Reflexive R} l : preserves R (read_ten l).
Proof. intros w r w' [= _ <-]. done. Qed.

Lemma preserves_for_each {A} R `{!PreOrder R} (l : list A) (body : A → M ()) :
  (∀ x, preserves R (body x)) → preserves R (for_each l body).
Proof.
  intros Hb. induction l as [|x l IH]; simpl.
  - apply preserves_ret. apply _.
  - apply preserves_bind; [apply _|apply Hb|intros _; apply IH].
Qed.

Lemma preserves_for_fold {A S} R `{!PreOrder R} (l : list A) (s : S)
    (body : S → A → M S) :
  (∀ s x, preserves R (body s x)) → preserves R (for_fold l s body).
Proof.
  intros Hb. revert s. induction l as [|x l IH]; intros s; simpl.
  - apply preserves_ret. apply _.
  - apply preserves_bind; [apply _|apply Hb|intros s'; apply IH].
Qed.

Lemma preserves_if {A} R (P : Prop) `{!Decision P} (m1 m2 : M A) :
  preserves R m1 → preserves R m2 → preserves R (if decide P then m1 else m2).
Proof. by destruct (decide P). Qed.

(** ** The relations *)

Global Instance same_shapes_po : PreOrder (same_shapes (T:=T) (G:=G)).
Proof.
  split.
  - by intros w.
  - intros w1 w2 w3 [H1 H2] [H3 H4]. split; [congruence|].
    intros l. by rewrite H4, H2.
Qed.

Global Instance same_arrays_po : PreOrder (same_arrays (T:=T) (G:=G)).
Proof.
  split.
  - by intros w.
  - intros w1 w2 w3 [H1 H2] [H3 H4]. split; congruence.
Qed.

Global Instance same_mats_po : PreOrder (same_mats (T:=T) (G:=G)).
Proof. split; [by intros w|]. intros w1 w2 w3 H1 H2. unfold same_mats in *. congruence. Qed.

Global Instance same_tens_po : PreOrder (same_tens (T:=T) (G:=G)).
Proof. split; [by intros w|]. intros w1 w2 w3 H1 H2. unfold same_tens in *. congruence. Qed.

Global Instance same_arrays_shapes : Frames (same_shapes (T:=T) (G:=G)).
Proof. intros w w' [H1 H2]. split; [done|]. intros l. by rewrite H2. Qed.

Global Instance same_arrays_mats : Frames (same_mats (T:=T) (G:=G)).
Proof. by intros w w' [H1 H2]. Qed.

Global Instance same_arrays_tens : Frames (same_tens (T:=T) (G:=G)).
Proof. by intros w w' [H1 H2]. Qed.

Global Instance same_arrays_refl : Frames (same_arrays (T:=T) (G:=G)).
Proof. by intros w w'. Qed.

Lemma preserves_weaken {A} R R' (m : M A) :
  (∀ w w', R w w' → R' w w') → preserves R m → preserves R' m.
Proof. intros HR Hm w r w' Hw. eauto. Qed.

Lemma preserves_draw {A} R `{!Frames R} (f : G → A * G) :
  preserves R (draw f).
Proof.
  intros w r w'. unfold draw. destruct (f (rng w)). intros [= _ <-].
  by apply frames.
Qed.

Lemma preserves_draw_or_raise {A} R `{!Frames R}
    (f : G → result A * G) :
  preserves R (draw_or_raise f).
Proof.
  intros w r w'. unfold draw_or_raise. destruct (f (rng w)). intros [= _ <-].
  by apply frames.
Qed.

Lemma preserves_print R `{!Frames R} l : preserves R (print l).
Proof. intros w r w' [= _ <-]. by apply frames. Qed.

Lemma preserves_write_ten l t :
  preserves (same_mats (T:=T) (G:=G)) (write_ten l t).
Proof. by intros w r w' [= _ <-]. Qed.

Lemma set_row_mshape (m m' : matrix T) i v :
  set_row m i v = Ok m' → mshape m' = mshape m.
Proof.
  unfold set_row. case_decide; [|done].
  destruct (fit_row (ncols m) v); simpl; [|done]. intros [= <-].
  unfold mshape. simpl. by rewrite length_insert.
Qed.

End Preserves.

(** [preserves R m], by the structure of [m] *)
Ltac preserves_step :=
  lazymatch goal with
  | |- preserves _ (mret _) => apply preserves_ret; apply _
  | |- preserves _ (lift _) => apply preserves_lift; apply _
  | |- preserves _ (read_mat _) => apply preserves_read_mat; apply _
  | |- preserves _ (read_ten _) => apply preserves_read_ten; apply _
  | |- preserves _ (draw _) => apply preserves_draw; apply _
  | |- preserves _ (draw_or_raise _) => apply preserves_draw_or_raise; apply _
  | |- preserves _ (print _) => apply preserves_print; apply _
  | |- preserves _ (_ ≫= _) => apply preserves_bind; [apply _| |intros ?]
  | |- preserves _ (for_each _ _) => apply preserves_for_each; [apply _|intros ?]
  | |- preserves _ (for_fold _ _ _) => apply preserves_for_fold; [apply _|intros ? ?]
  | |- preserves _ (if decide _ then _ else _) => apply preserves_if
  | |- preserves _ (let '(_, _) := ?p in _) => destruct p
  | |- preserves _ (match ?p with (_, _) => _ end) => destruct p
  end.

Section PreservesBPTF.
Context {T G : Type} `{!Scalar T} `{!Extern T G}.
Local Abbreviation M := (M T G).
Implicit Types (R : relation (world T G)).

Lemma preserves_assign_row l i v :
  preserves (same_shapes (T:=T) (G:=G)) (assign_row l i v).
Proof.
  intros w r w'. unfold assign_row.
  rewrite run_bind. unfold read_mat at 1.
  destruct (mats w !! l) as [m|] eqn:Hm; simpl; [|by intros [= _ <-]].
  rewrite run_bind, run_lift. destruct (set_row m i v) as [m'|] eqn:Hset; [|by intros [= _ <-]].
  intros [= _ <-]. split; [done|]. intros l'. simpl.
  destruct (decide (l = l')) as [<-|].
  - rewrite lookup_insert_eq, Hm. simpl. f_equal. by eapply set_row_mshape.
  - by rewrite lookup_insert_ne.
Qed.

Lemma preserves_mvnrnd_pre R `{!Frames R} `{!PreOrder R} mu Lambda :
  preserves R (mvnrnd_pre mu Lambda).
Proof. unfold mvnrnd_pre. repeat preserves_step. Qed.

Lemma preserves_entity_hyper R `{!Frames R} `{!PreOrder R} F beta0 :
  preserves R (entity_hyper F beta0).
Proof.
  unfold entity_hyper.
  repeat lazymatch goal with
         | |- preserves _ (mvnrnd_pre _ _) => apply preserves_mvnrnd_pre; apply _
         | _ => preserves_step
         end.
Qed.

Lemma preserves_read_row R `{!PreOrder R} l i : preserves R (read_row l i).
Proof. unfold read_row. repeat preserves_step. Qed.

Lemma preserves_sample_precision_tau R `{!Frames R} `{!PreOrder R}
    sp that ind :
  preserves R (sample_precision_tau sp that ind).
Proof. unfold sample_precision_tau. repeat preserves_step. Qed.

End PreservesBPTF.

Ltac preserves_shapes_step :=
  lazymatch goal with
  | |- preserves _ (mvnrnd_pre _ _) => apply preserves_mvnrnd_pre; apply _
  | |- preserves _ (entity_hyper _ _) => apply preserves_entity_hyper; apply _
  | |- preserves _ (read_row _ _) => apply preserves_read_row; apply _
  | |- preserves _ (assign_row _ _ _) => apply preserves_assign_row
  | |- preserves _ (sample_precision_tau _ _ _) =>
      apply preserves_sample_precision_tau; apply _
  | _ => preserves_step
  end.

Section PreservesSamplers.
Context {T G : Type} `{!Scalar T} `{!Extern T G}.

Lemma preserves_resample_row F var3 var4 i :
  preserves (same_shapes (T:=T) (G:=G)) (resample_row F var3 var4 i).
Proof. unfold resample_row. repeat preserves_shapes_step. Qed.

Lemma preserves_resample_step X dim3 var3 var4 mu Lambda t :
  preserves (same_shapes (T:=T) (G:=G))
    (resample_step X dim3 var3 var4 mu Lambda t).
Proof. unfold resample_step. repeat preserves_shapes_step. Qed.

Lemma preserves_sample_factor_u tst tind U V X beta0 :
  preserves (same_shapes (T:=T) (G:=G)) (sample_factor_u tst tind U V X beta0).
Proof.
  unfold sample_factor_u.
  repeat lazymatch goal with
         | |- preserves _ (resample_row _ _ _ _) => apply preserves_resample_row
         | _ => preserves_shapes_step
         end.
Qed.

Lemma preserves_sample_factor_v tst tind U V X beta0 :
  preserves (same_shapes (T:=T) (G:=G)) (sample_factor_v tst tind U V X beta0).
Proof.
  unfold sample_factor_v.
  repeat lazymatch goal with
         | |- preserves _ (resample_row _ _ _ _) => apply preserves_resample_row
         | _ => preserves_shapes_step
         end.
Qed.

Lemma preserves_sample_factor_x tst tind U V X beta0 :
  preserves (same_shapes (T:=T) (G:=G)) (sample_factor_x tst tind U V X beta0).
Proof.
  unfold sample_factor_x.
  repeat lazymatch goal with
         | |- preserves _ (resample_step _ _ _ _ _ _ _) =>
             apply preserves_resample_step
         | _ => preserves_shapes_step
         end.
Qed.

Lemma preserves_sweep ls U V X ind pos dt burn c it :
  preserves (same_shapes (T:=T) (G:=G)) (sweep ls U V X ind pos dt burn c it).
Proof.
  unfold sweep.
  repeat lazymatch goal with
         | |- preserves _ (sample_factor_u _ _ _ _ _ _) =>
             apply preserves_sample_factor_u
         | |- preserves _ (sample_factor_v _ _ _ _ _ _) =>
             apply preserves_sample_factor_v
         | |- preserves _ (sample_factor_x _ _ _ _ _ _) =>
             apply preserves_sample_factor_x
         | _ => preserves_shapes_step
         end.
Qed.

End PreservesSamplers.

(** strip the binds of a computation that ended in a value *)
Ltac minv H :=
  lazymatch type of H with
  | (_ ≫= _) _ = (Ok _, _) =>
      let Hm := fresh "Hm" in
      apply bind_Ok in H as (? & ? & Hm & H); cbv beta in H; minv H
  | (let '(_, _) := ?p in _) _ = _ => destruct p; minv H
  | (mret _) _ = (Ok _, _) => apply ret_Ok in H as [? ?]
  | _ => idtac
  end.

Section Loop.
Context {T G : Type} `{!Scalar T} `{!Extern T G}.
Local Abbreviation M := (M T G).

Lemma for_fold_app {A S} (l1 l2 : list A) (s : S) (body : S → A → M S) w :
  for_fold (l1 ++ l2) s body w =
  (s' ← for_fold l1 s body; for_fold l2 s' body) w.
Proof.
  revert s w. induction l1 as [|x l1 IH]; intros s w; simpl; [done|].
  rewrite run_bind_assoc, !(run_bind (body s x)).
  destruct (body s x w) as [[s'|e] w1]; [|done]. apply IH.
Qed.

Lemma for_fold_snoc {A S} (l : list A) (x : A) (s : S) (body : S → A → M S) w :
  for_fold (l ++ [x]) s body w = (s' ← for_fold l s body; body s' x) w.
Proof.
  rewrite for_fold_app, !(run_bind (for_fold l s body)).
  destruct (for_fold l s body w) as [[s'|e] w1]; [|done].
  simpl. rewrite run_bind. by destruct (body s' x w1) as [[?|?] ?].
Qed.

Lemma sum_tensors_snoc acc rs (r : tensor T) :
  sum_tensors acc (rs ++ [r]) =
  (s ← sum_tensors acc rs; tzip_inplace fadd s r).
Proof.
  revert acc. induction rs as [|r' rs IH]; intros acc; simpl.
  - by destruct (tzip_inplace fadd acc r).
  - destruct (tzip_inplace fadd acc r'); simpl; [apply IH|done].
Qed.

Lemma sample_factor_u_loc tst tind U V X b (w w' : world T G) l :
  sample_factor_u tst tind U V X b w = (Ok l, w') → l = U.
Proof. unfold sample_factor_u. intros H. minv H. done. Qed.

Lemma sample_factor_v_loc tst tind U V X b (w w' : world T G) l :
  sample_factor_v tst tind U V X b w = (Ok l, w') → l = V.
Proof. unfold sample_factor_v. intros H. minv H. done. Qed.

Lemma sample_factor_x_loc tst tind U V X b (w w' : world T G) l :
  sample_factor_x tst tind U V X b w = (Ok l, w') → l = X.
Proof. unfold sample_factor_x. intros H. minv H. done. Qed.

(** a computation that only reads gives the same answer in stores with
    the same 2-D objects *)
Lemma reconstruct_same_mats U V X (w w' : world T G) :
  mats w' = mats w →
  (reconstruct U V X w').1 = (reconstruct U V X w).1.
Proof.
  intros Hm. unfold reconstruct. rewrite !run_bind. unfold read_mat. rewrite Hm.
  destruct (mats w !! U); simpl; [|done]. rewrite !run_bind. rewrite Hm.
  destruct (mats w !! V); simpl; [|done]. rewrite !run_bind. rewrite Hm.
  destruct (mats w !! X); simpl; done.
Qed.

Lemma reconstruct_world U V X (w w' : world T G) r :
  reconstruct U V X w = (r, w') → w' = w.
Proof.
  unfold reconstruct. rewrite !run_bind. unfold read_mat.
  destruct (mats w !! U); simpl; [|by intros [= _ <-]]. rewrite !run_bind.
  destruct (mats w !! V); simpl; [|by intros [= _ <-]]. rewrite !run_bind.
  destruct (mats w !! X); simpl; by intros [= _ <-].
Qed.

(** what one sweep adds to the posterior-mean accumulator *)
Lemma sweep_Ok ls U V X ind pos dt burn c it (w w' : world T G) c' :
  sweep ls U V X ind pos dt burn c it w = (Ok c', w') →
  ∃ that,
    reconstruct U V X w' = (Ok that, w') ∧
    (burn < it + 1 →
       tzip_inplace fadd (tensor_hat_plus c) that = Ok (tensor_hat_plus c')) ∧
    (¬ burn < it + 1 → tensor_hat_plus c' = tensor_hat_plus c).
Proof.
  unfold sweep. intros H.
  apply bind_Ok in H as (sp & w1 & Hsp & H).
  apply bind_Ok in H as (lU & w2 & HU & H).
  apply bind_Ok in H as (lV & w3 & HV & H).
  apply bind_Ok in H as (lX & w4 & HX & H).
  apply sample_factor_u_loc in HU as ->.
  apply sample_factor_v_loc in HV as ->.
  apply sample_factor_x_loc in HX as ->.
  apply bind_Ok in H as (Um & w5 & HUm & H).
  apply bind_Ok in H as (Vm & w6 & HVm & H).
  apply bind_Ok in H as (Xm & w7 & HXm & H).
  apply bind_Ok in H as (that & w8 & Hthat & H).
  assert (reconstruct U V X w4 = (Ok that, w4)) as Hrec.
  { unfold reconstruct.
    unfold read_mat in HUm, HVm, HXm. simplify_eq.
    apply lift_Ok in Hthat as [Hthat ->].
    apply or_raise_Ok in H0, H1, H2.
    rewrite (run_bind_ok _ _ _ _ _ (run_read_mat _ _ _ H2)).
    rewrite (run_bind_ok _ _ _ _ _ (run_read_mat _ _ _ H1)).
    rewrite (run_bind_ok _ _ _ _ _ (run_read_mat _ _ _ H0)).
    by rewrite run_lift, Hthat. }
  assert (w7 = w4) as ->.
  { unfold read_mat in HUm, HVm, HXm. by simplify_eq. }
  apply lift_Ok in Hthat as [_ ->].
  assert (same_arrays w4 w' ∧
          ((burn < it + 1 →
             tzip_inplace fadd (tensor_hat_plus c) that = Ok (tensor_hat_plus c')) ∧
           (¬ burn < it + 1 → tensor_hat_plus c' = tensor_hat_plus c)))
    as [Hsame Hacc].
  { apply bind_Ok in H as (h & w9 & Hh & H). apply lift_Ok in Hh as [_ ->].
    apply bind_Ok in H as (th & w9 & Hth & H). apply lift_Ok in Hth as [_ ->].
    apply bind_Ok in H as (sp' & w9 & Hsp' & H).
    assert (w9 = w4) as ->. { unfold read_ten in Hsp'. by simplify_eq. }
    apply bind_Ok in H as (tau' & w10 & Htau & H).
    apply (preserves_sample_precision_tau same_arrays) in Htau.
    apply bind_Ok in H as (thp & w11 & Hthp & H).
    assert (w11 = w10 ∧
            ((burn < it + 1 → tzip_inplace fadd (tensor_hat_plus c) that = Ok thp) ∧
             (¬ burn < it + 1 → thp = tensor_hat_plus c))) as (-> & Hthp').
    { destruct (decide (burn < it + 1)).
      - apply lift_Ok in Hthp as [? ->]. done.
      - apply ret_Ok in Hthp as [-> ->]. done. }
    apply bind_Ok in H as (th' & w12 & Hth' & H).
    apply ret_Ok in H as [-> ->]. simpl.
    split; [|done]. etrans; [done|].
    eapply (preserves_if same_arrays); [| |exact Hth'].
    - repeat preserves_step.
    - repeat preserves_step. }
  destruct Hsame as [_ Hm].
  exists that. split; [|done].
  pose proof (reconstruct_same_mats U V X w4 w' Hm) as Heq.
  destruct (reconstruct U V X w') as [r wr] eqn:Hr.
  pose proof (reconstruct_world _ _ _ _ _ _ Hr) as ->.
  rewrite Hrec in Heq. simpl in Heq. by subst.
Qed.

End Loop.

Section PosteriorMean.
Context {T G : Type} `{!Scalar T} `{!Extern T G}.
Local Abbreviation M := (M T G).

Lemma sweeps_accumulate ls U V X ind pos dt burn dim n (w0 wn : world T G) cn :
  sweeps ls U V X ind pos dt burn dim n w0 = (Ok cn, wn) →
  ∃ recons : list (tensor T),
    length recons = n ∧
    (∀ k r, recons !! k = Some r →
       (reconstruction ls U V X ind pos dt burn dim (S k) w0).1 = Ok r) ∧
    sum_tensors (tzeros dim) (drop burn recons) = Ok (tensor_hat_plus cn).
Proof.
  unfold sweeps. revert cn wn. induction n as [|n IH]; intros cn wn H.
  - simpl in H. apply ret_Ok in H as [-> ->]. exists []. split; [done|].
    split; [done|]. by rewrite drop_nil.
  - rewrite seq_S in H. simpl in H. rewrite for_fold_snoc in H.
    apply bind_Ok in H as (c & w1 & Hpre & Hbody).
    destruct (IH _ _ Hpre) as (recons & Hlen & Hrec & Hsum).
    destruct (sweep_Ok _ _ _ _ _ _ _ _ _ _ _ _ _ Hbody) as (that & Hthat & Hin & Hout).
    exists (recons ++ [that]). split; [|split].
    + rewrite length_app. simpl. lia.
    + intros k r Hk. destruct (decide (k < n)) as [Hlt|Hge].
      * rewrite lookup_app_l in Hk by lia. by apply Hrec.
      * rewrite lookup_app_r in Hk by lia.
        destruct (k - length recons) as [|?] eqn:Hkn; simplify_eq/=.
        assert (k = length recons) as -> by lia.
        unfold reconstruction, sweeps.
        erewrite run_bind_ok; [by rewrite Hthat|].
        rewrite seq_S. simpl. rewrite for_fold_snoc.
        by rewrite (run_bind_ok _ _ _ _ _ Hpre).
    + destruct (decide (burn < n + 1)) as [Hlt|Hge].
      * rewrite drop_app_le by lia. rewrite sum_tensors_snoc, Hsum. simpl. auto.
      * rewrite Hout by done. rewrite drop_ge in Hsum by lia.
        rewrite drop_ge by (rewrite length_app; simpl; lia).
        simpl in *. done.
Qed.

End PosteriorMean.

(** * Computations that do not look at the 2-D objects *)

Section Storeless.
Context {T G : Type}.
Local Abbreviation M := (M T G).
Local Abbreviation storeless := (storeless (T:=T) (G:=G)).

Lemma storeless_ret {A} (a : A) : storeless (mret a).
Proof. done. Qed.

Lemma storeless_lift {A} (r : result A) : storeless (lift r).
Proof. done. Qed.

Lemma storeless_draw {A} (f : G → A * G) : storeless (draw f).
Proof. intros w ms. unfold draw. simpl. by destruct (f (rng w)). Qed.

Lemma storeless_draw_or_raise {A} (f : G → result A * G) :
  storeless (draw_or_raise f).
Proof. intros w ms. unfold draw_or_raise. simpl. by destruct (f (rng w)). Qed.

Lemma storeless_bind {A B} (m : M A) (k : A → M B) :
  storeless m → (∀ a, storeless (k a)) → storeless (m ≫= k).
Proof.
  intros Hm Hk w ms. rewrite !run_bind, Hm.
  destruct (m w) as [[a|e] w1]; simpl; [apply Hk|done].
Qed.

Lemma storeless_mats {A} (m : M A) w :
  storeless m → mats (m w).2 = mats w.
Proof.
  intros Hm. specialize (Hm w (mats w)).
  assert (set_mats w (mats w) = w) as Hw by by destruct w.
  rewrite Hw in Hm. rewrite Hm at 1. done.
Qed.

End Storeless.

Ltac storeless_step :=
  lazymatch goal with
  | |- storeless (mret _) => apply storeless_ret
  | |- storeless (lift _) => apply storeless_lift
  | |- storeless (draw _) => apply storeless_draw
  | |- storeless (draw_or_raise _) => apply storeless_draw_or_raise
  | |- storeless (_ ≫= _) => apply storeless_bind; [|intros ?]
  | |- storeless (if decide _ then _ else _) => case_decide
  | |- storeless (let '(_, _) := ?p in _) => destruct p
  | |- storeless (match ?p with (_, _) => _ end) => destruct p
  end.

Section RowLoop.
Context {T G : Type} `{!Scalar T} `{!Extern T G}.
Local Abbreviation M := (M T G).

Lemma storeless_mvnrnd_pre mu Lambda : storeless (mvnrnd_pre mu Lambda).
Proof. unfold mvnrnd_pre. repeat storeless_step. Qed.

Context (F : loc) (n ncol : nat).
Context (post : nat → option (list T) → option (list T) → M (list T)).
Context (body : nat → M ()).
Hypothesis post_storeless : ∀ t l r, storeless (post t l r).
Hypothesis body_post : ∀ t w cur,
  t < n → mats w !! F = Some (Mat n ncol cur) →
  body t w = (v ← post t (row_before t cur) (cur !! (t + 1));
              assign_row F t v) w.

Lemma storeless_chain_rows old ts left :
  storeless (chain_rows post ncol old ts left).
Proof using post_storeless.
  revert left. induction ts as [|t ts IH]; intros left; simpl.
  - apply storeless_ret.
  - repeat first [storeless_step | apply post_storeless | apply IH].
Qed.

Lemma row_loop_from (old : list (list T)) k : ∀ a w w' cur,
  a + k = n → length cur = n →
  mats w !! F = Some (Mat n ncol cur) →
  drop a cur = drop a old →
  for_each (seq a k) body w = (Ok (), w') →
  ∃ new w'',
    chain_rows post ncol old (seq a k) (row_before a cur) w = (Ok new, w'') ∧
    length new = k ∧
    w' = set_mats w'' (<[F := Mat n ncol (take a cur ++ new)]> (mats w)).
Proof using post_storeless body_post.
  induction k as [|k IH]; intros a w w' cur Hak Hlen Hcur Hold Hloop.
  - simpl in *. apply ret_Ok in Hloop as [_ ->].
    exists [], w. split; [done|]. split; [done|].
    rewrite app_nil_r. assert (a = n) as -> by lia.
    rewrite take_ge by lia. rewrite insert_id by done. by destruct w.
  - simpl in Hloop. apply bind_Ok in Hloop as ([] & w1 & Hbody & Hloop).
    rewrite (body_post a w cur) in Hbody by (done || lia).
    apply bind_Ok in Hbody as (v & w0 & Hpost & Hassign).
    pose proof (storeless_mats (post a (row_before a cur) (cur !! (a + 1))) w
                  (post_storeless _ _ _)) as Hm0.
    rewrite Hpost in Hm0. simpl in Hm0.
    unfold assign_row in Hassign.
    apply bind_Ok in Hassign as (m & w2 & Hread & Hassign).
    unfold read_mat in Hread. injection Hread as Hread <-.
    apply or_raise_Ok in Hread. rewrite Hm0, Hcur in Hread. injection Hread as <-.
    apply bind_Ok in Hassign as (m' & w2 & Hset & Hwrite).
    apply lift_Ok in Hset as [Hset ->].
    unfold set_row in Hset. simpl in Hset.
    rewrite decide_True in Hset by lia.
    apply result_bind_Ok in Hset as (r & Hfit & [= <-]).
    rewrite run_write_mat in Hwrite. injection Hwrite as <-.
    set (cur' := <[a := r]> cur) in *.
    set (w1 := World _ _ _ _) in *.
    assert (w1 = set_mats w0 (<[F := Mat n ncol cur']> (mats w))) as Hw1.
    { subst w1. unfold set_mats. by rewrite Hm0. }
    destruct (IH (S a) w1 w' cur') as (new & w'' & Hchain & Hnew & Hw');
      [lia|by subst cur'; rewrite length_insert
      |by subst w1; simpl; rewrite lookup_insert_eq| |done|].
    { subst cur'. rewrite drop_insert_lt by lia.
      change (S a) with (1 + a). rewrite Nat.add_comm, <- !drop_drop.
      by rewrite Hold. }
    assert (row_before (S a) cur' = Some r) as Hleft.
    { simpl. subst cur'. apply list_lookup_insert_eq. lia. }
    rewrite Hleft in Hchain.
    rewrite Hw1 in Hchain.
    rewrite (storeless_chain_rows old (seq (S a) k) (Some r)) in Hchain.
    destruct (chain_rows post ncol old (seq (S a) k) (Some r) w0)
      as [rnew w3] eqn:Hchain0.
    simpl in Hchain. injection Hchain as -> Hw''.
    exists (r :: new), w3. split; [|split].
    + simpl.
      assert (cur !! (a + 1) = old !! (a + 1)) as <-.
      { rewrite <- (lookup_drop cur a 1), <- (lookup_drop old a 1). by rewrite Hold. }
      rewrite (run_bind_ok _ _ _ _ _ Hpost).
      rewrite (run_bind_lift_ok _ _ _ _ Hfit).
      rewrite (run_bind_ok _ _ _ _ _ Hchain0). done.
    + simpl. lia.
    + rewrite Hw'. rewrite <- Hw''. unfold set_mats. simpl.
      rewrite Hm0, insert_insert_eq. do 3 f_equal.
      rewrite (take_S_r cur' a r) by done.
      subst cur'. rewrite take_insert_ge by lia.
      by rewrite <- app_assoc.
Qed.

End RowLoop.

(** * Shapes of the intermediate arrays *)

Section Shapes.
Context {A : Type}.

Lemma length_columns n (rs : list (list A)) : length (columns n rs) = n.
Proof. revert rs. induction n as [|n IH]; intros rs; simpl; [done|]. by rewrite IH. Qed.

Lemma length_chunks k n (l : list A) : length (chunks k n l) = k.
Proof. revert l. induction k as [|k IH]; intros l; simpl; [done|]. by rewrite IH. Qed.

Lemma Forall_chunks k n (l : list A) :
  length l = k * n → Forall (λ c, length c = n) (chunks k n l).
Proof.
  revert l. induction k as [|k IH]; intros l Hl; simpl; [done|].
  constructor.
  - rewrite length_take. lia.
  - apply IH. rewrite length_drop. lia.
Qed.

Lemma length_concat_uniform n (ls : list (list A)) :
  Forall (λ r, length r = n) ls → length (concat ls) = length ls * n.
Proof.
  induction 1 as [|r ls Hr _ IH]; simpl; [done|].
  rewrite length_app, IH, Hr. done.
Qed.

Lemma wf_reshape3 (p : matrix A) s t :
  wf_matrix p → reshape3 p s = Ok t → wf_tensor t ∧ dims t = s.
Proof.
  intros [H1 H2]. unfold reshape3. case_decide as Hs; [|done]. intros [= <-].
  split; [|done]. split; simpl.
  - rewrite length_fmap. apply length_chunks.
  - apply Forall_fmap.
    assert (length (concat (rows p)) = s.1.1 * (s.1.2 * s.2)) as Hlen.
    { rewrite (length_concat_uniform _ _ H2), H1. lia. }
    eapply Forall_impl; [by apply Forall_chunks|]. simpl.
    intros c Hc. split; [apply length_chunks|]. by apply Forall_chunks.
Qed.

End Shapes.

Section ShapesT.
Context {T : Type} `{!Scalar T}.

Lemma wf_np_matmul (a b p : matrix T) :
  length (rows a) = nrows a → np_matmul a b = Ok p →
  wf_matrix p ∧ nrows p = nrows a ∧ ncols p = ncols b.
Proof.
  intros Ha. unfold np_matmul. case_decide; [|done]. intros [= <-].
  split; [|done]. split; simpl.
  - by rewrite length_fmap.
  - apply Forall_fmap, Forall_forall. intros r _. simpl.
    by rewrite length_fmap, length_columns.
Qed.

Lemma length_rows_transpose (m : matrix T) :
  length (rows (transpose m)) = nrows (transpose m).
Proof. simpl. apply length_columns. Qed.

Lemma length_rows_kr_prod (a b k : matrix T) :
  length (rows a) = nrows a → length (rows b) = nrows b →
  kr_prod a b = Ok k → length (rows k) = nrows k.
Proof.
  intros Ha Hb. unfold kr_prod. case_decide; [|done]. intros [= <-]. simpl.
  rewrite (length_concat_uniform (nrows b)).
  - rewrite length_fmap. lia.
  - apply Forall_fmap, Forall_forall. intros r _. simpl. by rewrite length_fmap.
Qed.

End ShapesT.

(** * A slice of a broadcast sum *)

Section Slices.
Context {A B C A' B' C' : Type}.

Lemma mapM_fmap_total {D} (g : C → option C') (k : D → C) (h : D → C')
    (l : list D) :
  (∀ x, x ∈ l → g (k x) = Some (h x)) → mapM g (k <$> l) = Some (h <$> l).
Proof.
  induction l as [|x l IH]; intros H; [done|].
  rewrite !fmap_cons. simpl. rewrite H by (by left). simpl.
  rewrite IH; [done|]. intros y Hy. apply H. by right.
Qed.

Lemma mapM_total (g : C → option C') (h : C → C') (l : list C) :
  (∀ x, x ∈ l → g x = Some (h x)) → mapM g l = Some (h <$> l).
Proof.
  intros H. rewrite <- (list_fmap_id l) at 1. by apply mapM_fmap_total.
Qed.

Lemma mapM_bzip (f : A → B → C) (g : C → option C') (gA : A → A')
    (gB : B → B') (f' : A' → B' → C') (la : list A) (lb : list B) :
  (∀ a b, a ∈ la → b ∈ lb → g (f a b) = Some (f' (gA a) (gB b))) →
  mapM g (bzip f la lb) = Some (bzip f' (gA <$> la) (gB <$> lb)).
Proof.
  intros H.
  assert (mapM g (zip_with f la lb) = Some (zip_with f' (gA <$> la) (gB <$> lb)))
    as Hzip.
  { clear -H. revert lb H. induction la as [|a la IH]; intros [|b lb] H; try done.
    rewrite !fmap_cons. simpl. rewrite H by (by left). simpl.
    rewrite IH; [done|]. intros a' b' Ha' Hb'. apply H; by right. }
  destruct la as [|a [|a' la]].
  - destruct lb as [|b [|b' lb]]; done.
  - change (bzip f [a] lb) with (f a <$> lb).
    change (bzip f' (gA <$> [a]) (gB <$> lb)) with (f' (gA a) <$> (gB <$> lb)).
    rewrite <- list_fmap_compose. apply mapM_fmap_total.
    intros b Hb. apply H; [by left|done].
  - destruct lb as [|b [|b' lb]]; [done| |exact Hzip].
    change (bzip f (a :: a' :: la) [b]) with ((λ x, f x b) <$> (a :: a' :: la)).
    change (bzip f' (gA <$> a :: a' :: la) (gB <$> [b]))
      with ((λ x, f' x (gB b)) <$> (gA <$> (a :: a' :: la))).
    rewrite <- list_fmap_compose. apply mapM_fmap_total.
    intros x Hx. apply H; [done|by left].
Qed.

End Slices.

Section SliceSum.
Context {T : Type} `{!Scalar T}.

Lemma bzip_singleton_r {A B C} (f : A → B → C) (r : list A) (b : B) :
  bzip f r [b] = (λ a, f a b) <$> r.
Proof. by destruct r as [|a [|a' r]]. Qed.

Lemma bdim_1_r d d' : bdim d 1 = Ok d' → d' = d.
Proof. unfold bdim. repeat case_decide; naive_solver. Qed.

Lemma unbox_box (l : list T) : unbox <$> ((λ x, [x]) <$> l) = l.
Proof. rewrite <- list_fmap_compose. by rewrite <- (list_fmap_id l) at 2. Qed.

Lemma lookup_bzip_box (r : list T) (s : list T) i :
  i < length r → s ∈ ((λ x, [x]) <$> (s : list T)) ∨ True →
  ∀ x, s = [x] → bzip fadd r s !! i = Some (fadd (proj i r) (unbox s)).
Proof.
  intros Hi _ x ->. rewrite bzip_singleton_r, list_lookup_fmap.
  destruct (lookup_lt_is_Some_2 r i Hi) as [y Hy]. unfold proj. by rewrite Hy.
Qed.

(** (A + v[:, None])[:, i] = A[:, i] + v *)
Lemma col_madd_column (c4 var4 : matrix T) (lm : list T) i :
  wf_matrix c4 → madd c4 (column_vector lm) = Ok var4 →
  col var4 i = (b ← col c4 i; vadd b lm).
Proof.
  intros [Hlen Hrows]. unfold madd, mzip.
  destruct (bdim (nrows c4) _) as [r|] eqn:Hr; simpl; [|done].
  destruct (bdim (ncols c4) _) as [c|] eqn:Hc; simpl; [|done].
  apply bdim_1_r in Hc as ->. intros [= <-]. unfold col. simpl.
  case_decide as Hi; [|done].
  rewrite (mapM_bzip _ _ (proj i) unbox fadd).
  2:{ intros a b Ha Hb. apply list_elem_of_fmap in Hb as (x & -> & _).
      rewrite Forall_forall in Hrows. apply (lookup_bzip_box _ _ _) with x; auto.
      rewrite (Hrows a Ha). done. }
  rewrite unbox_box.
  rewrite (mapM_total (λ r : list T, r !! i) (proj i)).
  2:{ intros a Ha. rewrite Forall_forall in Hrows. unfold proj.
      destruct (lookup_lt_is_Some_2 a i) as [y ->]; [|done]. by rewrite (Hrows a Ha). }
  simpl. unfold vadd, vzip.
  rewrite length_fmap, Hlen. simpl in Hr. by rewrite Hr.
Qed.

(** (A + L[:, :, None])[:, :, i] = A[:, :, i] + L *)
Lemma slice_tadd_new_axis (c3 var3 : tensor T) (L : matrix T) i :
  wf_tensor c3 → tadd c3 (new_axis_last L) = Ok var3 →
  slice_last var3 i = (Ci ← slice_last c3 i; madd Ci L).
Proof.
  intros [Hlen Hslabs]. unfold tadd, tzip, bshape3.
  destruct c3 as [[[a b] d] S]. simpl in *.
  destruct (bdim a _) as [a'|] eqn:Ha; simpl; [|done].
  destruct (bdim b _) as [b'|] eqn:Hb; simpl; [|done].
  destruct (bdim d _) as [d'|] eqn:Hd; simpl; [|done].
  apply bdim_1_r in Hd as ->. intros [= <-]. unfold slice_last. simpl.
  case_decide as Hi; [|done].
  rewrite (mapM_bzip _ _ (fmap (proj i)) (fmap unbox) (bzip fadd)).
  2:{ intros s l Hs Hl. apply list_elem_of_fmap in Hl as (lr & -> & _).
      rewrite Forall_forall in Hslabs. destruct (Hslabs s Hs) as [_ Hr].
      apply mapM_bzip. intros r x Hr' Hx.
      apply list_elem_of_fmap in Hx as (y & -> & _).
      rewrite Forall_forall in Hr. apply (lookup_bzip_box _ _ _) with y; auto.
      by rewrite (Hr r Hr'). }
  rewrite (mapM_total (mapM (λ r : list T, r !! i)) (fmap (proj i))).
  2:{ intros s Hs. rewrite Forall_forall in Hslabs.
      destruct (Hslabs s Hs) as [_ Hr]. apply mapM_total.
      intros r Hr'. rewrite Forall_forall in Hr. unfold proj.
      destruct (lookup_lt_is_Some_2 r i) as [y ->]; [|done]. by rewrite (Hr r Hr'). }
  simpl. unfold madd, mzip. simpl. rewrite Ha, Hb. simpl.
  do 3 f_equal. rewrite <- list_fmap_compose.
  rewrite <- (list_fmap_id (rows L)) at 2. apply list_fmap_ext.
  intros _ l _. simpl. apply unbox_box.
Qed.

End SliceSum.

Section EntityRows.
Context {T G : Type} `{!Scalar T} `{!Extern T G}.
Local Abbreviation M := (M T G).

Lemma storeless_row_posterior c3 c4 mu L i : storeless (row_posterior c3 c4 mu L i).
Proof.
  unfold row_posterior.
  repeat first [apply storeless_mvnrnd_pre | storeless_step].
Qed.

(** the rows of an entity factor after the row loop *)
Lemma entity_rows (F : loc) (Fm A B : matrix T) tst tind mode mu L
    (w1 w' : world T G) (l : loc) :
  mats w1 !! F = Some Fm → length (rows Fm) = nrows Fm →
  (var1 ← lift (transpose <$> kr_prod A B);
   var2 ← lift (kr_prod var1 var1);
   m ← lift (ten2mat tind mode);
   p ← lift (np_matmul var2 (transpose m));
   c3 ← lift (reshape3 p (ncols Fm, ncols Fm, nrows Fm));
   var3 ← lift (tadd c3 (new_axis_last L));
   m ← lift (ten2mat tst mode);
   c4 ← lift (np_matmul var1 (transpose m));
   lm ← lift (np_matvec L mu);
   var4 ← lift (madd c4 (column_vector lm));
   for_each (seq 0 (nrows Fm)) (resample_row F var3 var4);;
   mret F) w1 = (Ok l, w') →
  ∃ c3 c4 new w2,
    precision_contributions A B tind mode (ncols Fm) (nrows Fm) = Ok c3 ∧
    linear_contributions A B tst mode = Ok c4 ∧
    chain_rows (λ i _ _, row_posterior c3 c4 mu L i) (ncols Fm) (rows Fm)
      (seq 0 (nrows Fm)) None w1 = (Ok new, w2) ∧
    length new = nrows Fm ∧
    w' = set_mats w2 (<[F := Mat (nrows Fm) (ncols Fm) new]> (mats w1)) ∧
    l = F.
Proof.
  intros HF Hlen H.
  apply bind_Ok in H as (var1 & ? & Hvar1 & H). apply lift_Ok in Hvar1 as [Hvar1 ->].
  apply bind_Ok in H as (var2 & ? & Hvar2 & H). apply lift_Ok in Hvar2 as [Hvar2 ->].
  apply bind_Ok in H as (m3 & ? & Hm3 & H). apply lift_Ok in Hm3 as [Hm3 ->].
  apply bind_Ok in H as (p & ? & Hp & H). apply lift_Ok in Hp as [Hp ->].
  apply bind_Ok in H as (c3 & ? & Hc3 & H). apply lift_Ok in Hc3 as [Hc3 ->].
  apply bind_Ok in H as (var3 & ? & Hvar3 & H). apply lift_Ok in Hvar3 as [Hvar3 ->].
  apply bind_Ok in H as (m4 & ? & Hm4 & H). apply lift_Ok in Hm4 as [Hm4 ->].
  apply bind_Ok in H as (c4 & ? & Hc4 & H). apply lift_Ok in Hc4 as [Hc4 ->].
  apply bind_Ok in H as (lm & ? & Hlm & H). apply lift_Ok in Hlm as [Hlm ->].
  apply bind_Ok in H as (var4 & ? & Hvar4 & H). apply lift_Ok in Hvar4 as [Hvar4 ->].
  apply bind_Ok in H as ([] & w3 & H & Hret). apply ret_Ok in Hret as [-> ->].
  apply result_fmap_Ok in Hvar1 as (k & Hk & ->).
  assert (wf_tensor c3 ∧ wf_matrix c4) as [Wc3 Wc4].
  { split.
    - eapply wf_reshape3; [|done].
      eapply wf_np_matmul; [|done].
      eapply length_rows_kr_prod; [| |done]; apply length_rows_transpose.
    - eapply wf_np_matmul; [|done]. apply length_rows_transpose. }
  destruct Fm as [n ncol cur]. simpl in *.
  destruct (row_loop_from F n ncol (λ i _ _, row_posterior c3 c4 mu L i)
              (resample_row F var3 var4)) with (old := cur) (k := n) (a := 0)
              (w := w1) (w' := w3) (cur := cur)
    as (new & w2 & Hchain & Hnew & Hw'); try done.
  { intros. apply storeless_row_posterior. }
  { intros t w cur' Ht Hcur'. unfold resample_row, row_posterior.
    rewrite (slice_tadd_new_axis c3 var3 L t Wc3 Hvar3).
    rewrite (col_madd_column c4 var4 lm t Wc4 Hvar4).
    rewrite !run_bind. rewrite !run_lift.
    destruct (slice_last c3 t) as [Ci|]; simpl; [|done].
    rewrite !run_bind, !run_lift.
    destruct (madd Ci L) as [P|]; simpl; [|done].
    rewrite !run_bind, !run_lift.
    destruct (col c4 t) as [li|]; simpl; [|done].
    rewrite !run_bind, !run_lift, Hlm. simpl.
    rewrite !run_bind, !run_lift.
    destruct (vadd li lm) as [b|]; simpl; [|done].
    rewrite !run_bind, !run_lift.
    destruct (solve P b) as [m|]; simpl; [|done].
    rewrite !run_bind. done. }
  exists c3, c4, new, w2.
  split; [|split; [|done]].
  - unfold precision_contributions, design. rewrite Hk. simpl.
    rewrite Hvar2. simpl. rewrite Hm3. simpl. rewrite Hp. simpl. done.
  - unfold linear_contributions, design. rewrite Hk. simpl.
    rewrite Hm4. simpl. done.
Qed.

End EntityRows.

Section TemporalRows.
Context {T G : Type} `{!Scalar T} `{!Extern T G}.
Local Abbreviation M := (M T G).

Lemma storeless_x_posterior dim3 var3 var4 mu L t l r :
  storeless (x_posterior dim3 var3 var4 mu L t l r).
Proof.
  unfold x_posterior.
  repeat first [apply storeless_mvnrnd_pre | storeless_step].
Qed.

Lemma run_bind_lift {A B} (r : result A) (k : A → M B) w :
  (lift r ≫= k) w = match r with Ok a => k a w | Raise e => (Raise e, w) end.
Proof. by destruct r. Qed.

Lemma run_bind_read_row {B} X (m : matrix T) i (k : list T → M B) w :
  mats w !! X = Some m →
  (read_row X i ≫= k) w = (lift (or_raise IndexError (rows m !! i)) ≫= k) w.
Proof.
  intros Hm. unfold read_row. rewrite run_bind_assoc.
  by rewrite (run_bind_ok _ _ _ _ _ (run_read_mat _ _ _ Hm)).
Qed.

Lemma resample_step_post X n ncol var3 var4 mu L t (w : world T G) cur :
  t < n → mats w !! X = Some (Mat n ncol cur) →
  resample_step X n var3 var4 mu L t w =
  (v ← x_posterior n var3 var4 mu L t (row_before t cur) (cur !! (t + 1));
   assign_row X t v) w.
Proof.
  intros Ht Hm. unfold resample_step, x_posterior.
  destruct (decide (t = 0)) as [->|Ht0]; [|destruct (decide (t = n - 1)) as [Htn|Htn]].
  - rewrite (run_bind_read_row _ _ _ _ _ Hm). simpl.
    rewrite !run_bind_assoc, !run_bind_lift.
    destruct (or_raise IndexError (cur !! 1)) as [x1|]; [|done].
    rewrite !run_bind_assoc, !run_bind_lift.
    destruct (vadd x1 mu) as [s|]; [|done].
    rewrite !run_bind_assoc, !run_bind_lift.
    destruct (slice_last var3 0) as [P|]; [|done].
    rewrite !run_bind_assoc, !run_bind_lift.
    destruct (madd P _) as [P'|]; [|done]. done.
  - destruct t as [|t]; [done|]. simpl.
    replace (t - 0) with t by lia.
    rewrite !run_bind_assoc, !run_bind_lift.
    destruct (col var4 (S t)) as [b|]; [|done].
    rewrite (run_bind_read_row _ _ _ _ _ Hm). simpl.
    rewrite !run_bind_assoc, !run_bind_lift.
    destruct (or_raise IndexError (cur !! t)) as [xp|]; [|done].
    rewrite !run_bind_assoc, !run_bind_lift.
    destruct (np_matvec L xp) as [lx|]; [|done].
    rewrite !run_bind_assoc, !run_bind_lift.
    destruct (vadd b lx) as [t1|]; [|done].
    rewrite !run_bind_assoc, !run_bind_lift.
    destruct (slice_last var3 (S t)) as [P|]; [|done].
    rewrite !run_bind_assoc, !run_bind_lift.
    destruct (madd P L) as [P'|]; [|done].
    rewrite !run_bind_assoc, !run_bind_lift.
    destruct (solve P' t1) as [m|]; [|done]. done.
  - destruct t as [|t]; [done|]. simpl.
    replace (t - 0) with t by lia.
    rewrite !run_bind_assoc, !run_bind_lift.
    destruct (col var4 (S t)) as [b|]; [|done].
    rewrite (run_bind_read_row _ _ _ _ _ Hm). simpl.
    rewrite !run_bind_assoc, !run_bind_lift.
    destruct (or_raise IndexError (cur !! t)) as [xp|]; [|done].
    rewrite (run_bind_read_row _ _ _ _ _ Hm). simpl.
    rewrite !run_bind_assoc, !run_bind_lift.
    destruct (or_raise IndexError (cur !! S (t + 1))) as [xn|]; [|done].
    rewrite !run_bind_assoc, !run_bind_lift.
    destruct (vadd xp xn) as [s|]; [|done].
    rewrite !run_bind_assoc, !run_bind_lift.
    destruct (np_matvec L s) as [lx|]; [|done].
    rewrite !run_bind_assoc, !run_bind_lift.
    destruct (vadd b lx) as [t1|]; [|done].
    rewrite !run_bind_assoc, !run_bind_lift.
    destruct (slice_last var3 (S t)) as [P|]; [|done].
    rewrite !run_bind_assoc, !run_bind_lift.
    destruct (madd P _) as [P'|]; [|done].
    rewrite !run_bind_assoc, !run_bind_lift.
    destruct (solve P' t1) as [m|]; [|done]. done.
Qed.

(** the rows of the temporal factor after the time loop *)
Lemma time_loop X (Xm : matrix T) var3 var4 mu L (w1 w' : world T G) :
  mats w1 !! X = Some Xm → length (rows Xm) = nrows Xm →
  for_each (seq 0 (nrows Xm))
    (resample_step X (nrows Xm) var3 var4 mu L) w1 = (Ok (), w') →
  ∃ new w2,
    chain_rows (x_posterior (nrows Xm) var3 var4 mu L) (ncols Xm) (rows Xm)
      (seq 0 (nrows Xm)) None w1 = (Ok new, w2) ∧
    length new = nrows Xm ∧
    w' = set_mats w2 (<[X := Mat (nrows Xm) (ncols Xm) new]> (mats w1)).
Proof.
  intros HX Hlen H. destruct Xm as [n ncol cur]. simpl in *.
  destruct (row_loop_from X n ncol (x_posterior n var3 var4 mu L)
              (resample_step X n var3 var4 mu L)) with (old := cur) (k := n)
              (a := 0) (w := w1) (w' := w') (cur := cur)
    as (new & w2 & Hchain & Hnew & Hw'); try done.
  - intros. apply storeless_x_posterior.
  - intros. by eapply resample_step_post.
  - by exists new, w2.
Qed.

End TemporalRows.

Section Samplers.
Context {T G : Type} `{!Scalar T} `{!Extern T G}.
Local Abbreviation M := (M T G).

Lemma chain_rows_no_neighbours (post : nat → M (list T)) ncol old old' ts l l' w :
  chain_rows (λ i _ _, post i) ncol old ts l w =
  chain_rows (λ i _ _, post i) ncol old' ts l' w.
Proof.
  revert l l' w. induction ts as [|t ts IH]; intros l l' w; simpl; [done|].
  rewrite !(run_bind (post t)). destruct (post t w) as [[v|e] w1]; [|done].
  rewrite !run_bind_lift. destruct (fit_row ncol v) as [r|]; [|done].
  rewrite !(run_bind (chain_rows _ _ _ _ _)).
  by rewrite (IH (Some r) (Some r)).
Qed.

Lemma entity_hyper_same_arrays F beta0 (w w1 : world T G) r :
  entity_hyper F beta0 w = (r, w1) → mats w1 = mats w ∧ tens w1 = tens w.
Proof.
  intros Hh. apply (preserves_entity_hyper same_arrays) in Hh as [? ?]. done.
Qed.

(** the rows sample_factor_u stores *)
Lemma sample_factor_u_rows tst tind U V X beta0 (w w' : world T G) Um l :
  mats w !! U = Some Um → length (rows Um) = nrows Um →
  sample_factor_u tst tind U V X beta0 w = (Ok l, w') →
  ∃ Vm Xm mu L w1 c3 c4 new w2,
    mats w !! V = Some Vm ∧ mats w !! X = Some Xm ∧
    entity_hyper Um beta0 w = (Ok (mu, L), w1) ∧
    precision_contributions Xm Vm tind Axis0 (ncols Um) (nrows Um) = Ok c3 ∧
    linear_contributions Xm Vm tst Axis0 = Ok c4 ∧
    chain_rows (λ i _ _, row_posterior c3 c4 mu L i) (ncols Um) []
      (seq 0 (nrows Um)) None w1 = (Ok new, w2) ∧
    length new = nrows Um ∧
    w' = set_mats w2 (<[U := Mat (nrows Um) (ncols Um) new]> (mats w)) ∧
    l = U.
Proof.
  intros HU Hlen H. unfold sample_factor_u in H.
  rewrite (run_bind_ok _ _ _ _ _ (run_read_mat _ _ _ HU)) in H.
  apply bind_Ok in H as ([mu L] & w1 & Hhyper & H).
  destruct (entity_hyper_same_arrays _ _ _ _ _ Hhyper) as [Hm1 Ht1].
  apply bind_Ok in H as (Xm & ? & HX & H).
  unfold read_mat in HX. injection HX as HX <-. apply or_raise_Ok in HX.
  apply bind_Ok in H as (Vm & ? & HV & H).
  unfold read_mat in HV. injection HV as HV <-. apply or_raise_Ok in HV.
  destruct (entity_rows U Um Xm Vm tst tind Axis0 mu L w1 w' l) as
    (c3 & c4 & new & w2 & Hc3 & Hc4 & Hchain & Hnew & Hw' & Hl);
    [congruence|done|exact H|].
  exists Vm, Xm, mu, L, w1, c3, c4, new, w2.
  rewrite (chain_rows_no_neighbours _ _ _ (rows Um) _ _ None).
  rewrite <- Hm1. repeat split; try done; congruence.
Qed.

(** the rows sample_factor_v stores *)
Lemma sample_factor_v_rows tst tind U V X beta0 (w w' : world T G) Vm l :
  mats w !! V = Some Vm → length (rows Vm) = nrows Vm →
  sample_factor_v tst tind U V X beta0 w = (Ok l, w') →
  ∃ Um Xm mu L w1 c3 c4 new w2,
    mats w !! U = Some Um ∧ mats w !! X = Some Xm ∧
    entity_hyper Vm beta0 w = (Ok (mu, L), w1) ∧
    precision_contributions Xm Um tind Axis1 (ncols Vm) (nrows Vm) = Ok c3 ∧
    linear_contributions Xm Um tst Axis1 = Ok c4 ∧
    chain_rows (λ j _ _, row_posterior c3 c4 mu L j) (ncols Vm) []
      (seq 0 (nrows Vm)) None w1 = (Ok new, w2) ∧
    length new = nrows Vm ∧
    w' = set_mats w2 (<[V := Mat (nrows Vm) (ncols Vm) new]> (mats w)) ∧
    l = V.
Proof.
  intros HV Hlen H. unfold sample_factor_v in H.
  rewrite (run_bind_ok _ _ _ _ _ (run_read_mat _ _ _ HV)) in H.
  apply bind_Ok in H as ([mu L] & w1 & Hhyper & H).
  destruct (entity_hyper_same_arrays _ _ _ _ _ Hhyper) as [Hm1 Ht1].
  apply bind_Ok in H as (Xm & ? & HX & H).
  unfold read_mat in HX. injection HX as HX <-. apply or_raise_Ok in HX.
  apply bind_Ok in H as (Um & ? & HU & H).
  unfold read_mat in HU. injection HU as HU <-. apply or_raise_Ok in HU.
  destruct (entity_rows V Vm Xm Um tst tind Axis1 mu L w1 w' l) as
    (c3 & c4 & new & w2 & Hc3 & Hc4 & Hchain & Hnew & Hw' & Hl);
    [congruence|done|exact H|].
  exists Um, Xm, mu, L, w1, c3, c4, new, w2.
  rewrite (chain_rows_no_neighbours _ _ _ (rows Vm) _ _ None).
  rewrite <- Hm1. repeat split; try done; congruence.
Qed.

(** the rows sample_factor_x stores *)
Lemma sample_factor_x_rows tst tind U V X beta0 (w w' : world T G) Xm l :
  mats w !! X = Some Xm → length (rows Xm) = nrows Xm →
  sample_factor_x tst tind U V X beta0 w = (Ok l, w') →
  ∃ Um Vm mu L w1 var3 var4 new w2,
    mats w !! U = Some Um ∧ mats w !! V = Some Vm ∧
    mats w1 = mats w ∧ tens w1 = tens w ∧
    precision_contributions Vm Um tind Axis2 (ncols Xm) (nrows Xm) = Ok var3 ∧
    linear_contributions Vm Um tst Axis2 = Ok var4 ∧
    chain_rows (x_posterior (nrows Xm) var3 var4 mu L) (ncols Xm) (rows Xm)
      (seq 0 (nrows Xm)) None w1 = (Ok new, w2) ∧
    length new = nrows Xm ∧
    w' = set_mats w2 (<[X := Mat (nrows Xm) (ncols Xm) new]> (mats w)) ∧
    l = X.
Proof.
  intros HX Hlen H. unfold sample_factor_x in H.
  rewrite (run_bind_ok _ _ _ _ _ (run_read_mat _ _ _ HX)) in H.
  apply bind_Ok in H as (x0 & ? & Hx0 & H). apply lift_Ok in Hx0 as [Hx0 ->].
  apply bind_Ok in H as (dx & ? & Hdx & H). apply lift_Ok in Hdx as [Hdx ->].
  apply bind_Ok in H as (d2 & ? & Hd2 & H). apply lift_Ok in Hd2 as [Hd2 ->].
  apply bind_Ok in H as (s1 & ? & Hs1 & H). apply lift_Ok in Hs1 as [Hs1 ->].
  apply bind_Ok in H as (s2 & ? & Hs2 & H). apply lift_Ok in Hs2 as [Hs2 ->].
  apply bind_Ok in H as (Vh & ? & HVh & H). apply lift_Ok in HVh as [HVh ->].
  apply bind_Ok in H as (L & w0 & HL & H).
  apply (preserves_draw_or_raise same_arrays) in HL as [HLt HLm].
  apply bind_Ok in H as (mu & w1 & Hmu & H).
  apply (preserves_mvnrnd_pre same_arrays) in Hmu as [Hmut Hmum].
  apply bind_Ok in H as (Vm & ? & HV & H).
  unfold read_mat in HV. injection HV as HV <-. apply or_raise_Ok in HV.
  apply bind_Ok in H as (Um & ? & HU & H).
  unfold read_mat in HU. injection HU as HU <-. apply or_raise_Ok in HU.
  apply bind_Ok in H as (var1 & ? & Hvar1 & H). apply lift_Ok in Hvar1 as [Hvar1 ->].
  apply bind_Ok in H as (var2 & ? & Hvar2 & H). apply lift_Ok in Hvar2 as [Hvar2 ->].
  apply bind_Ok in H as (m3 & ? & Hm3 & H). apply lift_Ok in Hm3 as [Hm3 ->].
  apply bind_Ok in H as (p & ? & Hp & H). apply lift_Ok in Hp as [Hp ->].
  apply bind_Ok in H as (var3 & ? & Hvar3 & H). apply lift_Ok in Hvar3 as [Hvar3 ->].
  apply bind_Ok in H as (m4 & ? & Hm4 & H). apply lift_Ok in Hm4 as [Hm4 ->].
  apply bind_Ok in H as (var4 & ? & Hvar4 & H). apply lift_Ok in Hvar4 as [Hvar4 ->].
  apply bind_Ok in H as ([] & w3 & H & Hret). apply ret_Ok in Hret as [-> ->].
  assert (mats w1 = mats w) as Hm1 by congruence.
  destruct (time_loop X Xm var3 var4 mu L w1 _ ltac:(congruence) Hlen H)
    as (new & w2 & Hchain & Hnew & Hw').
  exists Um, Vm, mu, L, w1, var3, var4, new, w2.
  apply result_fmap_Ok in Hvar1 as (k & Hk & ->).
  rewrite <- Hm1. repeat split; try done; try congruence.
  - unfold precision_contributions, design. rewrite Hk. simpl.
    rewrite Hvar2. simpl. rewrite Hm3. simpl. rewrite Hp. simpl. done.
  - unfold linear_contributions, design. rewrite Hk. simpl.
    rewrite Hm4. simpl. done.
Qed.

(** ** A single time slice *)

Lemma resample_step_one_row X var3 var4 mu L (w : world T G) Xm :
  mats w !! X = Some Xm → nrows Xm = 1 → length (rows Xm) = 1 →
  resample_step X 1 var3 var4 mu L 0 w = (Raise IndexError, w).
Proof.
  intros HX Hn Hlen. destruct Xm as [n ncol cur]. simpl in *. subst n.
  rewrite (resample_step_post X 1 ncol var3 var4 mu L 0 w cur) by (done || lia).
  unfold x_posterior. rewrite decide_True by done.
  rewrite !run_bind_assoc, run_bind_lift.
  rewrite lookup_ge_None_2 by (simpl; lia). done.
Qed.

Lemma sample_factor_x_one_row tst tind U V X beta0 (w : world T G) Xm :
  mats w !! X = Some Xm → nrows Xm = 1 → length (rows Xm) = 1 →
  ∃ e w', sample_factor_x tst tind U V X beta0 w = (Raise e, w').
Proof.
  intros HX Hn Hlen.
  destruct (sample_factor_x tst tind U V X beta0 w) as [[l|e] w'] eqn:H;
    [|by exists e, w'].
  exfalso.
  destruct (sample_factor_x_rows _ _ _ _ _ _ _ _ _ _ HX (eq_trans Hlen (eq_sym Hn)) H)
    as (Um & Vm & mu & L & w1 & var3 & var4 & new & w2 & _ & _ & _ & _ & _ & _ & Hchain & _).
  rewrite Hn in Hchain. simpl in Hchain.
  apply bind_Ok in Hchain as (v & ? & Hpost & _).
  unfold x_posterior in Hpost. rewrite decide_True in Hpost by done.
  apply bind_Ok in Hpost as (x1 & ? & Hx1 & _).
  apply lift_Ok in Hx1 as [Hx1 _]. apply or_raise_Ok in Hx1.
  rewrite lookup_ge_None_2 in Hx1 by lia. done.
Qed.

Lemma read_row_next_in_bounds X (w : world T G) Xm :
  mats w !! X = Some Xm → length (rows Xm) = nrows Xm → 2 ≤ nrows Xm →
  ∃ r, read_row X (0 + 1) w = (Ok r, w).
Proof.
  intros HX Hlen Hn. destruct (lookup_lt_is_Some_2 (rows Xm) 1) as [r Hr]; [lia|].
  exists r. unfold read_row. rewrite (run_bind_ok _ _ _ _ _ (run_read_mat _ _ _ HX)).
  unfold row. simpl. by rewrite Hr.
Qed.

End Samplers.

Section Driver.
Context {T G : Type} `{!Scalar T} `{!Extern T G}.
Local Abbreviation M := (M T G).

Lemma prepare_Ok dense_tensor sparse_tensor (w w0 : world T G) ind pos dt :
  prepare dense_tensor sparse_tensor w = (Ok (ind, pos, dt), w0) →
  ∃ sp, tens w !! sparse_tensor = Some sp ∧
    mats w0 = mats w ∧ rng w0 = rng w ∧ stdout w0 = stdout w ∧
    tens w0 = (if any_nan sp then <[sparse_tensor := nan_to_zero sp]> (tens w)
               else tens w) ∧
    ind = (if any_nan sp then tmap (λ x, negb (fisnan x)) sp
           else tmap (λ x, fneqb x fzero) sp).
Proof.
  unfold prepare. intros H.
  apply bind_Ok in H as (sp & ? & Hsp & H).
  unfold read_ten in Hsp. injection Hsp as Hsp <-. apply or_raise_Ok in Hsp.
  exists sp. split; [done|].
  apply bind_Ok in H as ([ind' pos'] & w1 & Hbr & H).
  apply bind_Ok in H as (dn & ? & Hdn & H).
  unfold read_ten in Hdn. injection Hdn as Hdn <-.
  apply bind_Ok in H as (dt' & ? & Hdt & H). apply lift_Ok in Hdt as [_ ->].
  apply ret_Ok in H as [[= -> -> ->] ->].
  destruct (any_nan sp); simpl in Hbr.
  - apply bind_Ok in Hbr as (dn' & ? & Hdn' & Hbr).
    unfold read_ten in Hdn'. injection Hdn' as Hdn' <-.
    apply bind_Ok in Hbr as (test & ? & Htest & Hbr). apply lift_Ok in Htest as [_ ->].
    apply bind_Ok in Hbr as ([] & ? & Hwr & Hbr).
    rewrite run_write_ten in Hwr. injection Hwr as <-.
    apply ret_Ok in Hbr as [[= -> ->] ->]. done.
  - apply bind_Ok in Hbr as (dn' & ? & Hdn' & Hbr).
    unfold read_ten in Hdn'. injection Hdn' as Hdn' <-.
    apply bind_Ok in Hbr as (test & ? & Htest & Hbr). apply lift_Ok in Htest as [_ ->].
    apply ret_Ok in Hbr as [[= -> ->] ->]. done.
Qed.

(** what a run of BPTF that returns went through *)
Lemma BPTF_Ok dense_tensor sparse_tensor init burn_iter gibbs_iter
    (w w' : world T G) tensor_hat :
  BPTF dense_tensor sparse_tensor init burn_iter gibbs_iter w
    = (Ok tensor_hat, w') →
  ∃ sp U V X ind pos_test dense_test w0 c wN,
    tens w !! sparse_tensor = Some sp ∧
    init !! "U" = Some U ∧ init !! "V" = Some V ∧ init !! "X" = Some X ∧
    prepare dense_tensor sparse_tensor w = (Ok (ind, pos_test, dense_test), w0) ∧
    sweeps sparse_tensor U V X ind pos_test dense_test burn_iter (dims sp)
      (burn_iter + gibbs_iter) w0 = (Ok c, wN) ∧
    tensor_hat = tdiv (tensor_hat_plus c) (of_nat gibbs_iter) ∧
    mats w' = mats wN ∧ tens w' = tens wN ∧ rng w' = rng wN.
Proof.
  unfold BPTF. intros H.
  apply bind_Ok in H as (sp & w1 & Hsp & H).
  unfold read_ten in Hsp. injection Hsp as Hsp <-. apply or_raise_Ok in Hsp.
  apply bind_Ok in H as (U & w1 & HU & H). apply lift_Ok in HU as [HU ->].
  apply bind_Ok in H as (V & w1 & HV & H). apply lift_Ok in HV as [HV ->].
  apply bind_Ok in H as (X & w1 & HX & H). apply lift_Ok in HX as [HX ->].
  apply or_raise_Ok in HU, HV, HX.
  apply bind_Ok in H as ([[ind pos] dt] & w0 & Hprep & H).
  apply bind_Ok in H as (c & wN & Hloop & H).
  exists sp, U, V, X, ind, pos, dt, w0, c, wN.
  do 6 (split; [done|]).
  apply bind_Ok in H as (h & ? & Hh & H). apply lift_Ok in Hh as [_ ->].
  apply bind_Ok in H as (mape & ? & Hmape & H). apply lift_Ok in Hmape as [_ ->].
  apply bind_Ok in H as ([] & w1 & Hp1 & H). injection Hp1 as <-.
  apply bind_Ok in H as (h' & ? & Hh' & H). apply lift_Ok in Hh' as [_ ->].
  apply bind_Ok in H as (rmse & ? & Hrmse & H). apply lift_Ok in Hrmse as [_ ->].
  apply bind_Ok in H as ([] & w2 & Hp2 & H). injection Hp2 as <-.
  apply bind_Ok in H as ([] & w3 & Hp3 & H). injection Hp3 as <-.
  apply ret_Ok in H as [-> ->]. done.
Qed.

Lemma sweeps_S ls U V X ind pos dt burn dim n (w0 : world T G) :
  sweeps ls U V X ind pos dt burn dim (S n) w0 =
  (c ← sweeps ls U V X ind pos dt burn dim n;
   sweep ls U V X ind pos dt burn c n) w0.
Proof. unfold sweeps. rewrite seq_S. simpl. apply for_fold_snoc. Qed.

Lemma preserves_sweeps ls U V X ind pos dt burn dim n :
  preserves (same_shapes (T:=T) (G:=G)) (sweeps ls U V X ind pos dt burn dim n).
Proof.
  unfold sweeps. apply preserves_for_fold; [apply _|]. intros.
  apply preserves_sweep.
Qed.

(** the factor matrices a sweep leaves are those its three samplers wrote *)
Lemma sweep_factors ls U V X ind pos dt burn c it (w w' : world T G) c' :
  sweep ls U V X ind pos dt burn c it w = (Ok c', w') →
  ∃ wx, resample_factors ls U V X ind (tau c) w = (Ok (), wx) ∧
        mats w' = mats wx ∧ tens w' = tens wx.
Proof.
  unfold sweep. intros H.
  apply bind_Ok in H as (sp & w1 & Hsp & H).
  apply bind_Ok in H as (lU & w2 & HU & H).
  apply bind_Ok in H as (lV & w3 & HV & H).
  apply bind_Ok in H as (lX & w4 & HX & H).
  exists w4. split.
  { unfold resample_factors.
    rewrite (run_bind_ok _ _ _ _ _ Hsp), (run_bind_ok _ _ _ _ _ HU).
    rewrite (run_bind_ok _ _ _ _ _ HV), (run_bind_ok _ _ _ _ _ HX). done. }
  cbv beta in H.
  match type of H with
  | ?m w4 = _ => assert (preserves same_arrays m) as Hp
  end.
  { repeat lazymatch goal with
           | |- preserves _ (sample_precision_tau _ _ _) =>
               apply preserves_sample_precision_tau; apply _
           | _ => preserves_step
           end. }
  by apply Hp in H as [? ?].
Qed.

(** BPTF never returns when X has a single row and there is a sweep to run *)
Lemma BPTF_one_time_slice dense_tensor sparse_tensor init burn_iter gibbs_iter
    (w w' : world T G) X Xm tensor_hat :
  init !! "X" = Some X → mats w !! X = Some Xm →
  nrows Xm = 1 → length (rows Xm) = 1 → 1 ≤ burn_iter + gibbs_iter →
  BPTF dense_tensor sparse_tensor init burn_iter gibbs_iter w
    ≠ (Ok tensor_hat, w').
Proof.
  intros HiX HX Hn Hlen HN H.
  apply BPTF_Ok in H
    as (sp & U & V & X' & ind & pos & dt & w0 & c & wN & Hsp & HU & HV & HX' &
        Hprep & Hloop & _).
  assert (X' = X) as -> by congruence.
  apply prepare_Ok in Hprep as (_ & _ & Hm0 & _).
  destruct (burn_iter + gibbs_iter) as [|n] eqn:HNn; [lia|].
  unfold sweeps in Hloop. simpl in Hloop.
  apply bind_Ok in Hloop as (c1 & w1 & Hsweep & _).
  unfold sweep in Hsweep.
  apply bind_Ok in Hsweep as (sp' & wa & Hsp' & Hsweep).
  unfold read_ten in Hsp'. injection Hsp' as _ <-.
  apply bind_Ok in Hsweep as (lU & w2 & HsU & Hsweep).
  apply bind_Ok in Hsweep as (lV & w3 & HsV & Hsweep).
  apply bind_Ok in Hsweep as (lX & w4 & HsX & _).
  pose proof (sample_factor_u_loc _ _ _ _ _ _ _ _ _ HsU) as ->.
  pose proof (sample_factor_v_loc _ _ _ _ _ _ _ _ _ HsV) as ->.
  apply preserves_sample_factor_u in HsU as [_ HsU].
  apply preserves_sample_factor_v in HsV as [_ HsV].
  specialize (HsU X). specialize (HsV X).
  rewrite HsU, Hm0, HX in HsV.
  destruct (mats w3 !! X) as [Xm3|] eqn:HX3; [|done].
  injection HsV as Hn3 Hc3 Hl3.
  destruct (sample_factor_x_one_row (tscale (tau (chain0 pos (dims sp))) sp')
              (tmap (λ b, fmul (tau (chain0 pos (dims sp))) (of_bool b)) ind)
              U V X 1 w3 Xm3 HX3) as (e & w5 & Hx); [congruence..|].
  unfold chain0 in *. congruence.
Qed.

End Driver.

(** * Two runs that differ in one 3-D object *)

Section Agree.
Context {T G : Type}.
Local Abbreviation M := (M T G).
Local Abbreviation respects := (respects (T:=T) (G:=G)).

Lemma respects_ret {A} d (a : A) : respects d (mret a).
Proof. by intros w1 w2 ?. Qed.

Lemma respects_lift {A} d (r : result A) : respects d (lift r).
Proof. by intros w1 w2 ?. Qed.

Lemma respects_bind {A B} d (m : M A) (k : A → M B) :
  respects d m → (∀ a, respects d (k a)) → respects d (m ≫= k).
Proof.
  intros Hm Hk w1 w2 Hw. rewrite !run_bind.
  destruct (Hm w1 w2 Hw) as [Hr Hw'].
  destruct (m w1) as [[a1|e1] w1'], (m w2) as [[a2|e2] w2']; simplify_eq/=;
    [by apply Hk|done].
Qed.

Lemma respects_read_mat d l : respects d (read_mat l).
Proof. intros w1 w2 (Hm & ? & ?). unfold read_mat. simpl. by rewrite Hm. Qed.

Lemma respects_read_ten d l : l ≠ d → respects d (read_ten l).
Proof.
  intros Hl w1 w2 (? & ? & Ht). unfold read_ten. simpl. by rewrite (Ht l Hl).
Qed.

Lemma respects_write_mat d l m : respects d (write_mat l m).
Proof.
  intros w1 w2 (Hm & ? & ?). split; [done|]. split; [|done]. simpl. by rewrite Hm.
Qed.

Lemma respects_write_ten d l t : respects d (write_ten l t).
Proof.
  intros w1 w2 (Hm & ? & Ht). split; [done|]. split; [done|]. split; [done|].
  intros l' Hl'. simpl. destruct (decide (l = l')) as [->|].
  - by rewrite !lookup_insert_eq.
  - rewrite !lookup_insert_ne by done. by apply Ht.
Qed.

Lemma respects_draw {A} d (f : G → A * G) : respects d (draw f).
Proof.
  intros w1 w2 (Hm & Hg & Ht). unfold draw. rewrite Hg.
  destruct (f (rng w2)). done.
Qed.

Lemma respects_draw_or_raise {A} d (f : G → result A * G) :
  respects d (draw_or_raise f).
Proof.
  intros w1 w2 (Hm & Hg & Ht). unfold draw_or_raise. rewrite Hg.
  destruct (f (rng w2)). done.
Qed.

Lemma respects_print d l : respects d (print l).
Proof. by intros w1 w2 (Hm & Hg & Ht). Qed.

Lemma respects_for_each {A} d (l : list A) (body : A → M ()) :
  (∀ x, respects d (body x)) → respects d (for_each l body).
Proof.
  intros Hb. induction l as [|x l IH]; simpl.
  - apply respects_ret.
  - apply respects_bind; [apply Hb|intros _; apply IH].
Qed.

End Agree.

Ltac respects_step :=
  lazymatch goal with
  | |- respects _ (mret _) => apply respects_ret
  | |- respects _ (lift _) => apply respects_lift
  | |- respects _ (read_mat _) => apply respects_read_mat
  | |- respects _ (write_mat _ _) => apply respects_write_mat
  | |- respects _ (draw _) => apply respects_draw
  | |- respects _ (draw_or_raise _) => apply respects_draw_or_raise
  | |- respects _ (print _) => apply respects_print
  | |- respects _ (_ ≫= _) => apply respects_bind; [|intros ?]
  | |- respects _ (for_each _ _) => apply respects_for_each; intros ?
  | |- respects _ (if decide _ then _ else _) => case_decide
  | |- respects _ (let '(_, _) := ?p in _) => destruct p
  | |- respects _ (match ?p with (_, _) => _ end) => destruct p
  end.

Section AgreeBPTF.
Context {T G : Type} `{!Scalar T} `{!Extern T G}.
Local Abbreviation M := (M T G).

Lemma respects_mvnrnd_pre d mu L : respects (T:=T) (G:=G) d (mvnrnd_pre mu L).
Proof. unfold mvnrnd_pre. repeat respects_step. Qed.

Lemma respects_entity_hyper d F b : respects (T:=T) (G:=G) d (entity_hyper F b).
Proof.
  unfold entity_hyper.
  repeat lazymatch goal with
         | |- respects _ (mvnrnd_pre _ _) => apply respects_mvnrnd_pre
         | _ => respects_step
         end.
Qed.

Lemma respects_assign_row d l i v : respects (T:=T) (G:=G) d (assign_row l i v).
Proof. unfold assign_row. repeat respects_step. Qed.

Lemma respects_read_row d l i : respects (T:=T) (G:=G) d (read_row l i).
Proof. unfold read_row. repeat respects_step. Qed.

Lemma respects_sample_precision_tau d sp that ind :
  respects (T:=T) (G:=G) d (sample_precision_tau sp that ind).
Proof. unfold sample_precision_tau. repeat respects_step. Qed.

End AgreeBPTF.

Ltac respects_bptf_step :=
  lazymatch goal with
  | |- respects _ (mvnrnd_pre _ _) => apply respects_mvnrnd_pre
  | |- respects _ (entity_hyper _ _) => apply respects_entity_hyper
  | |- respects _ (assign_row _ _ _) => apply respects_assign_row
  | |- respects _ (read_row _ _) => apply respects_read_row
  | |- respects _ (sample_precision_tau _ _ _) => apply respects_sample_precision_tau
  | _ => respects_step
  end.

Section AgreeSamplers.
Context {T G : Type} `{!Scalar T} `{!Extern T G}.

Lemma respects_resample_row d F var3 var4 i :
  respects (T:=T) (G:=G) d (resample_row F var3 var4 i).
Proof. unfold resample_row. repeat respects_bptf_step. Qed.

Lemma respects_resample_step d X dim3 var3 var4 mu L t :
  respects (T:=T) (G:=G) d (resample_step X dim3 var3 var4 mu L t).
Proof. unfold resample_step. repeat respects_bptf_step. Qed.

Lemma respects_sample_factor_u d tst tind U V X b :
  respects (T:=T) (G:=G) d (sample_factor_u tst tind U V X b).
Proof.
  unfold sample_factor_u.
  repeat lazymatch goal with
         | |- respects _ (resample_row _ _ _ _) => apply respects_resample_row
         | _ => respects_bptf_step
         end.
Qed.

Lemma respects_sample_factor_v d tst tind U V X b :
  respects (T:=T) (G:=G) d (sample_factor_v tst tind U V X b).
Proof.
  unfold sample_factor_v.
  repeat lazymatch goal with
         | |- respects _ (resample_row _ _ _ _) => apply respects_resample_row
         | _ => respects_bptf_step
         end.
Qed.

Lemma respects_sample_factor_x d tst tind U V X b :
  respects (T:=T) (G:=G) d (sample_factor_x tst tind U V X b).
Proof.
  unfold sample_factor_x.
  repeat lazymatch goal with
         | |- respects _ (resample_step _ _ _ _ _ _ _) =>
             apply respects_resample_step
         | _ => respects_bptf_step
         end.
Qed.

Lemma respects_resample_factors d ls U V X ind tau :
  ls ≠ d → respects (T:=T) (G:=G) d (resample_factors ls U V X ind tau).
Proof.
  intros Hls. unfold resample_factors.
  repeat lazymatch goal with
         | |- respects _ (read_ten _) => by apply respects_read_ten
         | |- respects _ (sample_factor_u _ _ _ _ _ _) =>
             apply respects_sample_factor_u
         | |- respects _ (sample_factor_v _ _ _ _ _ _) =>
             apply respects_sample_factor_v
         | |- respects _ (sample_factor_x _ _ _ _ _ _) =>
             apply respects_sample_factor_x
         | _ => respects_bptf_step
         end.
Qed.

End AgreeSamplers.

Section Core.
Context {T G : Type} `{!Scalar T} `{!Extern T G}.
Local Abbreviation M := (M T G).

Lemma length_bzip_same {A B C} (f : A → B → C) la lb :
  length la = length lb → length (bzip f la lb) = length la.
Proof.
  intros Hl. rewrite (bzip_same_length f f) by done.
  rewrite length_zip_with. lia.
Qed.

Lemma vzip_same_length {A B C} (f : A → B → C) la lb :
  length la = length lb →
  ∃ r, vzip f la lb = Ok r ∧ length r = length la.
Proof.
  intros Hl. unfold vzip. rewrite Hl, bdim_same. simpl.
  eexists. split; [done|]. rewrite length_bzip_same; done.
Qed.

Lemma vzip_inplace_same_length {A B} (f : A → B → A) la lb :
  length la = length lb →
  ∃ r, vzip_inplace f la lb = Ok r ∧ length r = length la.
Proof.
  intros Hl. unfold vzip_inplace.
  destruct (vzip_same_length f la lb Hl) as (r & -> & Hr). simpl.
  rewrite decide_True by done. by exists r.
Qed.

Lemma compute_mape_Ok (var var_hat : list T) :
  length var = length var_hat → ∃ x, compute_mape var var_hat = Ok x.
Proof.
  intros Hl. unfold compute_mape, vsub.
  destruct (vzip_same_length fsub var var_hat Hl) as (d & -> & Hd). simpl.
  destruct (vzip_same_length fdiv (fabs <$> d) var) as (q & -> & _).
  { by rewrite length_fmap. }
  simpl. by eexists.
Qed.

Lemma compute_rmse_Ok (var var_hat : list T) :
  length var = length var_hat → ∃ x, compute_rmse var var_hat = Ok x.
Proof.
  intros Hl. unfold compute_rmse, vsub.
  destruct (vzip_same_length fsub var var_hat Hl) as (d & -> & Hd). simpl.
  by eexists.
Qed.

Lemma gather_valid {A} (t : tensor A) (d : shape3) pos :
  wf_tensor t → dims t = d → valid_pos d pos →
  ∃ h, gather t pos = Ok h ∧ length h = length pos.
Proof.
  intros [Hl Hs] Hd Hpos. apply gather_Ok. intros [[i j] k] Hp.
  unfold valid_pos in Hpos. rewrite Forall_forall in Hpos.
  destruct (Hpos _ Hp) as (Hi & Hj & Hk). simpl in *. subst d.
  unfold tget. simpl.
  destruct (lookup_lt_is_Some_2 (slabs t) i) as [s Hsi]; [lia|].
  rewrite Hsi. simpl. rewrite Forall_forall in Hs.
  destruct (Hs s) as [Hls Hr]; [by eapply list_elem_of_lookup_2|].
  destruct (lookup_lt_is_Some_2 s j) as [r Hrj]; [lia|].
  rewrite Hrj. simpl. rewrite Forall_forall in Hr.
  apply lookup_lt_is_Some_2. rewrite (Hr r); [done|by eapply list_elem_of_lookup_2].
Qed.

Lemma wf_einsum (Um Vm Xm : matrix T) that :
  einsum Um Vm Xm = Ok that →
  wf_tensor (Ten (length (rows Um), length (rows Vm), length (rows Xm)) (slabs that)).
Proof.
  unfold einsum. destruct (bdim _ _) as [r|]; simpl; [|done].
  destruct (bdim r _); simpl; [|done]. intros [= <-]. split; simpl.
  - by rewrite length_fmap.
  - apply Forall_fmap, Forall_forall. intros u _. simpl. split.
    + by rewrite length_fmap.
    + apply Forall_fmap, Forall_forall. intros v _. simpl. by rewrite length_fmap.
Qed.

Lemma gather_slabs {A} (t t' : tensor A) pos :
  slabs t = slabs t' → gather t pos = gather t' pos.
Proof. intros Hs. unfold gather, tget. by rewrite Hs. Qed.

Lemma has_rows_same_shapes (w w' : world T G) l n :
  same_shapes w w' → has_rows w l n → has_rows w' l n.
Proof.
  intros [_ Hsh] (m & Hm & Hn & Hn'). specialize (Hsh l). rewrite Hm in Hsh.
  destruct (mats w' !! l) as [m'|] eqn:Hm'; simpl in Hsh; [|done].
  injection Hsh as ? ? ?.
  exists m'. split; [done|]. split; congruence.
Qed.

Lemma preserves_resample_factors ls U V X ind tau :
  preserves (same_shapes (T:=T) (G:=G)) (resample_factors ls U V X ind tau).
Proof.
  unfold resample_factors.
  repeat lazymatch goal with
         | |- preserves _ (sample_factor_u _ _ _ _ _ _) =>
             apply preserves_sample_factor_u
         | |- preserves _ (sample_factor_v _ _ _ _ _ _) =>
             apply preserves_sample_factor_v
         | |- preserves _ (sample_factor_x _ _ _ _ _ _) =>
             apply preserves_sample_factor_x
         | _ => preserves_shapes_step
         end.
Qed.

End Core.

Section Lockstep.
Context {T G : Type} `{!Scalar T} `{!Extern T G}.
Local Abbreviation M := (M T G).

Lemma run_bind_ext {A B} (m : M A) (k1 k2 : A → M B) w :
  (∀ a w', m w = (Ok a, w') → k1 a w' = k2 a w') →
  (m ≫= k1) w = (m ≫= k2) w.
Proof.
  intros Hk. rewrite !run_bind. destruct (m w) as [[a|e] w'] eqn:Hm; [|done].
  by apply Hk.
Qed.

(** a sweep, with its three factor updates and its reconstruction named *)
Lemma sweep_unfold ls U V X ind pos dt burn c it (w : world T G) :
  sweep ls U V X ind pos dt burn c it w =
  (resample_factors ls U V X ind (tau c);;
   tensor_hat ← reconstruct U V X;
   h ← lift (gather tensor_hat pos);
   temp ← lift (vzip_inplace fadd (temp_hat c) h);
   sp ← read_ten ls;
   tau' ← sample_precision_tau sp tensor_hat ind;
   thp ←
     (if decide (burn < it + 1)
      then lift (tzip_inplace fadd (tensor_hat_plus c) tensor_hat)
      else mret (tensor_hat_plus c));
   temp ←
     (if decide ((it + 1) `mod` show_iter = 0 ∧ it < burn)
      then
        let temp_hat := vdiv temp (of_nat show_iter) in
        print (Iter (it + 1));;
        mape ← lift (compute_mape dt temp_hat);
        print (MAPE mape);;
        rmse ← lift (compute_rmse dt temp_hat);
        print (RMSE rmse);;
        let temp_hat := vzeros (length pos) in
        print Blank;;
        mret temp_hat
      else mret temp);
   mret (Chain tau' temp thp)) w.
Proof.
  unfold sweep, resample_factors, reconstruct.
  rewrite !run_bind_assoc.
  apply run_bind_ext. intros sp w1 _.
  rewrite !run_bind_assoc.
  apply run_bind_ext. intros lU w2 ->%sample_factor_u_loc.
  rewrite !run_bind_assoc.
  apply run_bind_ext. intros lV w3 ->%sample_factor_v_loc.
  rewrite !run_bind_assoc.
  apply run_bind_ext. intros lX w4 ->%sample_factor_x_loc.
  rewrite run_bind_ret. rewrite !run_bind_assoc.
  apply run_bind_ext. intros Um w5 _. rewrite !run_bind_assoc.
  apply run_bind_ext. intros Vm w6 _. rewrite !run_bind_assoc.
  done.
Qed.

Lemma reconstruct_wf U V X (w w' : world T G) d that :
  has_rows w U d.1.1 → has_rows w V d.1.2 → has_rows w X d.2 →
  reconstruct U V X w = (Ok that, w') →
  wf_tensor that ∧ dims that = d.
Proof.
  intros (Um & HU & HUr & HUn) (Vm & HV & HVr & HVn) (Xm & HX & HXr & HXn) H.
  unfold reconstruct in H.
  rewrite (run_bind_ok _ _ _ _ _ (run_read_mat _ _ _ HU)) in H.
  rewrite (run_bind_ok _ _ _ _ _ (run_read_mat _ _ _ HV)) in H.
  rewrite (run_bind_ok _ _ _ _ _ (run_read_mat _ _ _ HX)) in H.
  apply lift_Ok in H as [H _]. pose proof (wf_einsum _ _ _ _ H) as Hwf.
  assert (dims that = d) as Hd.
  { unfold einsum in H. destruct (bdim _ _) as [r|]; simpl in H; [|done].
    destruct (bdim r _); simpl in H; [|done]. injection H as <-.
    destruct d as [[d1 d2] d3]. simpl in *. by subst. }
  split; [|done]. destruct that as [dt st]. simpl in *. subst dt.
  destruct d as [[d1 d2] d3]. simpl in *. by rewrite HUn, HVn, HXn in Hwf.
Qed.

(** one run of a sweep against its core *)
Lemma sweep_run ls U V X ind pos dt burn c it (w : world T G) d :
  has_rows w U d.1.1 → has_rows w V d.1.2 → has_rows w X d.2 →
  valid_pos d pos → length dt = length pos →
  length (temp_hat c) = length pos →
  match sweep_core ls U V X ind burn (tau c) (tensor_hat_plus c) it w with
  | (Ok (tau', thp', that), w') =>
      ∃ temp' w'',
        sweep ls U V X ind pos dt burn c it w = (Ok (Chain tau' temp' thp'), w'') ∧
        length temp' = length pos ∧ same_but_stdout w' w''
  | (Raise e, w') => sweep ls U V X ind pos dt burn c it w = (Raise e, w')
  end.
Proof.
  intros HU HV HX Hpos Hdt Htemp.
  rewrite sweep_unfold. unfold sweep_core.
  rewrite !(run_bind (resample_factors _ _ _ _ _ _)).
  destruct (resample_factors ls U V X ind (tau c) w) as [[[]|e] w1] eqn:Hrf; [|done].
  apply preserves_resample_factors in Hrf.
  rewrite !(run_bind (reconstruct _ _ _)).
  destruct (reconstruct U V X w1) as [[that|e] w2] eqn:Hrec; [|done].
  pose proof (reconstruct_world _ _ _ _ _ _ Hrec) as ->.
  pose proof (reconstruct_wf U V X w1 w1 d that
                (has_rows_same_shapes _ _ _ _ Hrf HU)
                (has_rows_same_shapes _ _ _ _ Hrf HV)
                (has_rows_same_shapes _ _ _ _ Hrf HX) Hrec) as [Hwf Hdims].
  destruct (gather_valid that d pos Hwf Hdims Hpos) as (h & Hh & Hhlen).
  rewrite (run_bind_lift_ok _ _ _ _ Hh).
  destruct (vzip_inplace_same_length fadd (temp_hat c) h) as (temp & Htmp & Htlen);
    [congruence|].
  rewrite (run_bind_lift_ok _ _ _ _ Htmp).
  rewrite !(run_bind (read_ten _)).
  destruct (read_ten ls w1) as [[sp|e] w2] eqn:Hsp; [|done].
  rewrite !(run_bind (sample_precision_tau _ _ _)).
  destruct (sample_precision_tau sp that ind w2) as [[tau'|e] w3] eqn:Htau; [|done].
  rewrite !(run_bind (if decide (burn < it + 1) then _ else _)).
  destruct ((if decide (burn < it + 1)
             then lift (tzip_inplace fadd (tensor_hat_plus c) that)
             else mret (tensor_hat_plus c)) w3) as [[thp|e] w4] eqn:Hthp; [|done].
  rewrite run_ret.
  destruct (decide ((it + 1) `mod` show_iter = 0 ∧ it < burn)).
  - destruct (compute_mape_Ok dt (vdiv temp (of_nat show_iter))) as (mape & Hmape).
    { unfold vdiv. rewrite length_fmap. congruence. }
    destruct (compute_rmse_Ok dt (vdiv temp (of_nat show_iter))) as (rmse & Hrmse).
    { unfold vdiv. rewrite length_fmap. congruence. }
    cbv zeta. rewrite !run_bind_assoc.
    rewrite (run_bind (print _)). simpl.
    rewrite !run_bind_assoc, (run_bind_lift_ok _ _ _ _ Hmape).
    rewrite !run_bind_assoc. rewrite (run_bind (print _)). simpl.
    rewrite !run_bind_assoc, (run_bind_lift_ok _ _ _ _ Hrmse).
    rewrite !run_bind_assoc. rewrite (run_bind (print _)). simpl.
    rewrite !run_bind_assoc. rewrite (run_bind (print _)). simpl.
    rewrite run_bind_ret, run_ret.
    eexists _, _. split; [done|]. split.
    + unfold vzeros. by rewrite length_replicate.
    + done.
  - rewrite run_bind_ret, run_ret.
    eexists _, _. split; [done|]. split; [congruence|done].
Qed.

End Lockstep.

Section Lockstep2.
Context {T G : Type} `{!Scalar T} `{!Extern T G}.
Local Abbreviation M := (M T G).

Lemma respects_reconstruct d U V X : respects (T:=T) (G:=G) d (reconstruct U V X).
Proof. unfold reconstruct. repeat respects_step. Qed.

Lemma respects_sweep_core d ls U V X ind burn tau thp it :
  ls ≠ d → respects (T:=T) (G:=G) d (sweep_core ls U V X ind burn tau thp it).
Proof.
  intros Hls. unfold sweep_core.
  repeat lazymatch goal with
         | |- respects _ (read_ten _) => by apply respects_read_ten
         | |- respects _ (resample_factors _ _ _ _ _ _) =>
             by apply respects_resample_factors
         | |- respects _ (reconstruct _ _ _) => apply respects_reconstruct
         | _ => respects_bptf_step
         end.
Qed.

Lemma wf_tzeros (s : shape3) : wf_tensor (tzeros (T:=T) s).
Proof.
  split; simpl; [by rewrite length_replicate|].
  apply Forall_replicate. split; [by rewrite length_replicate|].
  apply Forall_replicate. by rewrite length_replicate.
Qed.

Lemma wf_tzip_inplace (a b r : tensor T) :
  wf_tensor a → wf_tensor b → dims b = dims a →
  tzip_inplace fadd a b = Ok r → wf_tensor r ∧ dims r = dims a.
Proof.
  intros Wa Wb Hd. unfold tzip_inplace.
  rewrite (tzip_same_shape fadd a b Wa Wb (eq_sym Hd)). simpl.
  rewrite decide_True by done. intros [= <-]. split; [|done].
  destruct Wa as [Ha1 Ha2], Wb as [Hb1 Hb2]. rewrite Hd in *.
  split; simpl.
  - rewrite length_zip_with. lia.
  - apply Forall_forall. intros s Hs.
    apply list_elem_of_lookup in Hs as [i Hs].
    apply lookup_zip_with_Some in Hs as (sa & sb & -> & Hsa & Hsb).
    rewrite Forall_lookup in Ha2. rewrite Forall_lookup in Hb2.
    destruct (Ha2 _ _ Hsa) as [Hla Hra]. destruct (Hb2 _ _ Hsb) as [Hlb Hrb].
    split; [rewrite length_zip_with; lia|].
    apply Forall_forall. intros r Hr.
    apply list_elem_of_lookup in Hr as [j Hr].
    apply lookup_zip_with_Some in Hr as (ra & rb & -> & Hra' & Hrb').
    rewrite Forall_lookup in Hra. rewrite Forall_lookup in Hrb.
    rewrite length_zip_with, (Hra _ _ Hra'), (Hrb _ _ Hrb'). lia.
Qed.

(** the accumulator keeps the shape of the sparse tensor *)
Lemma sweep_core_accumulator ls U V X ind burn tau thp it (w w' : world T G) d
    tau' thp' that :
  has_rows w U d.1.1 → has_rows w V d.1.2 → has_rows w X d.2 →
  wf_tensor thp → dims thp = d →
  sweep_core ls U V X ind burn tau thp it w = (Ok (tau', thp', that), w') →
  wf_tensor thp' ∧ dims thp' = d ∧ same_shapes w w'.
Proof.
  intros HU HV HX Wthp Hd H. unfold sweep_core in H.
  apply bind_Ok in H as ([] & w1 & Hrf & H).
  apply preserves_resample_factors in Hrf.
  apply bind_Ok in H as (that' & w2 & Hrec & H).
  pose proof (reconstruct_world _ _ _ _ _ _ Hrec) as ->.
  pose proof (reconstruct_wf U V X w1 w1 d that'
                (has_rows_same_shapes _ _ _ _ Hrf HU)
                (has_rows_same_shapes _ _ _ _ Hrf HV)
                (has_rows_same_shapes _ _ _ _ Hrf HX) Hrec) as [Hwf Hdims].
  apply bind_Ok in H as (sp & w2 & Hsp & H).
  unfold read_ten in Hsp. injection Hsp as _ <-.
  apply bind_Ok in H as (tau'' & w3 & Htau & H).
  apply (preserves_sample_precision_tau same_shapes) in Htau.
  apply bind_Ok in H as (thp'' & w4 & Hthp & H).
  apply ret_Ok in H as [[= -> -> ->] ->].
  destruct (decide (burn < it + 1)).
  - apply lift_Ok in Hthp as [Hthp ->].
    destruct (wf_tzip_inplace thp that' thp'') as [? ?]; try done; [congruence|].
    split; [done|]. split; [congruence|]. by etrans.
  - apply ret_Ok in Hthp as [-> ->]. split; [done|]. split; [done|]. by etrans.
Qed.

Lemma agree_same_but_stdout d (w1 w2 w1' w2' : world T G) :
  agree d w1 w2 → same_but_stdout w1 w1' → same_but_stdout w2 w2' →
  agree d w1' w2'.
Proof.
  intros (Hm & Hg & Ht) (Hm1 & Ht1 & Hg1) (Hm2 & Ht2 & Hg2).
  split; [congruence|]. split; [congruence|]. intros l Hl.
  rewrite Ht1, Ht2. by apply Ht.
Qed.

Lemma has_rows_agree d (w1 w2 : world T G) l n :
  agree d w1 w2 → has_rows w1 l n → has_rows w2 l n.
Proof. intros (Hm & _) (m & Hl & ?). exists m. by rewrite <- Hm. Qed.

Lemma has_rows_same_but_stdout (w w' : world T G) l n :
  same_but_stdout w w' → has_rows w l n → has_rows w' l n.
Proof. intros (Hm & _) (m & Hl & ?). exists m. by rewrite Hm. Qed.

Lemma sweeps_lockstep ld ls U V X ind pos1 pos2 dt1 dt2 burn d its :
  ls ≠ ld → valid_pos d pos1 → valid_pos d pos2 →
  length dt1 = length pos1 → length dt2 = length pos2 →
  ∀ c1 c2 (w1 w2 : world T G),
    agree ld w1 w2 → chains_agree pos1 pos2 c1 c2 →
    has_rows w1 U d.1.1 → has_rows w1 V d.1.2 → has_rows w1 X d.2 →
    wf_tensor (tensor_hat_plus c1) → dims (tensor_hat_plus c1) = d →
    outcomes_agree ld
      (λ c1' c2', chains_agree pos1 pos2 c1' c2' ∧
                  wf_tensor (tensor_hat_plus c1') ∧ dims (tensor_hat_plus c1') = d)
      (for_fold its c1 (sweep ls U V X ind pos1 dt1 burn) w1)
      (for_fold its c2 (sweep ls U V X ind pos2 dt2 burn) w2).
Proof.
  intros Hls Hp1 Hp2 Hd1 Hd2.
  induction its as [|it its IH]; intros c1 c2 w1 w2 Hw Hc HU HV HX Wthp Hdims.
  - simpl. split; [done|]. done.
  - simpl. rewrite !run_bind.
    destruct Hc as (Htau & Hthp & Ht1 & Ht2).
    pose proof (sweep_run ls U V X ind pos1 dt1 burn c1 it w1 d HU HV HX Hp1 Hd1 Ht1)
      as Hrun1.
    pose proof (sweep_run ls U V X ind pos2 dt2 burn c2 it w2 d
                  (has_rows_agree _ _ _ _ _ Hw HU) (has_rows_agree _ _ _ _ _ Hw HV)
                  (has_rows_agree _ _ _ _ _ Hw HX) Hp2 Hd2 Ht2) as Hrun2.
    rewrite <- Htau, <- Hthp in Hrun2.
    destruct (respects_sweep_core ld ls U V X ind burn (tau c1)
                (tensor_hat_plus c1) it Hls w1 w2 Hw) as [Hres Hagree].
    pose proof (sweep_core_accumulator ls U V X ind burn (tau c1)
                  (tensor_hat_plus c1) it w1) as Hacc.
    destruct (sweep_core ls U V X ind burn (tau c1) (tensor_hat_plus c1) it w1)
      as [[[[tau' thp'] that]|e] w1'];
    destruct (sweep_core ls U V X ind burn (tau c1) (tensor_hat_plus c1) it w2)
      as [[[[tau2' thp2'] that2]|e2] w2']; simpl in Hres; try done.
    + injection Hres as <- <- <-. destruct Hrun1 as (temp1 & w1'' & -> & Hl1 & Hs1).
      destruct Hrun2 as (temp2 & w2'' & -> & Hl2 & Hs2).
      destruct (Hacc _ d _ _ _ HU HV HX Wthp Hdims eq_refl) as (Wthp' & Hd' & Hsh).
      apply IH; try done.
      * by eapply agree_same_but_stdout.
      * eapply has_rows_same_but_stdout; [done|]. by eapply has_rows_same_shapes.
      * eapply has_rows_same_but_stdout; [done|]. by eapply has_rows_same_shapes.
      * eapply has_rows_same_but_stdout; [done|]. by eapply has_rows_same_shapes.
    + injection Hres as <-. rewrite Hrun1, Hrun2. split; done.
Qed.

End Lockstep2.

Section Noninterference.
Context {T G : Type} `{!Scalar T} `{!Extern T G}.
Local Abbreviation M := (M T G).

Lemma gather_length {A} (t : tensor A) pos h :
  gather t pos = Ok h → length h = length pos.
Proof.
  unfold gather. revert h. induction pos as [|p pos IH]; intros h; simpl.
  - by intros [= <-].
  - destruct (or_raise IndexError (tget t p)) as [x|]; simpl; [|done].
    destruct (mapM _ pos) as [l|] eqn:Hl; simpl; [|done].
    intros [= <-]. simpl. by rewrite (IH l).
Qed.

Lemma tget_Some_valid {A} (t : tensor A) p :
  wf_tensor t → is_Some (tget t p) →
  p.1.1 < (dims t).1.1 ∧ p.1.2 < (dims t).1.2 ∧ p.2 < (dims t).2.
Proof.
  intros [Hl Hs] [x Hx]. unfold tget in Hx.
  destruct (slabs t !! p.1.1) as [s|] eqn:Hsi; simpl in Hx; [|done].
  destruct (s !! p.1.2) as [r|] eqn:Hrj; simpl in Hx; [|done].
  rewrite Forall_lookup in Hs. destruct (Hs _ _ Hsi) as [Hls Hr].
  rewrite Forall_lookup in Hr. pose proof (Hr _ _ Hrj) as Hlr.
  apply lookup_lt_Some in Hsi, Hrj, Hx. lia.
Qed.

Lemma prepare_dense_test dense_tensor sparse_tensor (w w0 : world T G) ind pos dt :
  prepare dense_tensor sparse_tensor w = (Ok (ind, pos, dt), w0) →
  length dt = length pos.
Proof.
  unfold prepare. intros H.
  apply bind_Ok in H as (sp & ? & Hsp & H).
  apply bind_Ok in H as ([ind' pos'] & w1 & Hbr & H).
  apply bind_Ok in H as (dn & ? & Hdn & H).
  apply bind_Ok in H as (dt' & ? & Hdt & H). apply lift_Ok in Hdt as [Hdt ->].
  apply ret_Ok in H as [[= -> -> ->] ->]. by eapply gather_length.
Qed.

(** what BPTF does after the loop *)
Lemma BPTF_epilogue pos dt (thp : tensor T) gibbs (w : world T G) :
  wf_tensor thp → valid_pos (dims thp) pos → length dt = length pos →
  ∃ w', same_but_stdout w w' ∧
    (h ← lift (gather (tdiv thp (of_nat gibbs)) pos);
     mape ← lift (compute_mape dt h);
     print (Imputation_MAPE mape);;
     h ← lift (gather (tdiv thp (of_nat gibbs)) pos);
     rmse ← lift (compute_rmse dt h);
     print (Imputation_RMSE rmse);;
     print Blank;;
     mret (tdiv thp (of_nat gibbs))) w = (Ok (tdiv thp (of_nat gibbs)), w').
Proof.
  intros Wthp Hpos Hdt.
  destruct (gather_valid (tdiv thp (of_nat gibbs)) (dims thp) pos)
    as (h & Hh & Hhl); [by apply wf_tmap|done|done|].
  destruct (compute_mape_Ok dt h) as (mape & Hmape); [congruence|].
  destruct (compute_rmse_Ok dt h) as (rmse & Hrmse); [congruence|].
  rewrite (run_bind_lift_ok _ _ _ _ Hh), (run_bind_lift_ok _ _ _ _ Hmape).
  rewrite (run_bind (print _)). simpl.
  rewrite (run_bind_lift_ok _ _ _ _ Hh), (run_bind_lift_ok _ _ _ _ Hrmse).
  rewrite (run_bind (print _)). simpl.
  rewrite (run_bind (print _)). simpl. rewrite run_ret.
  eexists. split; [|done]. done.
Qed.

Lemma prepare_valid dense_tensor sparse_tensor (w : world T G) dn sp :
  tens w !! dense_tensor = Some dn → tens w !! sparse_tensor = Some sp →
  wf_tensor dn → wf_tensor sp → dims dn = dims sp →
  ∃ ind pos dt w0,
    prepare dense_tensor sparse_tensor w = (Ok (ind, pos, dt), w0) ∧
    valid_pos (dims sp) pos.
Proof.
  intros Hdn Hsp Wdn Wsp Hd.
  destruct (prepare_spec w dense_tensor sparse_tensor dn sp Hdn Hsp Wdn Wsp Hd)
    as (ind & pos & dt & w0 & Hprep & Hnan & Hnonan).
  exists ind, pos, dt, w0. split; [done|].
  apply Forall_forall. intros p Hp. rewrite <- Hd.
  apply tget_Some_valid; [done|].
  destruct (any_nan sp).
  - destruct Hnan as (_ & Hpos & _); [done|].
    apply Hpos in Hp as (x & y & Hx & _). by rewrite Hx.
  - destruct Hnonan as (_ & Hpos & _); [done|].
    apply Hpos in Hp as (x & y & Hx & _). by rewrite Hx.
Qed.

(** two runs on reference tensors of the shape of the sparse tensor *)
Lemma BPTF_lockstep dense_tensor sparse_tensor init burn_iter gibbs_iter
    (w1 w2 : world T G) dn1 dn2 sp U V X :
  agree dense_tensor w1 w2 → sparse_tensor ≠ dense_tensor →
  tens w1 !! dense_tensor = Some dn1 → tens w2 !! dense_tensor = Some dn2 →
  tens w1 !! sparse_tensor = Some sp →
  wf_tensor dn1 → wf_tensor dn2 → wf_tensor sp →
  dims dn1 = dims sp → dims dn2 = dims sp →
  init !! "U" = Some U → init !! "V" = Some V → init !! "X" = Some X →
  has_rows w1 U (dims sp).1.1 → has_rows w1 V (dims sp).1.2 →
  has_rows w1 X (dims sp).2 →
  outcomes_agree dense_tensor eq
    (BPTF dense_tensor sparse_tensor init burn_iter gibbs_iter w1)
    (BPTF dense_tensor sparse_tensor init burn_iter gibbs_iter w2).
Proof.
  intros Hw Hls Hdn1 Hdn2 Hsp1 Wdn1 Wdn2 Wsp Hd1 Hd2 HiU HiV HiX HU HV HX.
  assert (tens w2 !! sparse_tensor = Some sp) as Hsp2.
  { destruct Hw as (_ & _ & Ht). by rewrite <- (Ht _ Hls). }
  destruct (prepare_valid _ _ w1 dn1 sp Hdn1 Hsp1 Wdn1 Wsp Hd1)
    as (ind1 & pos1 & dt1 & w01 & Hprep1 & Hpos1).
  destruct (prepare_valid _ _ w2 dn2 sp Hdn2 Hsp2 Wdn2 Wsp Hd2)
    as (ind2 & pos2 & dt2 & w02 & Hprep2 & Hpos2).
  pose proof (prepare_dense_test _ _ _ _ _ _ _ Hprep1) as Hdt1.
  pose proof (prepare_dense_test _ _ _ _ _ _ _ Hprep2) as Hdt2.
  destruct (prepare_Ok _ _ _ _ _ _ _ Hprep1) as (sp1 & Hsp1' & Hm1 & Hg1 & _ & Ht1 & Hind1).
  destruct (prepare_Ok _ _ _ _ _ _ _ Hprep2) as (sp2 & Hsp2' & Hm2 & Hg2 & _ & Ht2 & Hind2).
  assert (sp1 = sp) as -> by congruence. assert (sp2 = sp) as -> by congruence.
  assert (ind2 = ind1) as -> by congruence.
  assert (agree dense_tensor w01 w02) as Hw0.
  { destruct Hw as (Hm & Hg & Ht). split; [congruence|]. split; [congruence|].
    intros l Hl. rewrite Ht1, Ht2. destruct (any_nan sp); [|by apply Ht].
    destruct (decide (sparse_tensor = l)) as [->|].
    - by rewrite !lookup_insert_eq.
    - rewrite !lookup_insert_ne by done. by apply Ht. }
  assert (∀ l n, has_rows w1 l n → has_rows w01 l n) as Hrows.
  { intros l n (m & Hl & ?). exists m. by rewrite Hm1. }
  pose proof (sweeps_lockstep dense_tensor sparse_tensor U V X ind1 pos1 pos2 dt1 dt2
                burn_iter (dims sp) (seq 0 (burn_iter + gibbs_iter))
                Hls Hpos1 Hpos2 Hdt1 Hdt2
                (chain0 pos1 (dims sp)) (chain0 pos2 (dims sp)) w01 w02 Hw0) as Hloop.
  destruct Hloop as [HwN Hres]; try (by apply Hrows).
  { unfold chains_agree, chain0. simpl. unfold vzeros. by rewrite !length_replicate. }
  { apply wf_tzeros. }
  { done. }
  unfold BPTF.
  rewrite (run_bind_ok _ _ _ _ _ (run_read_ten _ _ _ Hsp1)).
  rewrite (run_bind_ok _ _ _ _ _ (run_read_ten _ _ _ Hsp2)).
  rewrite HiU, HiV, HiX.
  rewrite !(run_bind_lift_ok (or_raise KeyError (Some _)) _ _ _ eq_refl).
  rewrite (run_bind_ok _ _ _ _ _ Hprep1), (run_bind_ok _ _ _ _ _ Hprep2).
  cbv beta iota zeta.
  fold (chain0 pos1 (dims sp)). fold (chain0 pos2 (dims sp)).
  rewrite !(run_bind (for_fold _ _ _)).
  destruct (for_fold (seq 0 (burn_iter + gibbs_iter)) (chain0 pos1 (dims sp)) _ w01)
    as [[c1|e1] wN1];
  destruct (for_fold (seq 0 (burn_iter + gibbs_iter)) (chain0 pos2 (dims sp)) _ w02)
    as [[c2|e2] wN2]; simpl in Hres, HwN; try done.
  destruct Hres as ((Htau & Hthp & _ & _) & Wthp & Hdthp).
  destruct (BPTF_epilogue pos1 dt1 (tensor_hat_plus c1) gibbs_iter wN1)
    as (w1' & Hs1 & ->); [done|by rewrite Hdthp|done|].
  destruct (BPTF_epilogue pos2 dt2 (tensor_hat_plus c2) gibbs_iter wN2)
    as (w2' & Hs2 & ->); [by rewrite <- Hthp|by rewrite <- Hthp, Hdthp|done|].
  split; simpl.
  - by eapply agree_same_but_stdout.
  - by rewrite Hthp.
Qed.

End Noninterference.

Section Tabulate.
Context {T : Type} `{!Scalar T}.

Lemma columns_wf n (rs : list (list T)) :
  Forall (λ r, length r = n) rs →
  columns n rs = (λ a, (λ r, vget r a) <$> rs) <$> seq 0 n.
Proof.
  revert rs. induction n as [|n IH]; intros rs Hrs; [done|].
  simpl. f_equal.
  - induction Hrs as [|r rs Hr _ IHrs]; [done|].
    rewrite !fmap_cons. simpl. rewrite IHrs.
    destruct r as [|x r]; [simpl in Hr; lia|reflexivity].
  - rewrite IH.
    + rewrite <- fmap_S_seq, <- list_fmap_compose. apply list_fmap_ext.
      intros _ a _. simpl. rewrite <- list_fmap_compose. apply list_fmap_ext.
      intros _ r _. simpl. unfold vget. destruct r; [by destruct a|done].
    + apply Forall_fmap. eapply Forall_impl; [done|]. simpl.
      intros r Hr. rewrite length_drop. lia.
Qed.

Lemma fmap_seq_vget (v : list T) : v = vget v <$> seq 0 (length v).
Proof.
  apply list_eq. intros i. rewrite list_lookup_fmap.
  destruct (decide (i < length v)) as [Hi|Hi].
  - rewrite lookup_seq_lt by done. simpl. unfold vget.
    destruct (lookup_lt_is_Some_2 v i Hi) as [x Hx].
    by rewrite Hx, (nth_lookup_Some _ _ _ _ Hx).
  - rewrite lookup_seq_ge by lia. rewrite lookup_ge_None_2 by lia. done.
Qed.

Lemma tabulate_ext m n (f g : nat → nat → T) :
  (∀ i j, i < m → j < n → f i j = g i j) → tabulate m n f = tabulate m n g.
Proof.
  intros Hfg. unfold tabulate. f_equal. apply list_fmap_ext.
  intros _ i Hi%list_elem_of_lookup_2%elem_of_seq. apply list_fmap_ext.
  intros _ j Hj%list_elem_of_lookup_2%elem_of_seq. apply Hfg; lia.
Qed.

Lemma mget_tabulate m n (f : nat → nat → T) i j :
  i < m → j < n → mget (tabulate m n f) i j = f i j.
Proof.
  intros Hi Hj. unfold mget, vget, tabulate. simpl.
  rewrite (nth_lookup_Some _ _ _ (f i <$> seq 0 n)).
  - rewrite (nth_lookup_Some _ _ _ (f i j)); [done|].
    rewrite list_lookup_fmap, lookup_seq_lt by done. done.
  - rewrite list_lookup_fmap, lookup_seq_lt by done. done.
Qed.

Lemma zip_with_fmap_diag {A B C D} (f : B → C → D) (g : A → B) (h : A → C)
    (l : list A) :
  zip_with f (g <$> l) (h <$> l) = (λ x, f (g x) (h x)) <$> l.
Proof. induction l as [|x l IH]; [done|]. rewrite !fmap_cons. simpl. by rewrite IH. Qed.

Lemma mzip_tabulate (f : T → T → T) m n (g h : nat → nat → T) :
  mzip f (tabulate m n g) (tabulate m n h)
  = Ok (tabulate m n (λ i j, f (g i j) (h i j))).
Proof.
  unfold mzip, tabulate. simpl. rewrite !bdim_same. simpl. do 2 f_equal.
  rewrite (bzip_same_length (bzip f) (zip_with f)).
  - rewrite zip_with_fmap_diag. apply list_fmap_ext. intros _ i _. simpl.
    apply zip_with_fmap_diag.
  - by rewrite !length_fmap.
  - intros i a b Ha Hb. apply bzip_same_length; [|done].
    apply list_lookup_fmap_Some in Ha as (? & -> & _).
    apply list_lookup_fmap_Some in Hb as (? & -> & _).
    by rewrite !length_fmap.
Qed.

Lemma outer_tabulate (v v' : list T) :
  outer v v' = tabulate (length v) (length v')
                 (λ a b, fmul (vget v a) (vget v' b)).
Proof.
  unfold outer, tabulate. f_equal.
  rewrite (fmap_seq_vget v) at 1. rewrite <- list_fmap_compose.
  apply list_fmap_ext. intros _ a _. simpl.
  rewrite (fmap_seq_vget v') at 1. by rewrite <- list_fmap_compose.
Qed.

Lemma mscale_tabulate c m n (g : nat → nat → T) :
  mscale c (tabulate m n g) = tabulate m n (λ i j, fmul c (g i j)).
Proof.
  unfold mscale, mmap, tabulate. simpl. f_equal.
  rewrite <- list_fmap_compose. apply list_fmap_ext. intros _ i _. simpl.
  by rewrite <- list_fmap_compose.
Qed.

Lemma eye_tabulate n :
  eye n = tabulate n n (λ a b, if decide (a = b) then fone else fzero).
Proof. done. Qed.

Lemma length_mean0 (F : matrix T) : length (mean0 F) = ncols F.
Proof. unfold mean0. by rewrite length_fmap, length_columns. Qed.

Lemma vget_zip_with (f : T → T → T) (r v : list T) a :
  a < length r → length r = length v →
  vget (zip_with f r v) a = f (vget r a) (vget v a).
Proof.
  intros Ha Hl. unfold vget.
  destruct (lookup_lt_is_Some_2 r a Ha) as [x Hx].
  destruct (lookup_lt_is_Some_2 v a) as [y Hy]; [lia|].
  rewrite (nth_lookup_Some _ _ _ _ Hx), (nth_lookup_Some _ _ _ _ Hy).
  apply nth_lookup_Some. rewrite lookup_zip_with, Hx, Hy. done.
Qed.

(** cov_mat computes the scatter matrix *)
Lemma cov_mat_scatter (F : matrix T) (F_bar : list T) :
  wf_matrix F → length F_bar = ncols F →
  cov_mat F F_bar = Ok (scatter F F_bar).
Proof.
  intros [Hlen Hrows] Hbar. unfold cov_mat, mzip_row.
  rewrite Hbar, bdim_same. simpl. unfold np_matmul, transpose. simpl.
  rewrite decide_True by done. f_equal. unfold scatter, tabulate. f_equal.
  set (mrows := (λ r, bzip fsub r F_bar) <$> rows F).
  assert (Forall (λ r, length r = ncols F) mrows) as Hm.
  { subst mrows. apply Forall_fmap. eapply Forall_impl; [done|]. simpl.
    intros r Hr. rewrite length_bzip_same; congruence. }
  assert (∀ a, a < ncols F →
            (λ r, vget r a) <$> mrows = centred_column F F_bar a) as Hcol.
  { intros a Ha. subst mrows. unfold centred_column.
    rewrite <- list_fmap_compose. apply list_fmap_ext.
    intros _ r Hr%list_elem_of_lookup_2. simpl.
    rewrite Forall_forall in Hrows. specialize (Hrows r Hr).
    rewrite (bzip_same_length fsub fsub) by (done || congruence).
    rewrite !vget_zip_with by lia. done. }
  rewrite (columns_wf _ _ Hm). rewrite <- list_fmap_compose.
  apply list_fmap_ext. intros _ a Ha%list_elem_of_lookup_2%elem_of_seq. simpl.
  rewrite <- list_fmap_compose.
  apply list_fmap_ext. intros _ b Hb%list_elem_of_lookup_2%elem_of_seq. simpl.
  rewrite !Hcol by lia. done.
Qed.

(** np.mean(F, axis = 0) is the mean of the rows *)
Lemma mean0_row_mean (F : matrix T) : wf_matrix F → mean0 F = row_mean F.
Proof.
  intros [_ Hrows]. unfold mean0, row_mean.
  rewrite (columns_wf _ _ Hrows), <- list_fmap_compose. done.
Qed.

Lemma length_row_mean (F : matrix T) : length (row_mean F) = ncols F.
Proof. unfold row_mean. by rewrite length_fmap, length_seq. Qed.

End Tabulate.

Section Hyperparameters.
Context {T G : Type} `{!Scalar T} `{!Extern T G}.

(** the hyperparameter lines of sample_factor_u and sample_factor_v
    are the Normal-Wishart update *)
Lemma entity_hyper_spec (F : matrix T) (beta0 : nat) (w : world T G) :
  wf_matrix F →
  entity_hyper F beta0 w = normal_wishart_update F beta0 w.
Proof.
  intros WF. unfold entity_hyper, normal_wishart_update.
  rewrite (mean0_row_mean F WF). unfold pydiv.
  destruct (decide (nrows F + beta0 = 0)) as [H0|H0]; [done|].
  rewrite (run_bind_lift_ok _ _ _ _ eq_refl).
  rewrite (cov_mat_scatter F (row_mean F) WF (length_row_mean F)).
  rewrite (run_bind_lift_ok _ _ _ _ eq_refl).
  unfold madd. rewrite eye_tabulate. unfold scatter at 1.
  rewrite mzip_tabulate. rewrite (run_bind_lift_ok _ _ _ _ eq_refl).
  rewrite outer_tabulate, length_row_mean, mscale_tabulate, mzip_tabulate.
  rewrite (run_bind_lift_ok _ _ _ _ eq_refl).
  unfold inverse_scale.
  erewrite (tabulate_ext _ _ _ (λ a b, fadd (fadd _ (mget (scatter F (row_mean F)) a b)) _)).
  2:{ intros a b Ha Hb. simpl. unfold scatter. by rewrite mget_tabulate. }
  apply run_bind_ext. intros W w1 _.
  apply run_bind_ext. intros Lambda w2 _.
  assert (vscale (fdiv (of_nat (nrows F)) (of_nat (nrows F + beta0))) (row_mean F)
          = (λ a, fmul (fdiv (of_nat (nrows F)) (of_nat (nrows F + beta0)))
                    (vget (row_mean F) a)) <$> seq 0 (ncols F)) as ->; [|done].
  unfold vscale. rewrite (fmap_seq_vget (row_mean F)) at 1.
  by rewrite length_row_mean, <- list_fmap_compose.
Qed.

End Hyperparameters.

(** * Exact arithmetic: sums and products of matrices *)

Section Exact.
Context {T : Type} `{!Scalar T}.
Hypothesis SR : semi_ring_theory fzero fone fadd fmul (@eq T).

Add Ring T_semiring : SR.
Local Notation "x + y" := (fadd x y).
Local Notation "x * y" := (fmul x y).
Local Notation "0" := fzero.
Local Notation "1" := fone.

Lemma foldl_fadd a (l : list T) : foldl fadd a l = a + vsum l.
Proof using SR.
  unfold vsum. revert a. induction l as [|x l IH]; intros a; simpl.
  - ring.
  - rewrite (IH (a + x)), (IH (0 + x)). ring.
Qed.

Lemma vsum_cons x (l : list T) : vsum (x :: l) = x + vsum l.
Proof using SR. unfold vsum at 1. simpl. rewrite foldl_fadd. ring. Qed.

Lemma vsum_nil : vsum [] = 0.
Proof. done. Qed.

Lemma vsum_fmap_add {A} (f g : A → T) (l : list A) :
  vsum ((λ k, f k + g k) <$> l) = vsum (f <$> l) + vsum (g <$> l).
Proof using SR.
  induction l as [|x l IH]; rewrite ?fmap_nil, ?fmap_cons, ?vsum_cons, ?vsum_nil.
  - ring.
  - rewrite IH. ring.
Qed.

Lemma vsum_fmap_mul_l {A} c (f : A → T) (l : list A) :
  vsum ((λ k, c * f k) <$> l) = c * vsum (f <$> l).
Proof using SR.
  induction l as [|x l IH]; rewrite ?fmap_nil, ?fmap_cons, ?vsum_cons, ?vsum_nil.
  - ring.
  - rewrite IH. ring.
Qed.

Lemma vsum_fmap_mul_r {A} c (f : A → T) (l : list A) :
  vsum ((λ k, f k * c) <$> l) = vsum (f <$> l) * c.
Proof using SR.
  induction l as [|x l IH]; rewrite ?fmap_nil, ?fmap_cons, ?vsum_cons, ?vsum_nil.
  - ring.
  - rewrite IH. ring.
Qed.

Lemma vsum_fmap_zero {A} (l : list A) : vsum ((λ _, 0) <$> l) = 0.
Proof using SR.
  induction l as [|x l IH]; rewrite ?fmap_nil, ?fmap_cons, ?vsum_cons, ?vsum_nil.
  - done.
  - rewrite IH. ring.
Qed.

Lemma vsum_fmap_ext {A} (f g : A → T) (l : list A) :
  (∀ x, x ∈ l → f x = g x) → vsum (f <$> l) = vsum (g <$> l).
Proof.
  intros Hfg. f_equal. apply list_fmap_ext. intros i x Hx. apply Hfg.
  by eapply list_elem_of_lookup_2.
Qed.

Lemma vsum_exchange {A B} (f : A → B → T) (ks : list A) (ls : list B) :
  vsum ((λ k, vsum ((λ l, f k l) <$> ls)) <$> ks) =
  vsum ((λ l, vsum ((λ k, f k l) <$> ks)) <$> ls).
Proof using SR.
  induction ks as [|k ks IH]; rewrite ?fmap_nil, ?fmap_cons, ?vsum_cons, ?vsum_nil.
  - symmetry. etrans; [|apply (vsum_fmap_zero ls)]. apply vsum_fmap_ext.
    intros l _. by rewrite fmap_nil.
  - rewrite IH, <- vsum_fmap_add. apply vsum_fmap_ext.
    intros l _. by rewrite fmap_cons, vsum_cons.
Qed.

Lemma vsum_delta_l (f : nat → T) i a n :
  vsum ((λ k, delta i k * f k) <$> seq a n) =
  if decide (a ≤ i < a + n) then f i else 0.
Proof using SR.
  revert a. induction n as [|n IH]; intros a.
  - change (seq a 0) with (@nil nat).
    rewrite fmap_nil, vsum_nil. by rewrite decide_False by lia.
  - change (seq a (S n)) with (a :: seq (S a) n).
    rewrite fmap_cons, vsum_cons, IH. unfold delta.
    destruct (decide (i = a)) as [->|].
    + rewrite decide_False by lia. rewrite decide_True by lia. ring.
    + destruct (decide (S a ≤ i < S a + n)).
      * rewrite decide_True by lia. ring.
      * rewrite decide_False by lia. ring.
Qed.

(** ** Matrices as entry functions *)

Lemma mulf_ext n f f' g g' i j :
  (∀ k, k < n → f i k = f' i k) → (∀ k, k < n → g k j = g' k j) →
  mulf n f g i j = mulf n f' g' i j.
Proof.
  intros Hf Hg. unfold mulf. apply vsum_fmap_ext.
  intros k Hk%elem_of_seq. rewrite Hf, Hg by lia. done.
Qed.

Lemma mulf_assoc n f g h i j :
  mulf n (mulf n f g) h i j = mulf n f (mulf n g h) i j.
Proof using SR.
  unfold mulf.
  etrans.
  { apply vsum_fmap_ext. intros l _. symmetry. apply vsum_fmap_mul_r. }
  rewrite vsum_exchange. apply vsum_fmap_ext. intros k _.
  rewrite <- vsum_fmap_mul_l. apply vsum_fmap_ext. intros l _. ring.
Qed.

Lemma mulf_delta_l n f i j : i < n → mulf n delta f i j = f i j.
Proof using SR.
  intros Hi. unfold mulf. rewrite (vsum_delta_l (λ k, f k j)).
  by rewrite decide_True by lia.
Qed.

Lemma mulf_delta_r n f i j : j < n → mulf n f delta i j = f i j.
Proof using SR.
  intros Hj. unfold mulf.
  etrans; [|apply (mulf_delta_l n (trf f) j i Hj)]. unfold mulf, trf.
  apply vsum_fmap_ext. intros k _. unfold delta.
  destruct (decide (k = j)) as [->|]; [rewrite decide_True by done|
                                       rewrite decide_False by done]; ring.
Qed.

Lemma trf_mulf n f g i j : trf (mulf n f g) i j = mulf n (trf g) (trf f) i j.
Proof using SR.
  unfold trf, mulf. apply vsum_fmap_ext. intros k _. ring.
Qed.

Lemma delta_sym i j : delta i j = delta j i.
Proof. unfold delta. repeat case_decide; done || lia. Qed.

End Exact.

Section Bridge.
Context {T : Type} `{!Scalar T}.

Lemma Ok_inj {A} (a b : A) : Ok a = Ok b → a = b.
Proof. by intros [= ->]. Qed.

Lemma wf_tabulate (A : matrix T) :
  wf_matrix A → A = tabulate (nrows A) (ncols A) (mget A).
Proof.
  destruct A as [m n rs]. intros [Hlen Hrows]. simpl in *.
  unfold tabulate. f_equal. apply list_eq. intros i.
  rewrite list_lookup_fmap.
  destruct (decide (i < m)) as [Hi|Hi].
  - rewrite lookup_seq_lt by done. simpl.
    destruct (lookup_lt_is_Some_2 rs i) as [r Hr]; [lia|]. rewrite Hr. f_equal.
    rewrite Forall_lookup in Hrows. specialize (Hrows _ _ Hr).
    unfold mget. simpl. rewrite (nth_lookup_Some _ _ _ _ Hr).
    rewrite <- Hrows. apply fmap_seq_vget.
  - rewrite lookup_seq_ge by lia. rewrite lookup_ge_None_2 by lia. done.
Qed.

Lemma tabulate_inj m n (f g : nat → nat → T) i j :
  tabulate m n f = tabulate m n g → i < m → j < n → f i j = g i j.
Proof.
  intros Heq Hi Hj.
  rewrite <- (mget_tabulate m n f i j), <- (mget_tabulate m n g i j) by done.
  by rewrite Heq.
Qed.

Lemma wf_matrix_tabulate m n (f : nat → nat → T) : wf_matrix (tabulate m n f).
Proof.
  split; simpl.
  - by rewrite length_fmap, length_seq.
  - apply Forall_fmap, Forall_forall. intros i _. simpl.
    by rewrite length_fmap, length_seq.
Qed.

Lemma transpose_tabulate m n (f : nat → nat → T) :
  transpose (tabulate m n f) = tabulate n m (trf f).
Proof.
  unfold transpose, tabulate. simpl. f_equal.
  rewrite (columns_wf n).
  - apply list_fmap_ext. intros _ j Hj%list_elem_of_lookup_2%elem_of_seq.
    rewrite <- list_fmap_compose. apply list_fmap_ext.
    intros _ i Hi%list_elem_of_lookup_2%elem_of_seq. simpl. unfold trf, vget.
    apply nth_lookup_Some. rewrite list_lookup_fmap, lookup_seq_lt by lia. done.
  - apply (wf_matrix_tabulate m n f).
Qed.

Lemma matmul_tabulate m n p (f g : nat → nat → T) :
  matmul (tabulate m n f) (tabulate n p g) = Ok (tabulate m p (mulf n f g)).
Proof.
  unfold matmul. simpl. rewrite decide_True by done. f_equal.
  unfold tabulate. f_equal.
  rewrite (columns_wf p) by apply (wf_matrix_tabulate n p g).
  rewrite <- list_fmap_compose. apply list_fmap_ext. intros _ i _. simpl.
  rewrite <- list_fmap_compose. apply list_fmap_ext.
  intros _ j Hj%list_elem_of_lookup_2%elem_of_seq. simpl.
  unfold dot, mulf. rewrite <- list_fmap_compose, zip_with_fmap_diag.
  f_equal. apply list_fmap_ext. intros _ k _. simpl. f_equal.
  unfold vget. apply nth_lookup_Some.
  rewrite list_lookup_fmap, lookup_seq_lt by lia. done.
Qed.

Lemma np_matmul_tabulate m n p (f g : nat → nat → T) :
  np_matmul (tabulate m n f) (tabulate n p g) = Ok (tabulate m p (dotf n f g)).
Proof.
  unfold np_matmul. simpl. rewrite decide_True by done. f_equal.
  unfold tabulate. f_equal.
  rewrite (columns_wf p) by apply (wf_matrix_tabulate n p g).
  rewrite <- list_fmap_compose. apply list_fmap_ext. intros _ i _. simpl.
  rewrite <- list_fmap_compose. apply list_fmap_ext.
  intros _ j Hj%list_elem_of_lookup_2%elem_of_seq. simpl.
  unfold dotf. f_equal. rewrite <- list_fmap_compose.
  apply list_fmap_ext. intros _ k Hk%list_elem_of_lookup_2%elem_of_seq. simpl.
  unfold vget. apply nth_lookup_Some.
  rewrite list_lookup_fmap, lookup_seq_lt by lia. done.
Qed.

Lemma matvec_tabulate m n (f : nat → nat → T) (v : list T) :
  length v = n →
  matvec (tabulate m n f) v =
  Ok ((λ i, mulf n f (λ k _, vget v k) i 0) <$> seq 0 m).
Proof.
  intros Hv. unfold matvec. simpl. rewrite decide_True by done. f_equal.
  rewrite <- list_fmap_compose. apply list_fmap_ext. intros _ i _. simpl.
  unfold dot, mulf. rewrite (fmap_seq_vget v) at 1. rewrite Hv.
  by rewrite zip_with_fmap_diag.
Qed.

End Bridge.

(** * C6: the precision-form sampler *)

Section PrecisionForm.
Context {T G : Type} `{!Scalar T} `{!Extern T G}.
Hypothesis SR : semi_ring_theory fzero fone fadd fmul (@eq T).

(** C6: for a mean [mu] of length [n], a precision matrix [Lambda] with
    upper Cholesky factor [C] (Lambda = C^T C) and the standard normal
    vector [z] the generator gives, mvnrnd_pre returns y + mu, where [y]
    is the solution of the triangular system C y = z.  With A the inverse
    of C, y = A z, and the covariance A A^T of y is the inverse of Lambda
    (not Lambda itself).  The scalars are taken with exact arithmetic:
    the laws of a commutative semiring. *)
Theorem mvnrnd_pre_precision_form n (mu : list T) (Lambda C A : matrix T)
    (z y : list T) (w : world T G) (g' : G) :
  length mu = n →
  wf_matrix C → nrows C = n → ncols C = n →
  wf_matrix A → nrows A = n → ncols A = n →
  normrnd n (rng w) = (z, g') →
  cholesky_upper Lambda = Ok C →
  matmul (transpose C) C = Ok Lambda →
  solve_ut C z = Ok y →
  matvec C y = Ok z →
  matmul A C = Ok (eye n) →
  matmul C A = Ok (eye n) →
  mvnrnd_pre mu Lambda w =
    (Ok (zip_with fadd y mu), World (mats w) (tens w) g' (stdout w)) ∧
  matvec A z = Ok y ∧
  ∃ Sigma, matmul A (transpose A) = Ok Sigma ∧
           matmul Lambda Sigma = Ok (eye n) ∧
           matmul Sigma Lambda = Ok (eye n).
Proof using SR.
  intros Hmu HC HCr HCc HA HAr HAc Hz Hchol HL Hsolve HCy HAC HCA.
  rewrite (wf_tabulate C HC), HCr, HCc in HL, HCy, HAC, HCA.
  rewrite (wf_tabulate A HA), HAr, HAc in HAC, HCA |- *.
  set (a := mget A) in *. set (c := mget C) in *.
  assert (length y = n) as Hy.
  { unfold matvec in HCy. simpl in HCy. by destruct (decide (n = length y)). }
  rewrite transpose_tabulate, matmul_tabulate in HL.
  rewrite matmul_tabulate, eye_tabulate in HAC, HCA.
  rewrite (matvec_tabulate _ _ _ _ Hy) in HCy.
  apply Ok_inj in HL as <-. apply Ok_inj in HAC. apply Ok_inj in HCA.
  apply Ok_inj in HCy as <-.
  assert (∀ i j, i < n → j < n → mulf n a c i j = delta i j) as Hac.
  { intros i j Hi Hj. by apply (tabulate_inj n n _ _ i j HAC). }
  assert (∀ i j, i < n → j < n → mulf n c a i j = delta i j) as Hca.
  { intros i j Hi Hj. by apply (tabulate_inj n n _ _ i j HCA). }
  clear HAC HCA.
  split; [|split].
  - unfold mvnrnd_pre. rewrite run_bind. unfold draw at 1.
    rewrite Hmu, Hz. simpl.
    rewrite (run_bind_lift_ok _ _ _ _ Hchol).
    rewrite (run_bind_lift_ok _ _ _ _ Hsolve).
    unfold lift, vadd, vzip. rewrite Hy, Hmu, bdim_same. simpl.
    rewrite (bzip_same_length fadd fadd) by (done || lia). done.
  - rewrite matvec_tabulate by by rewrite length_fmap, length_seq.
    f_equal. etrans; [|symmetry; apply (fmap_seq_vget y)]. rewrite Hy.
    apply list_fmap_ext. intros _ i Hi%list_elem_of_lookup_2%elem_of_seq. simpl.
    etrans.
    { apply (mulf_ext n a a _ (mulf n c (λ k _, vget y k))); [done|].
      intros k Hk. unfold vget at 1. apply nth_lookup_Some.
      rewrite list_lookup_fmap, lookup_seq_lt by lia. done. }
    rewrite <- (mulf_assoc SR).
    etrans; [apply (mulf_ext n _ delta _ (λ k _, vget y k))|].
    { intros k Hk. apply Hac; lia. }
    { done. }
    apply (mulf_delta_l SR). lia.
  - exists (tabulate n n (mulf n a (trf a))).
    rewrite transpose_tabulate, !matmul_tabulate, eye_tabulate.
    split; [done|]. split; f_equal; apply tabulate_ext; intros i j Hi Hj.
    + rewrite (mulf_assoc SR).
      etrans.
      { apply (mulf_ext n _ (trf c) _ (trf a)); [done|]. intros k Hk.
        rewrite <- (mulf_assoc SR).
        etrans; [apply (mulf_ext n _ delta _ (trf a))|].
        - intros l Hl. by apply Hca.
        - done.
        - by apply (mulf_delta_l SR). }
      rewrite <- (trf_mulf SR). unfold trf. rewrite Hac by done.
      apply delta_sym.
    + rewrite (mulf_assoc SR).
      etrans.
      { apply (mulf_ext n a a _ c); [done|]. intros k Hk.
        rewrite <- (mulf_assoc SR).
        etrans; [apply (mulf_ext n _ delta _ c)|].
        - intros l Hl. rewrite <- (trf_mulf SR). unfold trf.
          rewrite Hca by done. apply delta_sym.
        - done.
        - by apply (mulf_delta_l SR). }
      by apply Hac.
Qed.

End PrecisionForm.

(** integer arithmetic is exact *)
Lemma Z_semi_ring : semi_ring_theory (fzero : Z) fone fadd fmul eq.
Proof.
  constructor; simpl; intros; lia.
Qed.

(** over the integers: Lambda = [[1, 1], [1, 2]], C = [[1, 1], [0, 1]],
    z = [3, 5], hence y = [-2, 5] and the draw is [8, 25] *)
Lemma mvnrnd_pre_precision_form_witness :
  mvnrnd_pre Integer.mu1 Integer.Lambda1 Integer.world1 =
    (Ok [8; 25]%Z, World ∅ ∅ [7%Z] []) ∧
  matvec Integer.A1 [3; 5]%Z = Ok [-2; 5]%Z ∧
  ∃ Sigma, matmul Integer.A1 (transpose Integer.A1) = Ok Sigma ∧
           matmul Integer.Lambda1 Sigma = Ok (eye 2) ∧
           matmul Sigma Integer.Lambda1 = Ok (eye 2).
Proof.
  apply (mvnrnd_pre_precision_form Z_semi_ring 2 Integer.mu1
           Integer.Lambda1 Integer.C1 Integer.A1 [3; 5]%Z [-2; 5]%Z
           Integer.world1 [7%Z]);
    first [reflexivity | by repeat constructor].
Defined.

Section Validation.
Context {T G : Type} `{!Scalar T} `{!Extern T G}.






End Validation.



Section Statements.
Context {T G : Type} `{!Scalar T} `{!Extern T G}.

(** C2 (amended): what BPTF prepares before the loop.  If the sparse
    tensor holds a NaN, the mask is true exactly at the entries that are
    not NaN, the held-out positions are exactly those where the dense
    tensor is not zero and the sparse tensor is NaN, and the caller's
    sparse tensor then holds zero in place of every NaN.  If it holds no
    NaN, the mask is true exactly at the entries that are not zero, the
    held-out positions are exactly those where the dense tensor is not
    zero and the sparse tensor is zero, and nothing is written. *)
Theorem prepare_mask_and_held_out (w : world T G)
    (dense_tensor sparse_tensor : loc) (dn sp : tensor T) :
  tens w !! dense_tensor = Some dn →
  tens w !! sparse_tensor = Some sp →
  wf_tensor dn → wf_tensor sp → dims dn = dims sp →
  ∃ ind pos_test dense_test w',
    prepare dense_tensor sparse_tensor w = (Ok (ind, pos_test, dense_test), w') ∧
    (any_nan sp = true →
       (∀ p, tget ind p = Some true ↔
             ∃ y, tget sp p = Some y ∧ fisnan y = false) ∧
       (∀ p, p ∈ pos_test ↔
             ∃ x y, tget dn p = Some x ∧ tget sp p = Some y ∧
                    fneqb x fzero = true ∧ fisnan y = true) ∧
       tens w' !! sparse_tensor = Some (nan_to_zero sp)) ∧
    (any_nan sp = false →
       (∀ p, tget ind p = Some true ↔
             ∃ y, tget sp p = Some y ∧ fneqb y fzero = true) ∧
       (∀ p, p ∈ pos_test ↔
             ∃ x y, tget dn p = Some x ∧ tget sp p = Some y ∧
                    fneqb x fzero = true ∧ feqb y fzero = true) ∧
       w' = w).
Proof. apply prepare_spec. Qed.


(** C5: the hyperparameters of an entity factor F (n rows, R columns) are
    computed, each time, from F itself, as [normal_wishart_update] spells
    out entry by entry.  With F_bar[a] the sum of column a of F, added in
    the order of the rows and divided by n, and S[a, b] the inner product
    (in the arithmetic of [@]) of the columns a and b of F - F_bar, the
    Wishart scale is the inverse of the matrix with the entries
    delta(a, b) + S[a, b] + ((n / (n + beta0)) beta0) (F_bar[a] F_bar[b]),
    the degrees of freedom are n + R, and mu_hyper comes from the
    precision-form sampler with the mean of entries (n / (n + beta0))
    F_bar[a] and the precision of entries (n + beta0) Lambda[a, b],
    Lambda being the matrix just drawn.  sample_factor_u and
    sample_factor_v compute them from the matrix that is in the store
    when they are called, and draw the rows with that pair; the call a
    sweep makes passes beta0 = 1. *)
Theorem hyperparameters_recomputed (F : matrix T) (beta0 : nat)
    (w : world T G) :
  wf_matrix F →
  entity_hyper F beta0 w = normal_wishart_update F beta0 w ∧
  (∀ tst tind U V X l w',
     mats w !! U = Some F →
     sample_factor_u tst tind U V X beta0 w = (Ok l, w') →
     ∃ mu L w1 c3 c4 new w2,
       normal_wishart_update F beta0 w = (Ok (mu, L), w1) ∧
       chain_rows (λ i _ _, row_posterior c3 c4 mu L i) (ncols F) []
         (seq 0 (nrows F)) None w1 = (Ok new, w2)) ∧
  (∀ tst tind U V X l w',
     mats w !! V = Some F →
     sample_factor_v tst tind U V X beta0 w = (Ok l, w') →
     ∃ mu L w1 c3 c4 new w2,
       normal_wishart_update F beta0 w = (Ok (mu, L), w1) ∧
       chain_rows (λ j _ _, row_posterior c3 c4 mu L j) (ncols F) []
         (seq 0 (nrows F)) None w1 = (Ok new, w2)) ∧
  (∀ sparse_tensor U V X ind tau wx,
     mats w !! U = Some F →
     resample_factors sparse_tensor U V X ind tau w = (Ok (), wx) →
     ∃ mu L w1, normal_wishart_update F 1 w = (Ok (mu, L), w1)).
Proof.
  intros HF. split; [by apply entity_hyper_spec|].
  split; [|split]; [intros tst tind U V X l w' Hl Hrun..|].
  3:{ intros ls U V X ind tau0 wx Hl Hrun. unfold resample_factors in Hrun.
      apply bind_Ok in Hrun as (sp & w1 & Hsp & Hrun).
      unfold read_ten in Hsp. injection Hsp as _ <-.
      apply bind_Ok in Hrun as (lU & w2 & HU & _).
      destruct (sample_factor_u_rows _ _ _ _ _ _ _ _ _ _ Hl (proj1 HF) HU)
        as (Vm & Xm & mu & L & w1 & _ & _ & _ & _ & _ & _ & Hh & _).
      exists mu, L, w1. by rewrite <- (entity_hyper_spec F 1 w HF). }
  - destruct (sample_factor_u_rows _ _ _ _ _ _ _ _ _ _ Hl (proj1 HF) Hrun)
      as (Vm & Xm & mu & L & w1 & c3 & c4 & new & w2 &
          _ & _ & Hh & _ & _ & Hrows & _).
    exists mu, L, w1, c3, c4, new, w2.
    by rewrite <- (entity_hyper_spec F beta0 w HF).
  - destruct (sample_factor_v_rows _ _ _ _ _ _ _ _ _ _ Hl (proj1 HF) Hrun)
      as (Um & Xm & mu & L & w1 & c3 & c4 & new & w2 &
          _ & _ & Hh & _ & _ & Hrows & _).
    exists mu, L, w1, c3, c4, new, w2.
    by rewrite <- (entity_hyper_spec F beta0 w HF).
Qed.

(** C8: two runs of BPTF that differ only in the values of the dense
    tensor return the same tensor (or raise the same exception), and
    leave the same factor matrices, the same sparse tensor and the same
    generator state: the dense tensor reaches only what is printed. *)
Theorem BPTF_noninterference dense_tensor sparse_tensor init
    burn_iter gibbs_iter (w1 w2 : world T G) dn1 dn2 sp U V X :
  agree dense_tensor w1 w2 → sparse_tensor ≠ dense_tensor →
  tens w1 !! dense_tensor = Some dn1 → tens w2 !! dense_tensor = Some dn2 →
  tens w1 !! sparse_tensor = Some sp →
  wf_tensor dn1 → wf_tensor dn2 → wf_tensor sp →
  dims dn1 = dims sp → dims dn2 = dims sp →
  init !! "U" = Some U → init !! "V" = Some V → init !! "X" = Some X →
  has_rows w1 U (dims sp).1.1 → has_rows w1 V (dims sp).1.2 →
  has_rows w1 X (dims sp).2 →
  (BPTF dense_tensor sparse_tensor init burn_iter gibbs_iter w1).1 =
  (BPTF dense_tensor sparse_tensor init burn_iter gibbs_iter w2).1 ∧
  agree dense_tensor
    (BPTF dense_tensor sparse_tensor init burn_iter gibbs_iter w1).2
    (BPTF dense_tensor sparse_tensor init burn_iter gibbs_iter w2).2.
Proof.
  intros Hag Hne Hd1 Hd2 Hs Hw1 Hw2 Hws He1 He2 HU HV HX HrU HrV HrX.
  destruct (BPTF_lockstep dense_tensor sparse_tensor init burn_iter gibbs_iter
              w1 w2 dn1 dn2 sp U V X) as [Hagree Hres]; try done.
  split; [|done].
  destruct (BPTF _ _ _ _ _ w1).1, (BPTF _ _ _ _ _ w2).1; by subst.
Qed.

(** C10: sample_factor_x needs at least two rows in X.  With a single
    row, the pass t = 0 of its loop raises IndexError at the read of
    X[1, :], so neither sample_factor_x nor a run of BPTF with at least
    one sweep returns; with two rows or more that read is in bounds. *)
Theorem sample_factor_x_needs_two_steps X (w : world T G) Xm :
  mats w !! X = Some Xm → length (rows Xm) = nrows Xm →
  (nrows Xm = 1 →
     (∀ var3 var4 mu L,
        resample_step X 1 var3 var4 mu L 0 w = (Raise IndexError, w)) ∧
     (∀ tst tind U V beta0,
        ∃ e w', sample_factor_x tst tind U V X beta0 w = (Raise e, w')) ∧
     (∀ dense_tensor sparse_tensor init burn_iter gibbs_iter tensor_hat w',
        init !! "X" = Some X → 1 ≤ burn_iter + gibbs_iter →
        BPTF dense_tensor sparse_tensor init burn_iter gibbs_iter w
          ≠ (Ok tensor_hat, w'))) ∧
  (2 ≤ nrows Xm → ∃ r, read_row X (0 + 1) w = (Ok r, w)).
Proof.
  intros HX Hlen. split.
  - intros Hn. assert (length (rows Xm) = 1) as Hlen1 by congruence.
    split; [|split].
    + intros. by eapply resample_step_one_row.
    + intros. by eapply sample_factor_x_one_row.
    + intros. by eapply BPTF_one_time_slice.
  - intros Hn. by eapply read_row_next_in_bounds.
Qed.

End Statements.

(** * The statements on concrete runs *)

(** C2 (as claimed) fails in its example: for dense = [[1, 0], [2, 3]] and
    sparse = [[1, NaN], [2, 0]] no position is held out.  At (0, 1) the
    sparse entry is NaN but the dense entry is zero; at (1, 1) the dense
    entry is not zero but the sparse entry is 0, not NaN. *)
Lemma held_out_example_empty :
  (prepare 0 1 world_ex).1
    = Ok (Ten (2, 2, 1) [[[true]; [false]]; [[true]; [true]]], [], []) ∧
  tget dense_ex (0, 1, 0) = Some 0%float ∧
  tget sparse_ex (1, 1, 0) = Some 0%float.
Proof. split; [|split]; vm_compute; reflexivity. Qed.

(** the example above, as the sampler prepares it *)
Lemma prepare_mask_and_held_out_witness :
  ∃ ind pos_test dense_test w',
    prepare 0 1 world_ex = (Ok (ind, pos_test, dense_test), w') ∧
    (∀ p, p ∈ pos_test ↔
          ∃ x y, tget dense_ex p = Some x ∧ tget sparse_ex p = Some y ∧
                 fneqb x fzero = true ∧ fisnan y = true) ∧
    tens w' !! 1 = Some (nan_to_zero sparse_ex).
Proof.
  destruct (prepare_mask_and_held_out world_ex 0 1 dense_ex sparse_ex)
    as (ind & pos & dt & w' & Hrun & Hnan & _);
    [reflexivity | reflexivity | by repeat constructor
    | by repeat constructor | reflexivity |].
  destruct (Hnan eq_refl) as (_ & Hpos & Hw').
  exists ind, pos, dt, w'. split; [exact Hrun|]. split; [exact Hpos|exact Hw'].
Defined.


(** the hyperparameters of U in the 2 x 2 x 2 run: the mean of the rows
    (0.5, 0.25) and (-0.25, 0.5) is (0.125, 0.375), the ratio is 2 / 3,
    and the update returns *)
Lemma hyperparameters_recomputed_witness :
  row_mean Float64.U0 = [0.125; 0.375]%float ∧
  mget (inverse_scale Float64.U0 (row_mean Float64.U0)
          (fdiv (of_nat 2) (of_nat 3)) 1) 0 1
    = (0 + ((0.5 - 0.125) * (0.25 - 0.375) + (-0.25 - 0.125) * (0.5 - 0.375))
       + 2 / 3 * 1 * (0.125 * 0.375))%float ∧
  is_Ok (normal_wishart_update Float64.U0 1 Float64.world0).1 = true ∧
  entity_hyper Float64.U0 1 Float64.world0
    = normal_wishart_update Float64.U0 1 Float64.world0.
Proof.
  split; [vm_compute; reflexivity|]. split; [vm_compute; reflexivity|].
  split; [vm_compute; reflexivity|].
  apply (hyperparameters_recomputed Float64.U0 1 Float64.world0).
  by repeat constructor.
Defined.

(** two runs on the same sparse tensor with reference values 1..8 and
    10..80 *)
Lemma BPTF_noninterference_witness :
  (BPTF 0 1 Float64.init0 1 1 Float64.world0).1 =
  (BPTF 0 1 Float64.init0 1 1 world0').1 ∧
  agree 0 (BPTF 0 1 Float64.init0 1 1 Float64.world0).2
          (BPTF 0 1 Float64.init0 1 1 world0').2.
Proof.
  apply (BPTF_noninterference 0 1 Float64.init0 1 1 Float64.world0 world0'
           Float64.dense0 dense0' Float64.sparse0 0 1 2);
    try reflexivity; try (by repeat constructor).
  - split; [reflexivity|]. split; [reflexivity|]. intros l Hl. simpl.
    by rewrite !(lookup_insert_ne _ 0 l).
  - by exists Float64.U0.
  - by exists Float64.V0.
  - by exists Float64.X0.
Defined.

(** a tensor with one time slice: the run stops with IndexError *)
Lemma sample_factor_x_needs_two_steps_witness :
  (∀ var3 var4 mu L,
     resample_step 2 1 var3 var4 mu L 0 world_one = (Raise IndexError, world_one)) ∧
  (BPTF 0 1 Float64.init0 1 1 world_one).1 = Raise IndexError.
Proof.
  split.
  - apply (proj1 (sample_factor_x_needs_two_steps 2 world_one X_one
                    eq_refl eq_refl) eq_refl).
  - vm_compute. reflexivity.
Defined.

(** * Unfoldings: ten2mat *)

Section Layout.
Context {A : Type}.

Lemma columns_lookup n (rs : list (list A)) c :
  Forall (λ r, length r = n) rs → c < n →
  ∃ l, columns n rs !! c = Some l ∧ length l = length rs ∧
       ∀ i r, rs !! i = Some r → l !! i = r !! c.
Proof.
  revert rs c. induction n as [|n IH]; intros rs c Hrs Hc; [lia|].
  destruct c as [|c]; simpl.
  - exists (concat (take 1 <$> rs)). split; [done|].
    induction Hrs as [|r rs Hr _ IHrs]; [done|].
    destruct r as [|x r]; [simpl in Hr; lia|].
    destruct IHrs as [Hl Hi]. rewrite fmap_cons. simpl. split; [by rewrite Hl|].
    intros [|i] r' Hr'; simpl in *; [by injection Hr' as <-|by apply Hi].
  - destruct (IH (drop 1 <$> rs) c) as (l & Hl & Hlen & Hi); [|lia|].
    { apply Forall_fmap. eapply Forall_impl; [done|]. simpl.
      intros r Hr. rewrite length_drop. lia. }
    exists l. split; [done|]. split; [by rewrite Hlen, length_fmap|].
    intros i r Hr. rewrite (Hi i (drop 1 r)).
    + by rewrite lookup_drop.
    + by rewrite list_lookup_fmap, Hr.
Qed.

Lemma Forall_length_columns n (rs : list (list A)) :
  Forall (λ r, length r = n) rs →
  Forall (λ l, length l = length rs) (columns n rs).
Proof.
  intros Hrs. apply Forall_lookup. intros c l Hl.
  assert (c < n) as Hc.
  { rewrite <- (length_columns n rs). by eapply lookup_lt_Some. }
  destruct (columns_lookup n rs c Hrs Hc) as (l' & Hl' & Hlen & _). congruence.
Qed.

Lemma lookup_concat_uniform m (ls : list (list A)) j k :
  Forall (λ l, length l = m) ls → j < m →
  concat ls !! (j + m * k) = l ← ls !! k; (l : list A) !! j.
Proof.
  intros Hls Hj. revert k. induction Hls as [|l ls Hl _ IH]; intros k; [done|].
  destruct k as [|k]; simpl.
  - rewrite Nat.mul_0_r, Nat.add_0_r. apply lookup_app_l. lia.
  - rewrite lookup_app_r by lia.
    replace (j + m * S k - length l) with (j + m * k) by lia. apply IH.
Qed.

Lemma mentry_reshape_F (t : tensor A) d1 d2 d3 r c :
  dims t = (d1, d2, d3) →
  Forall (λ s, length s = d2 ∧ Forall (λ x, length x = d3) s) (slabs t) →
  c < d2 * d3 →
  mentry (reshape_F t) r c = tget t (r, c `mod` d2, c `div` d2).
Proof.
  intros Hd Hw Hc. unfold mentry, reshape_F, tget. rewrite Hd. simpl.
  rewrite list_lookup_fmap.
  destruct (slabs t !! r) as [s|] eqn:Hs; simpl; [|done].
  rewrite Forall_lookup in Hw. destruct (Hw _ _ Hs) as [Hs2 Hs3].
  assert (d2 ≠ 0) as Hd2 by (intros ->; lia).
  assert (c `mod` d2 < d2) as Hj by by apply Nat.mod_upper_bound.
  assert (c `div` d2 < d3) as Hk by (apply Nat.Div0.div_lt_upper_bound; lia).
  rewrite (Nat.div_mod_eq c d2) at 1.
  rewrite Nat.add_comm.
  rewrite (lookup_concat_uniform d2).
  - destruct (columns_lookup d3 s (c `div` d2) Hs3 Hk) as (l & -> & Hlen & Hl).
    simpl. destruct (lookup_lt_is_Some_2 s (c `mod` d2)) as [x Hx]; [lia|].
    rewrite Hx. simpl. by apply Hl.
  - rewrite <- Hs2. by apply Forall_length_columns.
  - done.
Qed.
End Layout.

Section Unfolding.
Context {A : Type}.

Lemma wf_reshape_F (t : tensor A) :
  wf_tensor t →
  wf_matrix (reshape_F t) ∧ nrows (reshape_F t) = (dims t).1.1 ∧
  ncols (reshape_F t) = (dims t).1.2 * (dims t).2.
Proof.
  destruct t as [[[d1 d2] d3] sl]. intros [Hlen Hsl]. simpl in *.
  unfold reshape_F. simpl. split; [|done]. split; simpl.
  - by rewrite length_fmap.
  - apply Forall_fmap. eapply Forall_impl; [done|]. simpl. intros s [Hs Hr].
    rewrite (length_concat_uniform d2).
    + rewrite length_columns. lia.
    + rewrite <- Hs. by apply Forall_length_columns.
Qed.

Lemma wf_moveaxis (t : tensor A) mode :
  wf_tensor t →
  wf_tensor (moveaxis t mode) ∧
  dims (moveaxis t mode) =
    match mode with
    | Axis0 => dims t
    | Axis1 => ((dims t).1.2, (dims t).1.1, (dims t).2)
    | Axis2 => ((dims t).2, (dims t).1.1, (dims t).1.2)
    end.
Proof.
  destruct t as [[[d1 d2] d3] sl]. intros [Hlen Hsl]. simpl in *.
  assert (Forall (λ s, length s = d2) sl) as Hsl2.
  { eapply Forall_impl; [done|]. by intros s [? ?]. }
  destruct mode; unfold moveaxis; simpl; (split; [|done]).
  - done.
  - split; simpl; [apply length_columns|].
    apply Forall_lookup. intros j s' Hs'.
    assert (j < d2) as Hj.
    { rewrite <- (length_columns d2 sl). by eapply lookup_lt_Some. }
    destruct (columns_lookup d2 sl j Hsl2 Hj) as (l & Hl & Hll & Hli).
    assert (s' = l) as -> by congruence. split; [congruence|].
    apply Forall_lookup. intros i r Hr.
    destruct (lookup_lt_is_Some_2 sl i) as [s Hs].
    { rewrite <- Hll. by eapply lookup_lt_Some. }
    rewrite (Hli i s Hs) in Hr. rewrite Forall_lookup in Hsl.
    destruct (Hsl _ _ Hs) as [_ Hr3]. rewrite Forall_lookup in Hr3. by eapply Hr3.
  - assert (Forall (λ cs, length cs = d3) (columns d3 <$> sl)) as Hcs.
    { apply Forall_fmap, Forall_forall. intros s _. apply length_columns. }
    split; simpl; [apply length_columns|].
    apply Forall_lookup. intros k s' Hs'.
    assert (k < d3) as Hk.
    { rewrite <- (length_columns d3 (columns d3 <$> sl)). by eapply lookup_lt_Some. }
    destruct (columns_lookup d3 _ k Hcs Hk) as (l & Hl & Hll & Hli).
    assert (s' = l) as -> by congruence. rewrite length_fmap in Hll.
    split; [congruence|].
    apply Forall_lookup. intros i r Hr.
    destruct (lookup_lt_is_Some_2 sl i) as [s Hs].
    { rewrite <- Hll. by eapply lookup_lt_Some. }
    rewrite (Hli i (columns d3 s)) in Hr by by rewrite list_lookup_fmap, Hs.
    rewrite Forall_lookup in Hsl. destruct (Hsl _ _ Hs) as [Hs2 Hr3].
    pose proof (Forall_length_columns d3 s Hr3) as Hc.
    rewrite Forall_lookup in Hc. rewrite (Hc _ _ Hr). done.
Qed.

Lemma tget_moveaxis (t : tensor A) i j k :
  wf_tensor t →
  (j < (dims t).1.2 → tget (moveaxis t Axis1) (j, i, k) = tget t (i, j, k)) ∧
  (k < (dims t).2 → tget (moveaxis t Axis2) (k, i, j) = tget t (i, j, k)).
Proof.
  destruct t as [[[d1 d2] d3] sl]. intros [Hlen Hsl]. simpl in *.
  assert (Forall (λ s, length s = d2) sl) as Hsl2.
  { eapply Forall_impl; [done|]. by intros s [? ?]. }
  split.
  - intros Hj. unfold moveaxis, tget. simpl.
    destruct (columns_lookup d2 sl j Hsl2 Hj) as (l & -> & Hll & Hli). simpl.
    destruct (sl !! i) as [s|] eqn:Hs; simpl.
    + rewrite (Hli i s Hs). done.
    + rewrite lookup_ge_None_2; [done|]. apply lookup_ge_None_1 in Hs. lia.
  - intros Hk. unfold moveaxis, tget. simpl.
    assert (Forall (λ cs, length cs = d3) (columns d3 <$> sl)) as Hcs.
    { apply Forall_fmap, Forall_forall. intros s _. apply length_columns. }
    destruct (columns_lookup d3 _ k Hcs Hk) as (l & -> & Hll & Hli). simpl.
    rewrite length_fmap in Hll.
    destruct (sl !! i) as [s|] eqn:Hs; simpl.
    + rewrite (Hli i (columns d3 s)) by by rewrite list_lookup_fmap, Hs.
      rewrite Forall_lookup in Hsl. destruct (Hsl _ _ Hs) as [Hs2 Hr3].
      destruct (columns_lookup d3 s k Hr3 Hk) as (l2 & -> & Hl2 & Hl2i). simpl.
      destruct (s !! j) as [r|] eqn:Hr; simpl.
      * by apply Hl2i.
      * rewrite lookup_ge_None_2; [done|]. apply lookup_ge_None_1 in Hr. lia.
    + rewrite lookup_ge_None_2; [done|]. apply lookup_ge_None_1 in Hs. lia.
Qed.

Lemma wf_unfolding (t : tensor A) (mode : axis) :
  wf_tensor t →
  wf_matrix (unfolding t mode) ∧
  nrows (unfolding t mode) = axis_len (dims t) mode ∧
  ncols (unfolding t mode) = folded_len (dims t) mode.
Proof.
  intros Ht. destruct (wf_moveaxis t mode Ht) as [Hw Hd].
  destruct (wf_reshape_F _ Hw) as (Hm & Hr & Hc).
  unfold unfolding. split; [done|]. rewrite Hr, Hc, Hd.
  by destruct mode.
Qed.

Lemma ten2mat_Ok (t : tensor A) (mode : axis) :
  axis_len (dims t) mode ≠ 0 → ten2mat t mode = Ok (unfolding t mode).
Proof. intros H. unfold ten2mat. by rewrite decide_False. Qed.

Lemma ten2mat_Ok_inv (t : tensor A) (mode : axis) m :
  ten2mat t mode = Ok m → axis_len (dims t) mode ≠ 0 ∧ m = unfolding t mode.
Proof. unfold ten2mat. case_decide; [done|]. by intros [= <-]. Qed.

Lemma wf_ten2mat (t : tensor A) (mode : axis) m :
  wf_tensor t → ten2mat t mode = Ok m →
  wf_matrix m ∧ nrows m = axis_len (dims t) mode ∧
  ncols m = folded_len (dims t) mode.
Proof. intros Ht [_ ->]%ten2mat_Ok_inv. by apply wf_unfolding. Qed.

(** X1: ten2mat raises ValueError when the axis [mode] is empty (reshape
    cannot infer the number of columns).  Otherwise the mode-[mode]
    unfolding of a well-shaped d1 x d2 x d3 tensor is a well-shaped matrix
    with one row per index of the axis [mode] and one column per pair of
    indices of the two other axes. *)
Theorem ten2mat_shape (t : tensor A) (mode : axis) :
  wf_tensor t →
  (axis_len (dims t) mode = 0 → ten2mat t mode = Raise ValueError) ∧
  (axis_len (dims t) mode ≠ 0 →
     ∃ m, ten2mat t mode = Ok m ∧ wf_matrix m ∧
          nrows m = axis_len (dims t) mode ∧
          ncols m = folded_len (dims t) mode).
Proof.
  intros Ht. split.
  - intros H0. unfold ten2mat. by rewrite decide_True.
  - intros H0. exists (unfolding t mode). split; [by apply ten2mat_Ok|].
    by apply wf_unfolding.
Qed.

Lemma mentry_unfolding (t : tensor A) (mode : axis) (r c : nat) :
  wf_tensor t → r < axis_len (dims t) mode → c < folded_len (dims t) mode →
  mentry (unfolding t mode) r c = tget t (fold_index mode (dims t) r c).
Proof.
  intros Ht Hr Hc. destruct (wf_moveaxis t mode Ht) as [[_ Hw] Hd].
  unfold unfolding.
  destruct t as [[[d1 d2] d3] sl]. simpl in *.
  destruct mode; simpl in *.
  - by apply (mentry_reshape_F _ d1 d2 d3).
  - rewrite (mentry_reshape_F _ d2 d1 d3) by done.
    by apply (tget_moveaxis (Ten (d1, d2, d3) sl) (c `mod` d1) r (c `div` d1) Ht).
  - rewrite (mentry_reshape_F _ d3 d1 d2) by done.
    by apply (tget_moveaxis (Ten (d1, d2, d3) sl) (c `mod` d1) (c `div` d1) r Ht).
Qed.

Lemma tget_is_Some (t : tensor A) i j k :
  wf_tensor t → i < (dims t).1.1 → j < (dims t).1.2 → k < (dims t).2 →
  is_Some (tget t (i, j, k)).
Proof.
  destruct t as [[[d1 d2] d3] sl]. intros [Hlen Hsl] Hi Hj Hk. simpl in *.
  unfold tget. simpl.
  destruct (lookup_lt_is_Some_2 sl i) as [s Hs]; [lia|]. rewrite Hs. simpl.
  rewrite Forall_lookup in Hsl. destruct (Hsl _ _ Hs) as [Hs2 Hr3].
  destruct (lookup_lt_is_Some_2 s j) as [x Hx]; [lia|]. rewrite Hx. simpl.
  rewrite Forall_lookup in Hr3. apply lookup_lt_is_Some_2.
  rewrite (Hr3 _ _ Hx). done.
Qed.

(** X2: ten2mat moves values without changing or losing any.  For a row
    [r] and a column [c] within the unfolding, ten2mat returns, and row
    [r], column [c] of the mode-[mode] unfolding holds the entry of the
    tensor at [fold_index]: the row is the index along the axis [mode],
    and of the two other axes the first runs fastest along the row
    (Fortran order). *)
Theorem ten2mat_entries (t : tensor A) (mode : axis) (r c : nat) :
  wf_tensor t → r < axis_len (dims t) mode → c < folded_len (dims t) mode →
  ∃ m x, ten2mat t mode = Ok m ∧ mentry m r c = Some x ∧
         tget t (fold_index mode (dims t) r c) = Some x.
Proof.
  intros Ht Hr Hc. exists (unfolding t mode).
  rewrite ten2mat_Ok by lia.
  rewrite (mentry_unfolding t mode r c Ht Hr Hc).
  assert (is_Some (tget t (fold_index mode (dims t) r c))) as [x Hx].
  { destruct t as [[[d1 d2] d3] sl].
    destruct mode; simpl in *; apply (tget_is_Some _ _ _ _ Ht); simpl;
      try done; try (apply Nat.mod_upper_bound; lia);
      apply Nat.Div0.div_lt_upper_bound; lia. }
  by exists x.
Qed.

(** X3: where each entry of the tensor goes.  For a position (i, j, k) of
    a d1 x d2 x d3 tensor the three unfoldings are returned, and the
    entry is at row i, column j + d2 k of the mode-0 unfolding, at row j,
    column i + d1 k of the mode-1 unfolding and at row k, column i + d1 j
    of the mode-2 unfolding. *)
Theorem ten2mat_columns (t : tensor A) (i j k : nat) :
  wf_tensor t → i < (dims t).1.1 → j < (dims t).1.2 → k < (dims t).2 →
  ∃ m0 m1 m2,
    ten2mat t Axis0 = Ok m0 ∧ ten2mat t Axis1 = Ok m1 ∧
    ten2mat t Axis2 = Ok m2 ∧
    mentry m0 i (j + (dims t).1.2 * k) = tget t (i, j, k) ∧
    mentry m1 j (i + (dims t).1.1 * k) = tget t (i, j, k) ∧
    mentry m2 k (i + (dims t).1.1 * j) = tget t (i, j, k).
Proof.
  intros Ht Hi Hj Hk.
  exists (unfolding t Axis0), (unfolding t Axis1), (unfolding t Axis2).
  rewrite !ten2mat_Ok by (simpl; lia). do 3 (split; [done|]).
  destruct t as [[[d1 d2] d3] sl]. simpl in *.
  assert (∀ a d b, a < d → (a + d * b) `mod` d = a ∧ (a + d * b) `div` d = b) as Hdm.
  { intros a d b Ha. split.
    - symmetry. apply (Nat.mod_unique _ d b a); lia.
    - symmetry. apply (Nat.div_unique _ d b a); lia. }
  split; [|split].
  - rewrite (mentry_unfolding _ Axis0) by (done || simpl; nia).
    simpl. by destruct (Hdm j d2 k Hj) as [-> ->].
  - rewrite (mentry_unfolding _ Axis1) by (done || simpl; nia).
    simpl. by destruct (Hdm i d1 k Hi) as [-> ->].
  - rewrite (mentry_unfolding _ Axis2) by (done || simpl; nia).
    simpl. by destruct (Hdm i d1 j Hi) as [-> ->].
Qed.
End Unfolding.

Lemma ten2mat_shape_witness :
  ten2mat (Ten (0, 3, 2) [] : tensor nat) Axis0 = Raise ValueError ∧
  ∃ m, ten2mat digits Axis1 = Ok m ∧ wf_matrix m ∧ nrows m = 3 ∧ ncols m = 4.
Proof.
  split.
  - apply (proj1 (ten2mat_shape (Ten (0, 3, 2) []) Axis0
                    ltac:(by repeat constructor))). reflexivity.
  - apply (proj2 (ten2mat_shape digits Axis1 ltac:(by repeat constructor))).
    done.
Defined.

Lemma ten2mat_entries_witness :
  ∃ m x, ten2mat digits Axis1 = Ok m ∧ mentry m 2 3 = Some x ∧
         tget digits (fold_index Axis1 (2, 3, 2) 2 3) = Some x.
Proof.
  apply (ten2mat_entries digits Axis1 2 3);
    [by repeat constructor | simpl; lia | simpl; lia].
Defined.

Lemma ten2mat_columns_witness :
  ∃ m0 m1 m2,
    ten2mat digits Axis0 = Ok m0 ∧ ten2mat digits Axis1 = Ok m1 ∧
    ten2mat digits Axis2 = Ok m2 ∧
    mentry m0 1 (2 + 3 * 1) = tget digits (1, 2, 1) ∧
    mentry m1 2 (1 + 2 * 1) = tget digits (1, 2, 1) ∧
    mentry m2 1 (1 + 2 * 2) = tget digits (1, 2, 1).
Proof.
  apply (ten2mat_columns digits 1 2 1);
    [by repeat constructor | simpl; lia | simpl; lia | simpl; lia].
Defined.

(** * The scatter matrix: cov_mat *)

Section CovMat.
Context {T : Type} `{!Scalar T}.

(** X4: for a well-shaped n x R matrix and a vector of length R, cov_mat
    returns a well-shaped R x R matrix whose entry (a, b) is the inner
    product, as the library behind [@] computes it, of column a and
    column b of the matrix after the vector was subtracted from every
    row: the vector of the r[a] - bar[a] with that of the r[b] - bar[b],
    over the rows r.  This is the scatter about the vector, not divided by
    the number of rows; the order and the rounding of its additions are
    the library's. *)
Theorem cov_mat_entries (mat : matrix T) (mat_bar : list T) :
  wf_matrix mat → length mat_bar = ncols mat →
  ∃ C, cov_mat mat mat_bar = Ok C ∧
       wf_matrix C ∧ nrows C = ncols mat ∧ ncols C = ncols mat ∧
       ∀ a b, a < ncols mat → b < ncols mat →
         mget C a b =
         fdot ((λ r, fsub (vget r a) (vget mat_bar a)) <$> rows mat)
              ((λ r, fsub (vget r b) (vget mat_bar b)) <$> rows mat).
Proof.
  intros Hm Hb. exists (scatter mat mat_bar).
  split; [by apply cov_mat_scatter|]. unfold scatter.
  split; [apply wf_matrix_tabulate|]. split; [done|]. split; [done|].
  intros a b Ha Hb'. by rewrite mget_tabulate.
Qed.

(** X5: when the inner product behind [@] gives the same value for two
    vectors in either order (as a sum of products of a commutative
    multiplication does when both orders add alike, and as the symmetric
    rank-k update does that numpy calls for the product of an array with
    its own transpose), the matrix cov_mat returns is symmetric. *)
Theorem cov_mat_symmetric (mat : matrix T) (mat_bar : list T) (C : matrix T) :
  (∀ u v : list T, fdot u v = fdot v u) →
  wf_matrix mat → length mat_bar = ncols mat →
  cov_mat mat mat_bar = Ok C →
  transpose C = C.
Proof.
  intros Hcomm Hm Hb. rewrite (cov_mat_scatter _ _ Hm Hb). intros [= <-].
  unfold scatter. rewrite transpose_tabulate. apply tabulate_ext.
  intros a b _ _. unfold trf. apply Hcomm.
Qed.

(** X6: cov_mat fails only when the subtraction cannot broadcast: it
    raises ValueError when the length of the vector is neither the number
    of columns nor 1 and the matrix has more than one column or none.
    Otherwise it returns a square matrix; if the matrix has a single
    column, its side is the length of the vector: a longer vector is not
    rejected but broadcast against the column. *)
Theorem cov_mat_defined (mat : matrix T) (mat_bar : list T) :
  (ncols mat = length mat_bar ∨ ncols mat = 1 ∨ length mat_bar = 1 →
     ∃ C, cov_mat mat mat_bar = Ok C ∧ nrows C = ncols C ∧
          ncols C = (if decide (ncols mat = 1) then length mat_bar
                     else ncols mat)) ∧
  (¬ (ncols mat = length mat_bar ∨ ncols mat = 1 ∨ length mat_bar = 1) →
     cov_mat mat mat_bar = Raise ValueError).
Proof.
  unfold cov_mat, mzip_row, bdim. split.
  - intros H. repeat case_decide; try lia; simpl;
      unfold np_matmul, transpose; simpl; rewrite decide_True by done;
      eexists; (split; [done|]); simpl; split; congruence || lia || done.
  - intros H. repeat case_decide; try done; exfalso; apply H; lia.
Qed.
End CovMat.

Lemma Z_fdot_comm (u v : list Z) : fdot u v = fdot v u.
Proof.
  simpl. f_equal. revert v.
  induction u as [|x u IH]; intros [|y v]; simpl; [done..|].
  by rewrite IH, Z.mul_comm.
Qed.

Lemma cov_mat_entries_witness :
  ∃ C, cov_mat Float64.U0 [0.125; 0.375]%float = Ok C ∧
       wf_matrix C ∧ nrows C = 2 ∧ ncols C = 2 ∧
       ∀ a b, a < 2 → b < 2 →
         mget C a b =
         fdot ((λ r, fsub (vget r a) (vget [0.125; 0.375]%float a))
                 <$> rows Float64.U0)
              ((λ r, fsub (vget r b) (vget [0.125; 0.375]%float b))
                 <$> rows Float64.U0).
Proof.
  apply (cov_mat_entries Float64.U0 [0.125; 0.375]%float);
    [by repeat constructor | reflexivity].
Defined.

Lemma cov_mat_symmetric_witness :
  transpose (Mat 2 2 [[2; -1]; [-1; 2]]%Z) = Mat 2 2 [[2; -1]; [-1; 2]]%Z.
Proof.
  apply (cov_mat_symmetric (Mat 3 2 [[1; 2]; [3; 1]; [2; 3]]%Z) [2; 2]%Z).
  - apply Z_fdot_comm.
  - by repeat constructor.
  - reflexivity.
  - reflexivity.
Defined.

Lemma cov_mat_defined_witness :
  (∃ C, cov_mat (Mat 2 1 [[1]; [2]]%Z) [1; 2; 3]%Z = Ok C ∧ ncols C = 3) ∧
  cov_mat (Mat 2 2 [[1; 2]; [3; 4]]%Z) [1; 2; 3]%Z = Raise ValueError.
Proof.
  split.
  - destruct (proj1 (cov_mat_defined (Mat 2 1 [[1]; [2]]%Z) [1; 2; 3]%Z))
      as (C & HC & _ & Hn); [right; left; reflexivity|].
    exists C. split; [exact HC|exact Hn].
  - apply (proj2 (cov_mat_defined (Mat 2 2 [[1; 2]; [3; 4]]%Z) [1; 2; 3]%Z)).
    simpl. lia.
Defined.

(** * The error metrics, and what the samplers of a vector and of tau touch *)

Section Metrics.
Context {T : Type} `{!Scalar T}.

Lemma bdim_Ok_iff m n :
  (m = n ∨ m = 1 ∨ n = 1 → ∃ d, bdim m n = Ok d) ∧
  (¬ (m = n ∨ m = 1 ∨ n = 1) → bdim m n = Raise ValueError).
Proof.
  unfold bdim. split; intros H; repeat case_decide; try done; try by eexists.
  - lia.
  - exfalso. apply H. lia.
  - exfalso. apply H. lia.
  - exfalso. apply H. lia.
Qed.

Lemma length_bzip {A B C} (f : A → B → C) la lb d :
  bdim (length la) (length lb) = Ok d → length (bzip f la lb) = d.
Proof.
  unfold bdim.
  destruct la as [|a [|a' la]], lb as [|b [|b' lb]]; simpl;
    repeat case_decide; intros [= <-]; try done; try lia;
    rewrite ?length_fmap, ?length_zip_with; simpl; lia.
Qed.

(** X7: compute_mape returns whenever the two vectors have the same length
    or one of them has length 1, and raises ValueError otherwise.  For
    vectors of the same length the value is np.sum of the vector of the
    |var - var_hat| / var (in numpy's own order of additions), divided by
    the length of var; no entry is examined for being zero. *)
Theorem compute_mape_defined (var var_hat : list T) :
  (length var = length var_hat →
     compute_mape var var_hat =
     Ok (fdiv (fsum (zip_with (λ x y, fdiv (fabs (fsub x y)) x) var var_hat))
              (of_nat (length var)))) ∧
  (length var = 1 ∨ length var_hat = 1 →
     ∃ x, compute_mape var var_hat = Ok x) ∧
  (¬ (length var = length var_hat ∨ length var = 1 ∨ length var_hat = 1) →
     compute_mape var var_hat = Raise ValueError).
Proof.
  unfold compute_mape, vsub, vzip. split; [|split].
  - intros Hl. rewrite Hl, bdim_same. simpl.
    rewrite length_fmap, length_bzip_same, Hl, bdim_same by done. simpl.
    do 3 f_equal.
    rewrite (bzip_same_length fsub fsub) by done.
    rewrite (bzip_same_length fdiv fdiv)
      by (done || rewrite length_fmap, length_zip_with; lia).
    clear Hl. revert var_hat.
    induction var as [|x var IH]; intros [|y vh]; simpl; try done.
    by rewrite IH.
  - intros H.
    destruct (proj1 (bdim_Ok_iff (length var) (length var_hat))) as [d Hd]; [tauto|].
    rewrite Hd. simpl. rewrite length_fmap, (length_bzip _ _ _ _ Hd).
    destruct (proj1 (bdim_Ok_iff d (length var))) as [d' ->]; [|simpl; by eexists].
    unfold bdim in Hd. repeat case_decide; simplify_eq; lia.
  - intros H. by rewrite (proj2 (bdim_Ok_iff _ _) H).
Qed.

(** X8: compute_rmse returns whenever the two vectors have the same length
    or one of them has length 1, and raises ValueError otherwise.  For
    vectors of the same length the value is the square root of np.sum of
    the vector of the (var - var_hat)^2 (in numpy's own order of
    additions), divided by the length of var. *)
Theorem compute_rmse_defined (var var_hat : list T) :
  (length var = length var_hat →
     compute_rmse var var_hat =
     Ok (fsqrt (fdiv (fsum (zip_with (λ x y, fmul (fsub x y) (fsub x y))
                              var var_hat))
                     (of_nat (length var))))) ∧
  (length var = 1 ∨ length var_hat = 1 →
     ∃ x, compute_rmse var var_hat = Ok x) ∧
  (¬ (length var = length var_hat ∨ length var = 1 ∨ length var_hat = 1) →
     compute_rmse var var_hat = Raise ValueError).
Proof.
  unfold compute_rmse, vsub, vzip. split; [|split].
  - intros Hl. rewrite Hl, bdim_same. simpl. do 4 f_equal.
    rewrite (bzip_same_length fsub fsub) by done.
    clear Hl. revert var_hat.
    induction var as [|x var IH]; intros [|y vh]; simpl; try done.
    by rewrite IH.
  - intros H.
    destruct (proj1 (bdim_Ok_iff (length var) (length var_hat))) as [d ->]; [tauto|].
    simpl. by eexists.
  - intros H. by rewrite (proj2 (bdim_Ok_iff _ _) H).
Qed.
End Metrics.

Lemma concat_zip_with {A B C} (f : A → B → C)
    (la : list (list A)) (lb : list (list B)) :
  Forall2 (λ x y, length x = length y) la lb →
  concat (zip_with (zip_with f) la lb) = zip_with f (concat la) (concat lb).
Proof.
  induction 1 as [|x y la lb Hxy _ IH]; simpl; [done|].
  by rewrite zip_with_app, IH.
Qed.

Lemma flat_tmap {A B} (g : A → B) (t : tensor A) :
  flat (tmap g t) = g <$> flat t.
Proof.
  unfold flat, tmap. simpl. generalize (slabs t). intros l.
  assert (∀ s : list (list A), concat (fmap (M:=list) g <$> s) = g <$> concat s) as Hin.
  { intros s. induction s as [|r s IH]; [done|].
    rewrite fmap_cons. simpl. by rewrite fmap_app, IH. }
  induction l as [|s l IH]; [done|].
  rewrite fmap_cons. simpl. rewrite !concat_app, fmap_app, IH. f_equal.
  apply Hin.
Qed.

Section Flat.
Context {A B C : Type}.

Lemma flat_zip (f : A → B → C) (a : tensor A) (b : tensor B) :
  wf_tensor a → wf_tensor b → dims a = dims b →
  flat (Ten (dims a) (zip_with (zip_with (zip_with f)) (slabs a) (slabs b)))
  = zip_with f (flat a) (flat b).
Proof.
  intros [Ha1 Ha2] [Hb1 Hb2] Hd. unfold flat. simpl. rewrite <- Hd in *.
  assert (Forall2 (λ sa sb, length sa = length sb ∧
                            Forall2 (λ x y, length x = length y) sa sb)
            (slabs a) (slabs b)) as H2.
  { apply Forall2_same_length_lookup_2; [congruence|].
    intros i sa sb Hsa Hsb.
    rewrite Forall_lookup in Ha2. rewrite Forall_lookup in Hb2.
    destruct (Ha2 _ _ Hsa) as [Hl1 Hr1]. destruct (Hb2 _ _ Hsb) as [Hl2 Hr2].
    split; [congruence|].
    apply Forall2_same_length_lookup_2; [congruence|].
    intros j ra rb Hra Hrb.
    rewrite Forall_lookup in Hr1. rewrite Forall_lookup in Hr2.
    rewrite (Hr1 _ _ Hra), (Hr2 _ _ Hrb). done. }
  clear Ha1 Ha2 Hb1 Hb2 Hd.
  rewrite (concat_zip_with (zip_with f)).
  - apply concat_zip_with.
    induction H2 as [|sa sb la lb [_ Hs] _ IH]; simpl; [done|].
    by apply Forall2_app.
  - eapply Forall2_impl; [done|]. by intros sa sb [? _].
Qed.
End Flat.

Section Footprints.
Context {T G : Type} `{!Scalar T} `{!Extern T G}.

Lemma mvnrnd_pre_world (mu : list T) (Lambda : matrix T) (w : world T G) :
  (mvnrnd_pre mu Lambda w).2
  = World (mats w) (tens w) (normrnd (length mu) (rng w)).2 (stdout w).
Proof.
  unfold mvnrnd_pre. rewrite run_bind. unfold draw at 1.
  destruct (normrnd (length mu) (rng w)) as [z g']. simpl.
  rewrite run_bind_lift.
  destruct (cholesky_upper Lambda) as [C|e]; [|done].
  rewrite run_bind_lift.
  destruct (solve_ut C z) as [y|e]; [|done].
  unfold lift. by destruct (vadd y mu).
Qed.

(** X9: whether it returns or raises, mvnrnd_pre takes from the random
    generator exactly one vector of len(mu) standard normal variates, and
    it prints nothing.  A precision matrix that Cholesky rejects therefore
    still advances the generator. *)
Theorem mvnrnd_pre_footprint (mu : list T) (Lambda : matrix T) (w : world T G) :
  rng (mvnrnd_pre mu Lambda w).2 = (normrnd (length mu) (rng w)).2 ∧
  stdout (mvnrnd_pre mu Lambda w).2 = stdout w.
Proof. by rewrite mvnrnd_pre_world. Qed.

(** X10: for arrays of one shape, sample_precision_tau is one draw from
    the gamma distribution with shape 1e-6 + (number of observed entries)
    / 2 and scale 1 / (1e-6 + s / 2), where s is np.sum of the array of
    the residual^2 * mask, its entries taken in row-major order and added
    in numpy's own order. *)
Theorem sample_precision_tau_gamma (sparse_tensor tensor_hat : tensor T)
    (ind : tensor bool) (w : world T G) :
  wf_tensor sparse_tensor → wf_tensor tensor_hat → wf_tensor ind →
  dims tensor_hat = dims sparse_tensor → dims ind = dims sparse_tensor →
  sample_precision_tau sparse_tensor tensor_hat ind w =
  draw_or_raise
    (gamma_rvs
       (fadd fmicro
          (fmul fhalf (of_nat (length (filter (λ b : bool, b = true) (flat ind))))))
       (fdiv fone
          (fadd fmicro
             (fmul fhalf
                (fsum (zip_with (λ e (b : bool), fmul e (of_bool b))
                         (zip_with (λ x y, fmul (fsub x y) (fsub x y))
                            (flat sparse_tensor) (flat tensor_hat))
                         (flat ind))))))) w.
Proof.
  intros Hs Ht Hi Hd1 Hd2. unfold sample_precision_tau.
  rewrite (tzip_same_shape fsub _ _ Hs Ht) by done.
  rewrite (run_bind_lift_ok _ _ _ _ eq_refl).
  set (d := Ten _ _).
  assert (wf_tensor (tmap (λ x, fmul x x) d) ∧ dims (tmap (λ x, fmul x x) d)
          = dims sparse_tensor) as [Hwd Hdd].
  { split; [|done]. apply wf_tmap. subst d.
    destruct Hs as [Hs1 Hs2], Ht as [Ht1 Ht2]. rewrite Hd1 in *.
    split; simpl.
    - rewrite length_zip_with. lia.
    - apply Forall_lookup. intros i s Hsl.
      apply lookup_zip_with_Some in Hsl as (sa & sb & -> & Ha & Hb).
      rewrite Forall_lookup in Hs2. rewrite Forall_lookup in Ht2.
      destruct (Hs2 _ _ Ha) as [Hl1 Hr1]. destruct (Ht2 _ _ Hb) as [Hl2 Hr2].
      split; [rewrite length_zip_with; lia|].
      apply Forall_lookup. intros j r Hr.
      apply lookup_zip_with_Some in Hr as (ra & rb & -> & Hra & Hrb).
      rewrite Forall_lookup in Hr1. rewrite Forall_lookup in Hr2.
      rewrite length_zip_with, (Hr1 _ _ Hra), (Hr2 _ _ Hrb). lia. }
  rewrite (tzip_same_shape _ _ _ Hwd Hi) by congruence.
  rewrite (run_bind_lift_ok _ _ _ _ eq_refl).
  unfold tsum, count_true. fold (flat ind).
  match goal with
  | |- context [concat (concat (slabs ?t))] => change (concat (concat (slabs t))) with (flat t)
  end.
  rewrite (flat_zip _ _ _ Hwd Hi) by congruence.
  rewrite flat_tmap. subst d. rewrite (flat_zip fsub _ _ Hs Ht) by done.
  assert (∀ la lb : list T,
            (λ x, fmul x x) <$> zip_with fsub la lb
            = zip_with (λ x y, fmul (fsub x y) (fsub x y)) la lb) as Hsq.
  { intros la. induction la as [|x la IH]; intros [|y lb]; simpl; try done.
    by rewrite IH. }
  by rewrite Hsq.
Qed.

(** X11: sample_precision_tau prints nothing and leaves every array object
    as it was, whatever it does.  If the shapes of the sparse tensor and of
    the estimate cannot be broadcast it raises ValueError and does not draw:
    the generator is not advanced. *)
Theorem sample_precision_tau_footprint (sparse_tensor tensor_hat : tensor T)
    (ind : tensor bool) (w : world T G) :
  mats (sample_precision_tau sparse_tensor tensor_hat ind w).2 = mats w ∧
  tens (sample_precision_tau sparse_tensor tensor_hat ind w).2 = tens w ∧
  stdout (sample_precision_tau sparse_tensor tensor_hat ind w).2 = stdout w ∧
  (bshape3 (dims sparse_tensor) (dims tensor_hat) = Raise ValueError →
     sample_precision_tau sparse_tensor tensor_hat ind w = (Raise ValueError, w)).
Proof.
  unfold sample_precision_tau.
  destruct (tzip fsub sparse_tensor tensor_hat) as [d|e] eqn:Hd; simpl.
  - rewrite (run_bind_lift_ok _ _ _ _ eq_refl).
    destruct (tzip _ (tmap _ d) ind) as [e|e']; simpl.
    + rewrite (run_bind_lift_ok _ _ _ _ eq_refl). unfold draw_or_raise.
      destruct (gamma_rvs _ _ _). simpl. do 3 (split; [done|]).
      intros Hb. unfold tzip in Hd. by rewrite Hb in Hd.
    + do 3 (split; [done|]).
      intros Hb. unfold tzip in Hd. by rewrite Hb in Hd.
  - do 3 (split; [done|]). intros Hb. unfold tzip in Hd. rewrite Hb in Hd.
    simpl in Hd. by injection Hd as <-.
Qed.
End Footprints.

Lemma sample_precision_tau_gamma_witness :
  ∃ alpha scale,
    sample_precision_tau (nan_to_zero Float64.sparse0)
      (Ten (2, 2, 2) [[[0; 2]; [3; 4]]; [[5; 6]; [7; 6]]]%float)
      (tmap (λ x, negb (fisnan x)) Float64.sparse0) Float64.world0
    = draw_or_raise (gamma_rvs alpha scale) Float64.world0 ∧
    alpha = fadd fmicro (fmul fhalf (of_nat 6)) ∧
    scale = fdiv fone (fadd fmicro (fmul fhalf (of_nat (1 + 4)))).
Proof.
  eexists _, _. split.
  - apply (sample_precision_tau_gamma (T:=float) (G:=nat));
      try reflexivity; by repeat constructor.
  - split; vm_compute; reflexivity.
Defined.

Lemma compute_mape_defined_witness :
  compute_mape [2; 4]%float [1; 5]%float = Ok 0.375%float ∧
  compute_mape [1; 2; 3]%float [1; 2]%float = Raise ValueError.
Proof.
  split.
  - etrans.
    + apply (proj1 (compute_mape_defined [2; 4]%float [1; 5]%float)).
      reflexivity.
    + vm_compute. reflexivity.
  - apply (proj2 (proj2 (compute_mape_defined [1; 2; 3]%float [1; 2]%float))).
    simpl. lia.
Defined.

Lemma compute_rmse_defined_witness :
  compute_rmse [2; 4]%float [2; 2]%float = Ok (PrimFloat.sqrt 2%float) ∧
  compute_rmse [1; 2; 3]%float [1; 2]%float = Raise ValueError.
Proof.
  split.
  - etrans.
    + apply (proj1 (compute_rmse_defined [2; 4]%float [2; 2]%float)).
      reflexivity.
    + vm_compute. reflexivity.
  - apply (proj2 (proj2 (compute_rmse_defined [1; 2; 3]%float [1; 2]%float))).
    simpl. lia.
Defined.

Lemma sample_precision_tau_footprint_witness :
  sample_precision_tau Float64.dense0 (tzeros (3, 2, 2))
    (tmap (λ x, negb (fisnan x)) Float64.sparse0) Float64.world0
  = (Raise ValueError, Float64.world0).
Proof.
  apply (sample_precision_tau_footprint (T:=float) (G:=nat)). reflexivity.
Defined.

(** * What BPTF and its samplers change, and the edges of a run *)

Section Frame.
Context {T G : Type} `{!Scalar T} `{!Extern T G}.
Local Abbreviation M := (M T G).

Global Instance changed_only_po ms ts : PreOrder (changed_only (T:=T) (G:=G) ms ts).
Proof.
  split.
  - by intros w.
  - intros w1 w2 w3 (H1 & H2 & H3) (H4 & H5 & H6). split; [|split].
    + intros l Hl. by rewrite H4, H1.
    + intros l Hl. by rewrite H5, H2.
    + intros l. by rewrite H6, H3.
Qed.

Global Instance changed_only_frames ms ts : Frames (changed_only (T:=T) (G:=G) ms ts).
Proof.
  intros w w' [H1 H2]. split; [|split]; intros l; by rewrite ?H1, ?H2.
Qed.

Lemma changed_only_mono ms ms' ts ts' (w w' : world T G) :
  ms ⊆ ms' → ts ⊆ ts' → changed_only ms ts w w' → changed_only ms' ts' w w'.
Proof.
  intros Hm Ht (H1 & H2 & H3). split; [|split]; [| |done].
  - intros l Hl. apply H1. intros ?. apply Hl. by apply Ht.
  - intros l Hl. apply H2. intros ?. apply Hl. by apply Hm.
Qed.

Lemma changed_only_shapes ms (w w' : world T G) :
  same_shapes w w' → (∀ l, l ∉ ms → mats w' !! l = mats w !! l) →
  changed_only ms [] w w'.
Proof. intros [H1 H2] H3. split; [|done]. intros l _. by rewrite H1. Qed.

Lemma frame_assign_row ms ts l i v :
  l ∈ ms → preserves (changed_only (T:=T) (G:=G) ms ts) (assign_row l i v).
Proof.
  intros Hl w r w' Hrun.
  pose proof (preserves_assign_row l i v w r w' Hrun) as [Ht Hs].
  split; [|split]; [by intros; rewrite Ht| |done].
  intros l' Hl'. revert Hrun. unfold assign_row.
  rewrite run_bind. unfold read_mat at 1.
  destruct (mats w !! l) as [m|] eqn:Hm; simpl; [|by intros [= _ <-]].
  rewrite run_bind, run_lift.
  destruct (set_row m i v) as [m'|] eqn:Hset; [|by intros [= _ <-]].
  intros [= _ <-]. simpl. rewrite lookup_insert_ne; [done|]. by intros ->.
Qed.

Lemma preserves_bind_lift_ok {A B} (R : relation (world T G)) (a : A)
    (k : A → M B) :
  preserves R (k a) → preserves R (lift (Ok a) ≫= k).
Proof. intros Hk w r w'. rewrite (run_bind_lift_ok _ _ _ _ eq_refl). apply Hk. Qed.

Lemma frame_write_ten ms ts l t :
  l ∈ ts → preserves (changed_only (T:=T) (G:=G) ms ts) (write_ten l t).
Proof.
  intros Hl w r w' [= _ <-]. split; [|done]. simpl.
  intros l' Hl'. rewrite lookup_insert_ne; [done|]. by intros ->.
Qed.
End Frame.

Ltac frame_step :=
  lazymatch goal with
  | |- preserves _ (mvnrnd_pre _ _) => apply preserves_mvnrnd_pre; apply _
  | |- preserves _ (entity_hyper _ _) => apply preserves_entity_hyper; apply _
  | |- preserves _ (read_row _ _) => apply preserves_read_row; apply _
  | |- preserves _ (assign_row _ _ _) => apply frame_assign_row; set_solver
  | |- preserves _ (write_ten _ _) => apply frame_write_ten; set_solver
  | |- preserves _ (sample_precision_tau _ _ _) =>
      apply preserves_sample_precision_tau; apply _
  | _ => preserves_step
  end.

Section FrameSamplers.
Context {T G : Type} `{!Scalar T} `{!Extern T G}.

Lemma frame_sample_factor_u ms ts tst tind U V X beta0 :
  U ∈ ms →
  preserves (changed_only (T:=T) (G:=G) ms ts) (sample_factor_u tst tind U V X beta0).
Proof.
  intros HU. unfold sample_factor_u, resample_row. repeat frame_step.
Qed.

Lemma frame_sample_factor_v ms ts tst tind U V X beta0 :
  V ∈ ms →
  preserves (changed_only (T:=T) (G:=G) ms ts) (sample_factor_v tst tind U V X beta0).
Proof.
  intros HV. unfold sample_factor_v, resample_row. repeat frame_step.
Qed.

Lemma frame_sample_factor_x ms ts tst tind U V X beta0 :
  X ∈ ms →
  preserves (changed_only (T:=T) (G:=G) ms ts) (sample_factor_x tst tind U V X beta0).
Proof.
  intros HX. unfold sample_factor_x, resample_step. repeat frame_step.
Qed.

Lemma frame_sweep ms ts ls U V X ind pos dt burn c it :
  U ∈ ms → V ∈ ms → X ∈ ms →
  preserves (changed_only (T:=T) (G:=G) ms ts) (sweep ls U V X ind pos dt burn c it).
Proof.
  intros HU HV HX. unfold sweep.
  repeat lazymatch goal with
         | |- preserves _ (sample_factor_u _ _ _ _ _ _) =>
             by apply frame_sample_factor_u
         | |- preserves _ (sample_factor_v _ _ _ _ _ _) =>
             by apply frame_sample_factor_v
         | |- preserves _ (sample_factor_x _ _ _ _ _ _) =>
             by apply frame_sample_factor_x
         | _ => frame_step
         end.
Qed.

Lemma frame_prepare ms ts ld ls :
  ls ∈ ts → preserves (changed_only (T:=T) (G:=G) ms ts) (prepare ld ls).
Proof.
  intros Hls. unfold prepare.
  repeat lazymatch goal with
         | |- preserves _ (if negb _ then _ else _) => destruct (negb _)
         | _ => frame_step
         end.
Qed.

Lemma frame_BPTF ld ls init burn gibbs U V X :
  init !! "U" = Some U → init !! "V" = Some V → init !! "X" = Some X →
  preserves (changed_only (T:=T) (G:=G) [U; V; X] [ls])
    (BPTF ld ls init burn gibbs).
Proof.
  intros HU HV HX. unfold BPTF. rewrite HU, HV, HX. simpl.
  apply preserves_bind; [apply _|apply preserves_read_ten; apply _|intros sp].
  do 3 apply preserves_bind_lift_ok.
  repeat lazymatch goal with
         | |- preserves _ (prepare _ _) => apply frame_prepare; set_solver
         | |- preserves _ (sweep _ _ _ _ _ _ _ _ _ _) =>
             apply frame_sweep; set_solver
         | _ => frame_step
         end.
Qed.

(** X12: whatever a sampler does, return or raise, it changes no array
    object but its own factor matrix, and no shape: sample_factor_u leaves
    V, X and every 3-D object as they were and keeps the shape of U, and
    likewise sample_factor_v for V and sample_factor_x for X. *)
Theorem samplers_change_own_factor tst tind U V X beta0 (w : world T G) :
  changed_only [U] [] w (sample_factor_u tst tind U V X beta0 w).2 ∧
  changed_only [V] [] w (sample_factor_v tst tind U V X beta0 w).2 ∧
  changed_only [X] [] w (sample_factor_x tst tind U V X beta0 w).2.
Proof.
  split; [|split].
  - destruct (sample_factor_u tst tind U V X beta0 w) as [r w'] eqn:Hrun.
    apply (frame_sample_factor_u [U] [] tst tind U V X beta0
             ltac:(set_solver) w r w' Hrun).
  - destruct (sample_factor_v tst tind U V X beta0 w) as [r w'] eqn:Hrun.
    apply (frame_sample_factor_v [V] [] tst tind U V X beta0
             ltac:(set_solver) w r w' Hrun).
  - destruct (sample_factor_x tst tind U V X beta0 w) as [r w'] eqn:Hrun.
    apply (frame_sample_factor_x [X] [] tst tind U V X beta0
             ltac:(set_solver) w r w' Hrun).
Qed.

(** X13: whatever BPTF does, return or raise, the only array objects it
    changes are the sparse tensor and the three factor matrices that init
    names; every other object (the dense tensor, if it is another object
    than the sparse tensor) is as it was, and every 2-D object has kept
    its shape. *)
Theorem BPTF_changes_only_its_arguments dense_tensor sparse_tensor
    (init : gmap string loc) burn_iter gibbs_iter U V X (w : world T G) :
  init !! "U" = Some U → init !! "V" = Some V → init !! "X" = Some X →
  changed_only [U; V; X] [sparse_tensor] w
    (BPTF dense_tensor sparse_tensor init burn_iter gibbs_iter w).2.
Proof.
  intros HU HV HX.
  destruct (BPTF dense_tensor sparse_tensor init burn_iter gibbs_iter w)
    as [r w'] eqn:Hrun.
  by apply (frame_BPTF dense_tensor sparse_tensor init burn_iter gibbs_iter U V X
              HU HV HX w r w').
Qed.
End FrameSamplers.

Section Edges.
Context {T G : Type} `{!Scalar T} `{!Extern T G}.
Local Abbreviation M := (M T G).

(** X14: if init lacks one of the keys "U", "V", "X", BPTF raises KeyError
    at once: nothing has been modified, the NaN of the sparse tensor
    included, and nothing has been drawn or printed. *)
Theorem BPTF_missing_key dense_tensor sparse_tensor (init : gmap string loc)
    burn_iter gibbs_iter (w : world T G) sp :
  tens w !! sparse_tensor = Some sp →
  init !! "U" = None ∨ init !! "V" = None ∨ init !! "X" = None →
  BPTF dense_tensor sparse_tensor init burn_iter gibbs_iter w
    = (Raise KeyError, w).
Proof.
  intros Hsp Hkey. unfold BPTF.
  rewrite run_bind, (run_read_ten _ _ _ Hsp). simpl.
  destruct (init !! "U") as [U|]; simpl; [|done].
  rewrite (run_bind_lift_ok _ _ _ _ eq_refl).
  destruct (init !! "V") as [V|]; simpl; [|done].
  rewrite (run_bind_lift_ok _ _ _ _ eq_refl).
  destruct (init !! "X") as [X|]; simpl; [|done].
  by destruct Hkey as [?|[?|?]].
Qed.

End Edges.

Lemma BPTF_missing_key_witness :
  BPTF 0 1 init_no_X 1 1 Float64.world0 = (Raise KeyError, Float64.world0).
Proof.
  apply (BPTF_missing_key 0 1 init_no_X 1 1 Float64.world0 Float64.sparse0).
  - reflexivity.
  - right. right. reflexivity.
Defined.

Lemma BPTF_changes_only_its_arguments_witness :
  changed_only [0; 1; 2] [1] Float64.world0
    (BPTF 0 1 Float64.init0 1 1 Float64.world0).2.
Proof.
  apply (BPTF_changes_only_its_arguments 0 1 Float64.init0 1 1 0 1 2);
    reflexivity.
Defined.

Section Outputs.
Context {T G : Type} `{!Scalar T} `{!Extern T G}.
Local Abbreviation M := (M T G).

Lemma gather_Forall2 {A} (t : tensor A) pos h :
  gather t pos = Ok h → Forall2 (λ p x, tget t p = Some x) pos h.
Proof.
  unfold gather. revert h. induction pos as [|p pos IH]; intros h; simpl.
  - by intros [= <-].
  - destruct (tget t p) as [x|] eqn:Hx; simpl; [|done].
    destruct (mapM _ pos) as [l|] eqn:Hl; simpl; [|done].
    intros [= <-]. constructor; [done|]. by apply IH.
Qed.

(** X16: the reference values BPTF keeps for its error metrics are the
    entries of the dense tensor at the held-out positions, in the same
    order, and none of them is zero: compute_mape never divides by a zero
    reference value.  (The dense and the sparse tensor must be two
    objects: the values are read after the NaN of the sparse tensor were
    overwritten.) *)
Theorem held_out_values_nonzero (w w' : world T G)
    (dense_tensor sparse_tensor : loc) (dn sp : tensor T) ind pos_test dense_test :
  dense_tensor ≠ sparse_tensor →
  tens w !! dense_tensor = Some dn →
  tens w !! sparse_tensor = Some sp →
  wf_tensor dn → wf_tensor sp → dims dn = dims sp →
  prepare dense_tensor sparse_tensor w = (Ok (ind, pos_test, dense_test), w') →
  Forall2 (λ p x, tget dn p = Some x ∧ fneqb x fzero = true) pos_test dense_test.
Proof.
  intros Hne Hdn Hsp Hwd Hws Hd Hrun.
  destruct (prepare_spec w dense_tensor sparse_tensor dn sp Hdn Hsp Hwd Hws Hd)
    as (ind' & pos' & dt' & w'' & Hrun' & Hnan & Hnonan).
  rewrite Hrun in Hrun'. injection Hrun' as <- <- <- <-.
  assert (∀ p, p ∈ pos_test →
            ∃ x, tget dn p = Some x ∧ fneqb x fzero = true) as Hpos.
  { intros p Hp. destruct (any_nan sp) eqn:Hn.
    - destruct (Hnan eq_refl) as (_ & Hc & _).
      apply Hc in Hp as (x & y & ? & _ & ? & _). by exists x.
    - destruct (Hnonan eq_refl) as (_ & Hc & _).
      apply Hc in Hp as (x & y & ? & _ & ? & _). by exists x. }
  assert (gather dn pos_test = Ok dense_test) as Hg.
  { revert Hrun. unfold prepare. intros H.
    apply bind_Ok in H as (sp' & ? & Hsp' & H).
    apply bind_Ok in H as ([ind' pos'] & w1 & Hbr & H).
    apply bind_Ok in H as (dn' & ? & Hdn' & H).
    apply bind_Ok in H as (dt' & ? & Hdt & H). apply lift_Ok in Hdt as [Hdt ->].
    apply ret_Ok in H as [[= -> -> ->] ->].
    unfold read_ten in Hdn'. injection Hdn' as Hdn' <-.
    apply or_raise_Ok in Hdn'.
    assert (tens w1 !! dense_tensor = tens w !! dense_tensor) as Hsame.
    { unfold read_ten in Hsp'. injection Hsp' as _ <-.
      destruct (negb (any_nan sp')).
      - apply bind_Ok in Hbr as (? & ? & [= _ <-] & Hbr).
        apply bind_Ok in Hbr as (? & ? & Ht & Hbr). apply lift_Ok in Ht as [_ ->].
        by apply ret_Ok in Hbr as [_ ->].
      - apply bind_Ok in Hbr as (? & ? & [= _ <-] & Hbr).
        apply bind_Ok in Hbr as (? & ? & Ht & Hbr). apply lift_Ok in Ht as [_ ->].
        apply bind_Ok in Hbr as ([] & ? & [= <-] & Hbr).
        apply ret_Ok in Hbr as [_ ->]. simpl. by rewrite lookup_insert_ne. }
    congruence. }
  apply gather_Forall2 in Hg. clear Hrun Hnan Hnonan.
  induction Hg as [|p x pos dt Hx _ IH]; constructor.
  - split; [done|].
    destruct (Hpos p) as (x' & Hx' & Hnz); [by left|]. congruence.
  - apply IH. intros q Hq. apply Hpos. by right.
Qed.
End Outputs.

Section OutputShape.
Context {T G : Type} `{!Scalar T} `{!Extern T G}.
Local Abbreviation M := (M T G).

(** X17: for well-shaped inputs (dense and sparse tensor of one shape
    d1 x d2 x d3, factor matrices with d1, d2 and d3 rows), the tensor BPTF
    returns is well-shaped and has the shape of the sparse tensor. *)
Theorem BPTF_output_shape dense_tensor sparse_tensor (init : gmap string loc)
    burn_iter gibbs_iter (w w' : world T G) dn sp U V X tensor_hat :
  tens w !! dense_tensor = Some dn → tens w !! sparse_tensor = Some sp →
  wf_tensor dn → wf_tensor sp → dims dn = dims sp →
  init !! "U" = Some U → init !! "V" = Some V → init !! "X" = Some X →
  has_rows w U (dims sp).1.1 → has_rows w V (dims sp).1.2 →
  has_rows w X (dims sp).2 →
  BPTF dense_tensor sparse_tensor init burn_iter gibbs_iter w
    = (Ok tensor_hat, w') →
  wf_tensor tensor_hat ∧ dims tensor_hat = dims sp.
Proof.
  intros Hdn Hsp Hwd Hws Hd HU HV HX HrU HrV HrX H.
  destruct (BPTF_Ok _ _ _ _ _ _ _ _ H)
    as (sp' & U' & V' & X' & ind & pos & dt & w0 & c & wN &
        Hsp' & HU' & HV' & HX' & Hprep & Hloop & -> & _).
  assert (sp' = sp) as -> by congruence.
  assert (U' = U) as -> by congruence.
  assert (V' = V) as -> by congruence.
  assert (X' = X) as -> by congruence.
  destruct (prepare_valid _ _ _ _ _ Hdn Hsp Hwd Hws Hd)
    as (ind' & pos' & dt' & w0' & Hprep' & Hvalid).
  rewrite Hprep in Hprep'. injection Hprep' as <- <- <- <-.
  pose proof (prepare_dense_test _ _ _ _ _ _ _ Hprep) as Hlen.
  destruct (prepare_Ok _ _ _ _ _ _ _ Hprep) as (_ & _ & Hm0 & Hg0 & _).
  assert (∀ l n, has_rows w l n → has_rows w0 l n) as Hrows.
  { intros l n (m & Hm & ?). exists m. by rewrite Hm0. }
  assert (agree (S sparse_tensor) w0 w0) as Hag by done.
  pose proof (sweeps_lockstep (S sparse_tensor) sparse_tensor U V X ind
                pos pos dt dt burn_iter (dims sp) (seq 0 (burn_iter + gibbs_iter))
                ltac:(lia) Hvalid Hvalid Hlen Hlen
                (chain0 pos (dims sp)) (chain0 pos (dims sp)) w0 w0 Hag) as Hls.
  unfold sweeps in Hloop. rewrite Hloop in Hls.
  destruct Hls as [_ (_ & Hwf & Hdims)].
  - split; [done|]. split; [done|]. simpl. unfold vzeros.
    by rewrite length_replicate.
  - by apply Hrows.
  - by apply Hrows.
  - by apply Hrows.
  - apply wf_tzeros.
  - done.
  - split; [by apply wf_tmap|]. done.
Qed.
End OutputShape.

Lemma BPTF_output_shape_witness :
  ∃ tensor_hat,
    (BPTF 0 1 Float64.init0 1 1 Float64.world0).1 = Ok tensor_hat ∧
    wf_tensor tensor_hat ∧ dims tensor_hat = (2, 2, 2).
Proof.
  eexists. split; [vm_compute; reflexivity|].
  eapply (BPTF_output_shape 0 1 Float64.init0 1 1 Float64.world0 _
            Float64.dense0 Float64.sparse0 0 1 2);
    try reflexivity; try (by repeat constructor).
  - by exists Float64.U0.
  - by exists Float64.V0.
  - by exists Float64.X0.
  - vm_compute. reflexivity.
Defined.

Lemma held_out_values_nonzero_witness :
  Forall2 (λ p x, tget Float64.dense0 p = Some x ∧ fneqb x fzero = true)
    [(0, 0, 1); (1, 1, 0)] [2; 7]%float.
Proof.
  eapply (held_out_values_nonzero Float64.world0 _ 0 1 Float64.dense0
            Float64.sparse0);
    try reflexivity; try (by repeat constructor).
Defined.

(** * The reconstruction and the data terms, entry by entry *)

Section Contributions.
Context {T : Type} `{!Scalar T}.

Lemma vget_lookup (v : list T) a x : v !! a = Some x → vget v a = x.
Proof. intros Hx. unfold vget. by apply nth_lookup_Some. Qed.

Lemma mget_lookup (m : matrix T) i r a :
  rows m !! i = Some r → mget m i a = vget r a.
Proof. intros Hr. unfold mget. by rewrite (nth_lookup_Some _ _ [] _ Hr). Qed.

Lemma mget_default (m : matrix T) r c :
  mget m r c = default fzero (mentry m r c).
Proof.
  unfold mget, mentry, vget.
  destruct (rows m !! r) as [row|] eqn:Hr; simpl.
  - rewrite (nth_lookup_Some _ _ [] _ Hr). by rewrite nth_lookup.
  - rewrite (nth_overflow (rows m)) by by apply lookup_ge_None. by destruct c.
Qed.

Lemma zip_with_tabulate (f : T → T → T) (u v : list T) n :
  length u = n → length v = n →
  zip_with f u v = (λ s, f (vget u s) (vget v s)) <$> seq 0 n.
Proof.
  intros Hu Hv. apply list_eq. intros i.
  rewrite lookup_zip_with, list_lookup_fmap.
  destruct (decide (i < n)) as [Hi|Hi].
  - rewrite lookup_seq_lt by done. simpl.
    destruct (lookup_lt_is_Some_2 u i) as [x Hx]; [lia|].
    destruct (lookup_lt_is_Some_2 v i) as [y Hy]; [lia|].
    rewrite Hx, Hy. simpl. by rewrite (vget_lookup _ _ _ Hx), (vget_lookup _ _ _ Hy).
  - rewrite lookup_seq_ge by lia. rewrite (lookup_ge_None_2 u) by lia. done.
Qed.

Lemma mget_unfolding (t : tensor T) (mode : axis) (r c : nat) :
  wf_tensor t → r < axis_len (dims t) mode → c < folded_len (dims t) mode →
  mget (unfolding t mode) r c = tentry t (fold_index mode (dims t) r c).
Proof.
  intros Ht Hr Hc. rewrite mget_default.
  by rewrite (mentry_unfolding t mode r c Ht Hr Hc).
Qed.

Lemma folded_len_inner_outer (s : shape3) mode :
  folded_len s mode = outer_len s mode * inner_len s mode.
Proof. destruct mode; simpl; lia. Qed.

Lemma kr_prod_tabulate m n p (f g : nat → nat → T) :
  kr_prod (tabulate m p f) (tabulate n p g)
  = Ok (tabulate (m * n) p
          (λ c s, fmul (f (c `div` n) s) (g (c `mod` n) s))).
Proof.
  unfold kr_prod, tabulate. simpl. rewrite decide_True by done.
  f_equal. f_equal.
  set (ls := (λ ra, _) <$> _).
  assert (Forall (λ l : list (list T), length l = n) ls) as Hls.
  { subst ls. apply Forall_fmap, Forall_forall. intros ra _. simpl.
    by rewrite !length_fmap, length_seq. }
  assert (length ls = m) as Hlen.
  { subst ls. by rewrite !length_fmap, length_seq. }
  apply list_eq. intros c. rewrite list_lookup_fmap.
  destruct (decide (c < m * n)) as [Hc|Hc].
  - assert (n ≠ 0) as Hn by (intros ->; lia).
    assert (c `mod` n < n) as Hj by by apply Nat.mod_upper_bound.
    assert (c `div` n < m) as Hk by (apply Nat.Div0.div_lt_upper_bound; lia).
    rewrite lookup_seq_lt by done. simpl.
    rewrite (Nat.div_mod_eq c n) at 1. rewrite Nat.add_comm.
    rewrite (lookup_concat_uniform n) by done.
    subst ls. rewrite !list_lookup_fmap, lookup_seq_lt by done. simpl.
    rewrite !list_lookup_fmap, lookup_seq_lt by done. simpl.
    f_equal. rewrite zip_with_fmap_l, zip_with_fmap_r, zip_with_diag. done.
  - rewrite lookup_seq_ge by lia. simpl. apply lookup_ge_None_2.
    rewrite (length_concat_uniform n) by done. lia.
Qed.

Lemma kr_prod_entries (A B : matrix T) :
  wf_matrix A → wf_matrix B → ncols A = ncols B →
  kr_prod A B
  = Ok (tabulate (nrows A * nrows B) (ncols A) (trf (design_entry A B))).
Proof.
  intros HA HB Hc.
  transitivity (kr_prod (tabulate (nrows A) (ncols A) (mget A))
                        (tabulate (nrows B) (ncols A) (mget B))).
  - rewrite Hc at 2. by rewrite <- !wf_tabulate.
  - by rewrite kr_prod_tabulate.
Qed.

Lemma lookup_chunks {A} k n (l : list A) i :
  i < k → chunks k n l !! i = Some (take n (drop (i * n) l)).
Proof.
  revert l i. induction k as [|k IH]; intros l i Hi; [lia|].
  destruct i as [|i]; simpl; [done|].
  rewrite IH by lia. by rewrite drop_drop.
Qed.

Lemma tget_reshape3_tabulate m n d (f : nat → nat → T) t i j k :
  reshape3 (tabulate (m * n) d f) (m, n, d) = Ok t →
  i < m → j < n → k < d →
  tget t (i, j, k) = Some (f (i * n + j) k).
Proof.
  unfold reshape3. simpl. rewrite decide_True by done.
  intros [= <-] Hi Hj Hk. rewrite tget_Ten. simpl.
  rewrite list_lookup_fmap, lookup_chunks by done. simpl.
  rewrite lookup_chunks by done. simpl.
  rewrite lookup_take_lt by done. rewrite lookup_drop.
  rewrite lookup_take_lt by nia. rewrite lookup_drop.
  replace (i * (n * d) + (j * d + k)) with (k + d * (i * n + j)) by lia.
  rewrite (lookup_concat_uniform d).
  - rewrite list_lookup_fmap, lookup_seq_lt by nia. simpl.
    by rewrite list_lookup_fmap, lookup_seq_lt.
  - apply Forall_fmap, Forall_forall. intros q _. simpl.
    by rewrite length_fmap, length_seq.
  - done.
Qed.

(** X18: the reconstruction np.einsum('is, js, ts -> ijt', U, V, X) of
    factor matrices of one rank R is the i x j x t tensor whose entry
    (i, j, t) is the sum over s < R of (U[i, s] V[j, s]) X[t, s]. *)
Theorem einsum_entries (U V X : matrix T) :
  wf_matrix U → wf_matrix V → wf_matrix X →
  ncols V = ncols U → ncols X = ncols U →
  ∃ t, einsum U V X = Ok t ∧ wf_tensor t ∧
       dims t = (nrows U, nrows V, nrows X) ∧
       ∀ i j k, i < nrows U → j < nrows V → k < nrows X →
         tget t (i, j, k)
         = Some (vsum ((λ s, fmul (fmul (mget U i s) (mget V j s)) (mget X k s))
                         <$> seq 0 (ncols U))).
Proof.
  intros [HU1 HU2] [HV1 HV2] [HX1 HX2] HcV HcX.
  unfold einsum. rewrite HcV, HcX, bdim_same. simpl. rewrite bdim_same. simpl.
  eexists. split; [done|]. split; [|split; [done|]].
  - split; simpl; [by rewrite length_fmap|].
    apply Forall_fmap, Forall_forall. intros u _. simpl.
    split; [by rewrite length_fmap|].
    apply Forall_fmap, Forall_forall. intros v _. simpl.
    by rewrite length_fmap.
  - intros i j k Hi Hj Hk. rewrite tget_Ten. simpl.
    destruct (lookup_lt_is_Some_2 (rows U) i) as [u Hu]; [lia|].
    destruct (lookup_lt_is_Some_2 (rows V) j) as [v Hv]; [lia|].
    destruct (lookup_lt_is_Some_2 (rows X) k) as [x Hx]; [lia|].
    rewrite list_lookup_fmap, Hu. simpl.
    rewrite list_lookup_fmap, Hv. simpl.
    rewrite list_lookup_fmap, Hx. simpl.
    rewrite Forall_lookup in HU2. rewrite Forall_lookup in HV2.
    rewrite Forall_lookup in HX2.
    pose proof (HU2 _ _ Hu) as Hlu. pose proof (HV2 _ _ Hv) as Hlv.
    pose proof (HX2 _ _ Hx) as Hlx.
    rewrite (bzip_same_length fmul fmul u v) by (done || lia).
    rewrite (bzip_same_length fmul fmul _ x)
      by (done || rewrite length_zip_with; lia).
    rewrite (zip_with_tabulate fmul _ x (ncols U))
      by (done || rewrite ?length_zip_with; lia).
    do 2 f_equal. apply list_fmap_ext. intros q s Hs%lookup_seq.
    destruct Hs as [-> Hs]. simpl.
    rewrite (vget_zip_with fmul u v) by lia.
    by rewrite (mget_lookup _ _ _ _ Hu), (mget_lookup _ _ _ _ Hv),
      (mget_lookup _ _ _ _ Hx).
Qed.

(** X19: the linear data term of the three factor samplers,
    kr_prod(A, B).T @ ten2mat(Y, mode).T, pairs every entry of Y with the
    rows of the two other factors that belong to it.  When the axis
    [mode] of Y is empty the unfolding raises ValueError.  Otherwise the
    entry (s, r) of the term is the inner product, as the library behind
    [@] computes it, of the vector of the A[c div nB, s] B[c mod nB, s]
    with the vector of the Y[p_c], over the columns c of the unfolding:
    p_c is the position of Y that the unfolding shows in row r and column
    c, and that position has the index c mod nB along the axis of B and
    c div nB along the axis of A. *)
Theorem linear_contributions_entries (A B : matrix T) (Y : tensor T)
    (mode : axis) :
  wf_matrix A → wf_matrix B → wf_tensor Y → ncols A = ncols B →
  nrows B = inner_len (dims Y) mode → nrows A = outer_len (dims Y) mode →
  (axis_len (dims Y) mode = 0 →
     linear_contributions A B Y mode = Raise ValueError) ∧
  (axis_len (dims Y) mode ≠ 0 →
     linear_contributions A B Y mode
     = Ok (tabulate (ncols A) (axis_len (dims Y) mode) (λ s r,
             fdot (design_entry A B s <$> seq 0 (nrows A * nrows B))
                  ((λ c, tentry Y (fold_index mode (dims Y) r c))
                     <$> seq 0 (nrows A * nrows B))))).
Proof.
  intros HA HB HY Hc HnB HnA.
  unfold linear_contributions, design.
  rewrite (kr_prod_entries A B HA HB Hc). simpl. split.
  - intros H0. unfold ten2mat. by rewrite decide_True.
  - intros H0. rewrite (ten2mat_Ok _ _ H0). simpl.
    destruct (wf_unfolding Y mode HY) as (Hwf & Hr & Hcols).
    rewrite transpose_tabulate, (wf_tabulate _ Hwf), transpose_tabulate.
    rewrite Hr, Hcols, folded_len_inner_outer, <- HnA, <- HnB.
    rewrite np_matmul_tabulate. f_equal. apply tabulate_ext.
    intros s r Hs Hr'. unfold dotf, trf. f_equal.
    apply list_fmap_ext. intros q c [-> Hc']%lookup_seq. simpl.
    apply mget_unfolding; [done..|].
    rewrite folded_len_inner_outer, <- HnA, <- HnB. lia.
Qed.

(** X20: the precision data term of the three factor samplers,
    (kr_prod(var1, var1) @ ten2mat(tau_ind, mode).T).reshape([R, R, n])
    with var1 = kr_prod(A, B).T.  When the axis [mode] of tau_ind is
    empty the unfolding raises ValueError.  Otherwise the term is the
    R x R x n tensor whose entry (s, s', r) is the inner product, as the
    library behind [@] computes it, of the vector of the h_c[s] h_c[s']
    with the vector of the tau_ind[p_c], over the columns c of the
    unfolding, where h_c[s] = A[c div nB, s] B[c mod nB, s] and p_c is the
    position that the unfolding shows in row r and column c: slice r
    weighs the outer products of the h_c with themselves. *)
Theorem precision_contributions_entries (A B : matrix T) (tau_ind : tensor T)
    (mode : axis) :
  wf_matrix A → wf_matrix B → wf_tensor tau_ind → ncols A = ncols B →
  nrows B = inner_len (dims tau_ind) mode →
  nrows A = outer_len (dims tau_ind) mode →
  (axis_len (dims tau_ind) mode = 0 →
     precision_contributions A B tau_ind mode (ncols A)
       (axis_len (dims tau_ind) mode) = Raise ValueError) ∧
  (axis_len (dims tau_ind) mode ≠ 0 →
   ∃ c3,
    precision_contributions A B tau_ind mode (ncols A)
      (axis_len (dims tau_ind) mode) = Ok c3 ∧
    wf_tensor c3 ∧
    dims c3 = (ncols A, ncols A, axis_len (dims tau_ind) mode) ∧
    ∀ s s' r, s < ncols A → s' < ncols A → r < axis_len (dims tau_ind) mode →
      tget c3 (s, s', r)
      = Some (fdot ((λ c, fmul (design_entry A B s c) (design_entry A B s' c))
                      <$> seq 0 (nrows A * nrows B))
                   ((λ c, tentry tau_ind (fold_index mode (dims tau_ind) r c))
                      <$> seq 0 (nrows A * nrows B)))).
Proof.
  intros HA HB HY Hc HnB HnA.
  unfold precision_contributions, design.
  rewrite (kr_prod_entries A B HA HB Hc). simpl.
  rewrite transpose_tabulate, kr_prod_tabulate. simpl. split.
  { intros H0. unfold ten2mat. by rewrite decide_True. }
  intros H0. rewrite (ten2mat_Ok _ _ H0). simpl.
  destruct (wf_unfolding tau_ind mode HY) as (Hwf & Hr & Hcols).
  rewrite (wf_tabulate _ Hwf), transpose_tabulate.
  rewrite Hr, Hcols, folded_len_inner_outer, <- HnA, <- HnB.
  rewrite np_matmul_tabulate. simpl.
  set (R := ncols A). set (n := axis_len _ _).
  destruct (reshape3 _ (R, R, n)) as [c3|e] eqn:Hc3.
  2:{ unfold reshape3 in Hc3. simpl in Hc3. by rewrite decide_True in Hc3. }
  exists c3. split; [done|].
  destruct (wf_reshape3 _ _ _ (wf_matrix_tabulate _ _ _) Hc3) as [Hw Hd].
  do 2 (split; [done|]).
  intros s s' r Hs Hs' Hr'.
  rewrite (tget_reshape3_tabulate _ _ _ _ _ _ _ _ Hc3) by done.
  f_equal. unfold dotf, trf. f_equal.
  - apply list_fmap_ext. intros q c [-> Hc']%lookup_seq. simpl.
    rewrite Nat.div_add_l, Nat.div_small, Nat.add_0_r by lia.
    by rewrite Nat.add_comm, Nat.Div0.mod_add, Nat.mod_small by lia.
  - apply list_fmap_ext. intros q c [-> Hc']%lookup_seq. simpl.
    apply mget_unfolding; [done..|].
    rewrite folded_len_inner_outer, <- HnA, <- HnB. lia.
Qed.

End Contributions.

Lemma einsum_entries_witness :
  ∃ t, einsum U_int V_int X_int = Ok t ∧ tget t (1, 1, 2) = Some 12%Z.
Proof.
  destruct (einsum_entries U_int V_int X_int)
    as (t & Ht & _ & _ & He); try reflexivity; try (by repeat constructor).
  exists t. split; [done|].
  rewrite He by (simpl; lia). reflexivity.
Defined.

Lemma linear_contributions_entries_witness :
  linear_contributions X_int V_int Y_int Axis0
  = Ok (Mat 2 2 [[39; 93]; [14; 32]]%Z).
Proof.
  etrans.
  - apply (proj2 (linear_contributions_entries X_int V_int Y_int Axis0
                    ltac:(by repeat constructor) ltac:(by repeat constructor)
                    ltac:(by repeat constructor) eq_refl eq_refl eq_refl)).
    simpl. lia.
  - vm_compute. reflexivity.
Defined.

Lemma precision_contributions_entries_witness :
  ∃ c3, precision_contributions V_int U_int Y_int Axis2 2 3 = Ok c3 ∧
        tget c3 (0, 1, 2) = Some 312%Z.
Proof.
  destruct (proj2 (precision_contributions_entries V_int U_int Y_int Axis2
                     ltac:(by repeat constructor) ltac:(by repeat constructor)
                     ltac:(by repeat constructor) eq_refl eq_refl eq_refl))
    as (c3 & Hc3 & _ & _ & He); [simpl; lia|].
  exists c3. split; [done|].
  rewrite He by (simpl; lia). reflexivity.
Defined.

(** * The time loop of sample_factor_x, step by step *)

Section TemporalChain.
Context {T G : Type} `{!Scalar T} `{!Extern T G}.
Local Abbreviation M := (M T G).








End TemporalChain.

Section TemporalSampler.
Context {T G : Type} `{!Scalar T} `{!Extern T G}.
Local Abbreviation M := (M T G).



(** the rows sample_factor_x stores, with the draw of its
    hyperparameters *)
Lemma sample_factor_x_chain tst tind U V X beta0 (w w' : world T G) Xm l :
  mats w !! X = Some Xm → length (rows Xm) = nrows Xm →
  sample_factor_x tst tind U V X beta0 w = (Ok l, w') →
  ∃ Um Vm mu L w1 var3 var4 new w2,
    mats w !! U = Some Um ∧ mats w !! V = Some Vm ∧
    temporal_hyper Xm beta0 w = (Ok (mu, L), w1) ∧
    precision_contributions Vm Um tind Axis2 (ncols Xm) (nrows Xm) = Ok var3 ∧
    linear_contributions Vm Um tst Axis2 = Ok var4 ∧
    chain_rows (x_posterior (nrows Xm) var3 var4 mu L) (ncols Xm) (rows Xm)
      (seq 0 (nrows Xm)) None w1 = (Ok new, w2) ∧
    length new = nrows Xm ∧
    w' = set_mats w2 (<[X := Mat (nrows Xm) (ncols Xm) new]> (mats w)) ∧
    l = X.
Proof.
  intros HX Hlen H. unfold sample_factor_x in H.
  rewrite (run_bind_ok _ _ _ _ _ (run_read_mat _ _ _ HX)) in H.
  apply bind_Ok in H as (x0 & ? & Hx0 & H). apply lift_Ok in Hx0 as [Hx0 ->].
  apply bind_Ok in H as (dx & ? & Hdx & H). apply lift_Ok in Hdx as [Hdx ->].
  apply bind_Ok in H as (d2 & ? & Hd2 & H). apply lift_Ok in Hd2 as [Hd2 ->].
  apply bind_Ok in H as (s1 & ? & Hs1 & H). apply lift_Ok in Hs1 as [Hs1 ->].
  apply bind_Ok in H as (s2 & ? & Hs2 & H). apply lift_Ok in Hs2 as [Hs2 ->].
  apply bind_Ok in H as (Vh & ? & HVh & H). apply lift_Ok in HVh as [HVh ->].
  apply bind_Ok in H as (L & w0 & HL & H).
  apply bind_Ok in H as (mu & w1 & Hmu & H).
  assert (temporal_hyper Xm beta0 w = (Ok (mu, L), w1)) as Hhyper.
  { unfold temporal_hyper.
    rewrite (run_bind_lift_ok _ _ _ _ Hx0), (run_bind_lift_ok _ _ _ _ Hdx).
    rewrite (run_bind_lift_ok _ _ _ _ Hd2), (run_bind_lift_ok _ _ _ _ Hs1).
    rewrite (run_bind_lift_ok _ _ _ _ Hs2), (run_bind_lift_ok _ _ _ _ HVh).
    rewrite (run_bind_ok _ _ _ _ _ HL), (run_bind_ok _ _ _ _ _ Hmu).
    done. }
  apply (preserves_draw_or_raise same_arrays) in HL as [HLt HLm].
  apply (preserves_mvnrnd_pre same_arrays) in Hmu as [Hmut Hmum].
  apply bind_Ok in H as (Vm & ? & HV & H).
  unfold read_mat in HV. injection HV as HV <-. apply or_raise_Ok in HV.
  apply bind_Ok in H as (Um & ? & HU & H).
  unfold read_mat in HU. injection HU as HU <-. apply or_raise_Ok in HU.
  apply bind_Ok in H as (var1 & ? & Hvar1 & H). apply lift_Ok in Hvar1 as [Hvar1 ->].
  apply bind_Ok in H as (var2 & ? & Hvar2 & H). apply lift_Ok in Hvar2 as [Hvar2 ->].
  apply bind_Ok in H as (m3 & ? & Hm3 & H). apply lift_Ok in Hm3 as [Hm3 ->].
  apply bind_Ok in H as (p & ? & Hp & H). apply lift_Ok in Hp as [Hp ->].
  apply bind_Ok in H as (var3 & ? & Hvar3 & H). apply lift_Ok in Hvar3 as [Hvar3 ->].
  apply bind_Ok in H as (m4 & ? & Hm4 & H). apply lift_Ok in Hm4 as [Hm4 ->].
  apply bind_Ok in H as (var4 & ? & Hvar4 & H). apply lift_Ok in Hvar4 as [Hvar4 ->].
  apply bind_Ok in H as ([] & w3 & H & Hret). apply ret_Ok in Hret as [-> ->].
  assert (mats w1 = mats w) as Hm1 by congruence.
  destruct (time_loop X Xm var3 var4 mu L w1 _ ltac:(congruence) Hlen H)
    as (new & w2 & Hchain & Hnew & Hw').
  exists Um, Vm, mu, L, w1, var3, var4, new, w2.
  apply result_fmap_Ok in Hvar1 as (k & Hk & ->).
  rewrite <- Hm1. repeat split; try done; try congruence.
  - unfold precision_contributions, design. rewrite Hk. simpl.
    rewrite Hvar2. simpl. rewrite Hm3. simpl. rewrite Hp. simpl. done.
  - unfold linear_contributions, design. rewrite Hk. simpl.
    rewrite Hm4. simpl. done.
Qed.


End TemporalSampler.


(** * What a run leaves in the caller's arrays *)

Section Mutation.
Context {T G : Type} `{!Scalar T} `{!Extern T G}.
Local Abbreviation M := (M T G).

Lemma has_rows_length (w : world T G) l n :
  has_rows w l n → ∃ m, mats w !! l = Some m ∧ length (rows m) = nrows m.
Proof. intros (m & Hm & Hn & Hl). exists m. split; [done|]. congruence. Qed.

(** the three factor updates of a sweep, one after the other *)
Lemma resample_factors_rows ls U V X ind tau0 (w wx : world T G) nU nV nX :
  has_rows w U nU → has_rows w V nV → has_rows w X nX →
  resample_factors ls U V X ind tau0 w = (Ok (), wx) →
  ∃ spz U' V' X' wu wv,
    tens w !! ls = Some spz ∧
    rows_written_u (tscale tau0 spz) (tmap (λ b, fmul tau0 (of_bool b)) ind)
      U V X 1 w U' wu ∧
    rows_written_v (tscale tau0 spz) (tmap (λ b, fmul tau0 (of_bool b)) ind)
      U V X 1 wu V' wv ∧
    rows_written_x (tscale tau0 spz) (tmap (λ b, fmul tau0 (of_bool b)) ind)
      U V X 1 wv X' wx ∧
    mats wx = <[X := X']> (<[V := V']> (<[U := U']> (mats w))).
Proof.
  intros HrU HrV HrX H. unfold resample_factors in H.
  apply bind_Ok in H as (spz & ? & Hsp & H).
  unfold read_ten in Hsp. injection Hsp as Hsp <-. apply or_raise_Ok in Hsp.
  apply bind_Ok in H as (lU & wu & HU & H).
  pose proof (sample_factor_u_loc _ _ _ _ _ _ _ _ _ HU) as ->.
  apply bind_Ok in H as (lV & wv & HV & H).
  pose proof (sample_factor_v_loc _ _ _ _ _ _ _ _ _ HV) as ->.
  apply bind_Ok in H as (lX & wx' & HX & H).
  pose proof (sample_factor_x_loc _ _ _ _ _ _ _ _ _ HX) as ->.
  apply ret_Ok in H as [_ ->].
  pose proof (preserves_sample_factor_u _ _ _ _ _ _ _ _ _ HU) as Hsu.
  pose proof (preserves_sample_factor_v _ _ _ _ _ _ _ _ _ HV) as Hsv.
  destruct (has_rows_length _ _ _ HrU) as (Um & HUm & HUl).
  destruct (has_rows_length _ _ _ (has_rows_same_shapes _ _ _ _ Hsu HrV))
    as (Vm & HVm & HVl).
  destruct (has_rows_length _ _ _
              (has_rows_same_shapes _ _ _ _ Hsv
                 (has_rows_same_shapes _ _ _ _ Hsu HrX)))
    as (Xm & HXm & HXl).
  destruct (sample_factor_u_rows _ _ _ _ _ _ _ _ _ _ HUm HUl HU)
    as (Vm1 & Xm1 & mu1 & L1 & w1 & c3 & c4 & new1 & w2 &
        ? & ? & ? & ? & ? & ? & ? & Hwu & _).
  destruct (sample_factor_v_rows _ _ _ _ _ _ _ _ _ _ HVm HVl HV)
    as (Um2 & Xm2 & mu2 & L2 & w3 & c3' & c4' & new2 & w4 &
        ? & ? & ? & ? & ? & ? & ? & Hwv & _).
  destruct (sample_factor_x_chain _ _ _ _ _ _ _ _ _ _ HXm HXl HX)
    as (Um3 & Vm3 & mu3 & L3 & w5 & var3 & var4 & new3 & w6 &
        ? & ? & ? & ? & ? & ? & ? & Hwx & _).
  exists spz, (Mat (nrows Um) (ncols Um) new1), (Mat (nrows Vm) (ncols Vm) new2),
    (Mat (nrows Xm) (ncols Xm) new3), wu, wv.
  split; [done|]. split; [|split; [|split]].
  - by exists Um, Vm1, Xm1, mu1, L1, w1, c3, c4, new1, w2.
  - by exists Um2, Vm, Xm2, mu2, L2, w3, c3', c4', new2, w4.
  - by exists Um3, Vm3, Xm, mu3, L3, w5, var3, var4, new3, w6.
  - rewrite Hwx. simpl. rewrite Hwv. simpl. rewrite Hwu. done.
Qed.

(** C9: BPTF works on its caller's objects.  Once it has returned, the
    caller's sparse tensor holds zero wherever it held NaN (and is
    untouched if it held none); it is written before the first sweep and
    not again.  The objects that init gives for U, V and X are written
    row by row in every sweep: after the run each of them holds the
    matrix whose rows are the values drawn for it in the last sweep, by
    sample_factor_u, then sample_factor_v, then sample_factor_x, each
    starting from the store the one before left; they hold the initial
    matrices only if no sweep was run. *)
Theorem BPTF_mutates_inputs dense_tensor sparse_tensor init
    burn_iter gibbs_iter (w w' : world T G) tensor_hat U V X nU nV nX :
  init !! "U" = Some U → init !! "V" = Some V → init !! "X" = Some X →
  has_rows w U nU → has_rows w V nV → has_rows w X nX →
  BPTF dense_tensor sparse_tensor init burn_iter gibbs_iter w
    = (Ok tensor_hat, w') →
  ∃ sp ind pos_test dense_test w0,
    tens w !! sparse_tensor = Some sp ∧
    prepare dense_tensor sparse_tensor w
      = (Ok (ind, pos_test, dense_test), w0) ∧
    tens w0 = tens w' ∧
    (any_nan sp = true →
       tens w' = <[sparse_tensor := nan_to_zero sp]> (tens w)) ∧
    (any_nan sp = false → tens w' = tens w) ∧
    (burn_iter + gibbs_iter = 0 → mats w' = mats w) ∧
    ∀ n, burn_iter + gibbs_iter = S n →
      ∃ c wn spz U' V' X' wu wv wx,
        sweeps sparse_tensor U V X ind pos_test dense_test burn_iter
          (dims sp) n w0 = (Ok c, wn) ∧
        tens wn !! sparse_tensor = Some spz ∧
        rows_written_u (tscale (tau c) spz)
          (tmap (λ b, fmul (tau c) (of_bool b)) ind) U V X 1 wn U' wu ∧
        rows_written_v (tscale (tau c) spz)
          (tmap (λ b, fmul (tau c) (of_bool b)) ind) U V X 1 wu V' wv ∧
        rows_written_x (tscale (tau c) spz)
          (tmap (λ b, fmul (tau c) (of_bool b)) ind) U V X 1 wv X' wx ∧
        mats w' = <[X := X']> (<[V := V']> (<[U := U']> (mats wn))).
Proof.
  intros HU HV HX HrU HrV HrX H.
  destruct (BPTF_Ok _ _ _ _ _ _ _ _ H)
    as (sp & U0 & V0 & X0 & ind & pos & dt & w0 & c & wN &
        Hsp & HU' & HV' & HX' & Hprep & Hloop & _ & Hm & Ht & _).
  assert (U0 = U) as -> by congruence.
  assert (V0 = V) as -> by congruence.
  assert (X0 = X) as -> by congruence.
  exists sp, ind, pos, dt, w0. do 2 (split; [done|]).
  destruct (prepare_Ok _ _ _ _ _ _ _ Hprep)
    as (sp' & Hsp' & Hm0 & _ & _ & Ht0 & _).
  assert (sp' = sp) as -> by congruence.
  destruct (preserves_sweeps _ _ _ _ _ _ _ _ _ _ _ _ _ Hloop) as [HtN _].
  split; [congruence|]. split; [|split; [|split]].
  - intros Hnan. rewrite Hnan in Ht0. congruence.
  - intros Hnan. rewrite Hnan in Ht0. congruence.
  - intros H0. rewrite H0 in Hloop. apply ret_Ok in Hloop as [_ ->]. congruence.
  - intros n Hn. rewrite Hn, sweeps_S in Hloop.
    apply bind_Ok in Hloop as (c' & wn & Hpre & Hlast).
    destruct (sweep_factors _ _ _ _ _ _ _ _ _ _ _ _ _ Hlast) as (wx & Hx & Hmx & _).
    pose proof (preserves_sweeps _ _ _ _ _ _ _ _ _ _ _ _ _ Hpre) as Hsh.
    assert (∀ l k, has_rows w l k → has_rows wn l k) as Hrows.
    { intros l k (m & Hl & ?). apply (has_rows_same_shapes _ _ _ _ Hsh).
      exists m. by rewrite Hm0. }
    destruct (resample_factors_rows _ _ _ _ _ _ _ _ _ _ _
                (Hrows _ _ HrU) (Hrows _ _ HrV) (Hrows _ _ HrX) Hx)
      as (spz & U' & V' & X' & wu & wv & Hspz & Hu & Hv & Hxx & Hmats).
    exists c', wn, spz, U', V', X', wu, wv, wx.
    do 5 (split; [done|]). congruence.
Qed.

End Mutation.

(** after the 2 x 2 x 2 run of two sweeps the sparse tensor holds zeros for
    its two NaN, and the three factor matrices hold the rows drawn in the
    second sweep, which are not the initial ones *)
Lemma BPTF_mutates_inputs_witness :
  tens (BPTF 0 1 Float64.init0 1 1 Float64.world0).2
    = <[1 := nan_to_zero Float64.sparse0]> (tens Float64.world0) ∧
  ∃ c wn spz U' V' X' wu wv wx,
    rows_written_u (tscale (tau c) spz)
      (tmap (λ b, fmul (tau c) (of_bool b))
         (tmap (λ x, negb (fisnan x)) Float64.sparse0)) 0 1 2 1 wn U' wu ∧
    rows_written_v (tscale (tau c) spz)
      (tmap (λ b, fmul (tau c) (of_bool b))
         (tmap (λ x, negb (fisnan x)) Float64.sparse0)) 0 1 2 1 wu V' wv ∧
    rows_written_x (tscale (tau c) spz)
      (tmap (λ b, fmul (tau c) (of_bool b))
         (tmap (λ x, negb (fisnan x)) Float64.sparse0)) 0 1 2 1 wv X' wx ∧
    mats (BPTF 0 1 Float64.init0 1 1 Float64.world0).2 !! 0 = Some U' ∧
    mats (BPTF 0 1 Float64.init0 1 1 Float64.world0).2 !! 1 = Some V' ∧
    mats (BPTF 0 1 Float64.init0 1 1 Float64.world0).2 !! 2 = Some X' ∧
    feqb (mget U' 0 0) (mget Float64.U0 0 0) = false ∧
    feqb (mget V' 0 0) (mget Float64.V0 0 0) = false ∧
    feqb (mget X' 0 0) (mget Float64.X0 0 0) = false.
Proof.
  assert (has_rows Float64.world0 0 2) as HU by by exists Float64.U0.
  assert (has_rows Float64.world0 1 2) as HV by by exists Float64.V0.
  assert (has_rows Float64.world0 2 2) as HX by by exists Float64.X0.
  assert (∃ Uc Vc Xc,
            mats (BPTF 0 1 Float64.init0 1 1 Float64.world0).2 !! 0 = Some Uc ∧
            mats (BPTF 0 1 Float64.init0 1 1 Float64.world0).2 !! 1 = Some Vc ∧
            mats (BPTF 0 1 Float64.init0 1 1 Float64.world0).2 !! 2 = Some Xc ∧
            feqb (mget Uc 0 0) (mget Float64.U0 0 0) = false ∧
            feqb (mget Vc 0 0) (mget Float64.V0 0 0) = false ∧
            feqb (mget Xc 0 0) (mget Float64.X0 0 0) = false)
    as (Uc & Vc & Xc & HUc & HVc & HXc & HneU & HneV & HneX).
  { eexists _, _, _.
    split; [vm_compute; reflexivity|]. split; [vm_compute; reflexivity|].
    split; [vm_compute; reflexivity|].
    split; [vm_compute; reflexivity|]. split; vm_compute; reflexivity. }
  assert (prepare 0 1 Float64.world0
          = (Ok (tmap (λ x, negb (fisnan x)) Float64.sparse0,
                 [(0, 0, 1); (1, 1, 0)], [2; 7]%float),
             (prepare 0 1 Float64.world0).2)) as Hp by (vm_compute; reflexivity).
  destruct (BPTF 0 1 Float64.init0 1 1 Float64.world0) as [[th|e] w']
    eqn:Hrun; [|vm_compute in Hrun; discriminate Hrun].
  destruct (BPTF_mutates_inputs 0 1 Float64.init0 1 1 Float64.world0 w' th
              0 1 2 2 2 2 eq_refl eq_refl eq_refl HU HV HX Hrun)
    as (sp & ind & pos & dt & w0 & Hsp & Hprep & _ & Hnan & _ & _ & Hlast).
  clear Hrun.
  injection Hsp as <-. rewrite Hp in Hprep. injection Hprep as <- <- <- <-.
  destruct (Hlast 1 eq_refl)
    as (c & wn & spz & U' & V' & X' & wu & wv & wx & _ & _ & Hu & Hv & Hx & Hm).
  assert (mats w' !! 0 = Some U' ∧ mats w' !! 1 = Some V' ∧
          mats w' !! 2 = Some X') as (HU' & HV' & HX').
  { rewrite Hm. split; [|split].
    - do 2 (rewrite lookup_insert_ne by discriminate).
      apply lookup_insert_eq.
    - rewrite lookup_insert_ne by discriminate. apply lookup_insert_eq.
    - apply lookup_insert_eq. }
  simpl in HUc, HVc, HXc.
  rewrite HU' in HUc. rewrite HV' in HVc. rewrite HX' in HXc.
  injection HUc as <-. injection HVc as <-. injection HXc as <-.
  split; [exact (Hnan eq_refl)|].
  exists c, wn, spz, U', V', X', wu, wv, wx.
  split; [exact Hu|]. split; [exact Hv|]. split; [exact Hx|].
  split; [exact HU'|]. split; [exact HV'|]. split; [exact HX'|].
  split; [exact HneU|]. split; [exact HneV|exact HneX].
Defined.

(** * The posterior mean, entry by entry *)

Section PosteriorMeanEntries.
Context {T G : Type} `{!Scalar T} `{!Extern T G}.

Lemma tget_tzeros (d : shape3) (p : index3) :
  p.1.1 < d.1.1 → p.1.2 < d.1.2 → p.2 < d.2 →
  tget (tzeros (T:=T) d) p = Some fzero.
Proof.
  intros Hi Hj Hk. unfold tzeros. rewrite tget_Ten.
  rewrite lookup_replicate_2 by done. simpl.
  rewrite lookup_replicate_2 by done. simpl.
  by rewrite lookup_replicate_2.
Qed.

Lemma tzip_inplace_entry (a b r : tensor T) p x y :
  wf_tensor a → wf_tensor b → dims b = dims a →
  tzip_inplace fadd a b = Ok r →
  tget a p = Some x → tget b p = Some y → tget r p = Some (fadd x y).
Proof.
  intros Wa Wb Hd. unfold tzip_inplace.
  rewrite (tzip_same_shape fadd a b Wa Wb (eq_sym Hd)). simpl.
  rewrite decide_True by done. intros [= <-] Hx Hy.
  rewrite tget_zip. rewrite !tget_Ten. unfold tget in Hx, Hy.
  rewrite Hx. simpl. rewrite Hy. done.
Qed.

Lemma reconstruct_Ok U V X (w w' : world T G) r :
  reconstruct U V X w = (Ok r, w') →
  ∃ Um Vm Xm, mats w !! U = Some Um ∧ mats w !! V = Some Vm ∧
              mats w !! X = Some Xm ∧ einsum Um Vm Xm = Ok r.
Proof.
  unfold reconstruct. intros H.
  apply bind_Ok in H as (Um & w1 & HU & H).
  apply bind_Ok in H as (Vm & w2 & HV & H).
  apply bind_Ok in H as (Xm & w3 & HX & H).
  apply lift_Ok in H as [H _].
  unfold read_mat in HU, HV, HX.
  injection HU as HU <-. injection HV as HV <-. injection HX as HX <-.
  apply or_raise_Ok in HU, HV, HX.
  by exists Um, Vm, Xm.
Qed.

(** the accumulator after [n] sweeps, entry by entry *)
Lemma sweeps_entries ls U V X ind pos dt burn d n (w0 wn : world T G) cn :
  has_rows w0 U d.1.1 → has_rows w0 V d.1.2 → has_rows w0 X d.2 →
  sweeps ls U V X ind pos dt burn d n w0 = (Ok cn, wn) →
  ∃ recons : list (tensor T),
    length recons = n ∧
    (∀ k r, recons !! k = Some r →
       ∃ ck wk Um Vm Xm,
         sweeps ls U V X ind pos dt burn d (S k) w0 = (Ok ck, wk) ∧
         mats wk !! U = Some Um ∧ mats wk !! V = Some Vm ∧
         mats wk !! X = Some Xm ∧ einsum Um Vm Xm = Ok r) ∧
    wf_tensor (tensor_hat_plus cn) ∧ dims (tensor_hat_plus cn) = d ∧
    ∀ p, p.1.1 < d.1.1 → p.1.2 < d.1.2 → p.2 < d.2 →
      ∃ es, Forall2 (λ r e, tget r p = Some e) (drop burn recons) es ∧
            tget (tensor_hat_plus cn) p = Some (foldl fadd fzero es).
Proof.
  intros HU HV HX. revert cn wn. induction n as [|n IH]; intros cn wn H.
  - unfold sweeps in H. simpl in H. apply ret_Ok in H as [-> ->].
    exists []. split; [done|]. split; [done|]. simpl.
    split; [apply wf_tzeros|]. split; [done|].
    intros p Hi Hj Hk. exists []. rewrite drop_nil. split; [constructor|].
    by apply tget_tzeros.
  - pose proof H as HS. rewrite sweeps_S in H.
    apply bind_Ok in H as (c & w1 & Hpre & Hbody).
    destruct (IH _ _ Hpre) as (recons & Hlen & Hrec & Hwf & Hd & Hent).
    pose proof (preserves_sweeps _ _ _ _ _ _ _ _ _ _ _ _ _ Hpre) as Hsh1.
    pose proof (preserves_sweep _ _ _ _ _ _ _ _ _ _ _ _ _ Hbody) as Hsh2.
    destruct (sweep_Ok _ _ _ _ _ _ _ _ _ _ _ _ _ Hbody)
      as (that & Hthat & Hin & Hout).
    assert (same_shapes w0 wn) as Hsh by by etrans.
    destruct (reconstruct_wf U V X wn wn d that
                (has_rows_same_shapes _ _ _ _ Hsh HU)
                (has_rows_same_shapes _ _ _ _ Hsh HV)
                (has_rows_same_shapes _ _ _ _ Hsh HX) Hthat) as [Wthat Hdthat].
    exists (recons ++ [that]). split; [|split].
    + rewrite length_app. simpl. lia.
    + intros k r Hk. destruct (decide (k < n)) as [Hlt|Hge].
      * rewrite lookup_app_l in Hk by lia. by apply Hrec.
      * rewrite lookup_app_r in Hk by lia.
        destruct (k - length recons) as [|?] eqn:Hkn; simplify_eq/=.
        assert (k = length recons) as -> by lia.
        destruct (reconstruct_Ok _ _ _ _ _ _ Hthat)
          as (Um & Vm & Xm & ? & ? & ? & ?).
        by exists cn, wn, Um, Vm, Xm.
    + destruct (decide (burn < n + 1)) as [Hlt|Hge].
      * specialize (Hin Hlt).
        destruct (wf_tzip_inplace _ _ _ Hwf Wthat ltac:(congruence) Hin)
          as [Hwf' Hd'].
        split; [done|]. split; [congruence|].
        intros p Hi Hj Hk. destruct (Hent p Hi Hj Hk) as (es & Hes & Hacc).
        destruct p as [[i j] k]. simpl in *.
        destruct (tget_is_Some that i j k Wthat) as [e He];
          [by rewrite Hdthat..|].
        exists (es ++ [e]). split.
        -- rewrite drop_app_le by lia. apply Forall2_app; [done|].
           by constructor.
        -- rewrite foldl_app. simpl.
           apply (tzip_inplace_entry _ _ _ _ _ _ Hwf Wthat ltac:(congruence) Hin);
             done.
      * rewrite (Hout Hge). split; [done|]. split; [done|].
        intros p Hi Hj Hk. destruct (Hent p Hi Hj Hk) as (es & Hes & Hacc).
        exists es. split; [|done].
        rewrite drop_ge in Hes by lia.
        rewrite drop_ge by (rewrite length_app; simpl; lia). done.
Qed.

(** C1: in a run of BPTF on factor matrices with as many rows as the
    sparse tensor has entries along their axes, one reconstruction is
    made per sweep: the rank contraction (einsum) of U, V and X as that
    sweep leaves them in the store; [recons] lists them.  Every entry of
    the tensor returned is the sum of the entries at its position of the
    reconstructions of the last [gibbs_iter] sweeps, added in the order
    of the sweeps to the zero the accumulator starts with, divided by
    [gibbs_iter].  The reconstructions of the first [burn_iter] sweeps
    are not in the sum. *)
Theorem BPTF_posterior_mean (dense_tensor sparse_tensor : loc)
    (init : gmap string loc) (burn_iter gibbs_iter : nat)
    (w w' : world T G) (sp : tensor T) (U V X : loc) (tensor_hat : tensor T) :
  tens w !! sparse_tensor = Some sp →
  init !! "U" = Some U → init !! "V" = Some V → init !! "X" = Some X →
  has_rows w U (dims sp).1.1 → has_rows w V (dims sp).1.2 →
  has_rows w X (dims sp).2 →
  BPTF dense_tensor sparse_tensor init burn_iter gibbs_iter w
    = (Ok tensor_hat, w') →
  ∃ ind pos_test dense_test w0 (recons : list (tensor T)),
    prepare dense_tensor sparse_tensor w = (Ok (ind, pos_test, dense_test), w0) ∧
    length recons = burn_iter + gibbs_iter ∧
    (∀ k r, recons !! k = Some r →
       ∃ ck wk Um Vm Xm,
         sweeps sparse_tensor U V X ind pos_test dense_test burn_iter
           (dims sp) (S k) w0 = (Ok ck, wk) ∧
         mats wk !! U = Some Um ∧ mats wk !! V = Some Vm ∧
         mats wk !! X = Some Xm ∧ einsum Um Vm Xm = Ok r) ∧
    length (drop burn_iter recons) = gibbs_iter ∧
    dims tensor_hat = dims sp ∧
    ∀ i j t, i < (dims sp).1.1 → j < (dims sp).1.2 → t < (dims sp).2 →
      ∃ es, Forall2 (λ r e, tget r (i, j, t) = Some e)
              (drop burn_iter recons) es ∧
            tget tensor_hat (i, j, t)
            = Some (fdiv (foldl fadd fzero es) (of_nat gibbs_iter)).
Proof.
  intros Hsp HU HV HX HrU HrV HrX H.
  destruct (BPTF_Ok _ _ _ _ _ _ _ _ H)
    as (sp' & U' & V' & X' & ind & pos & dt & w0 & c & wN &
        Hsp' & HU' & HV' & HX' & Hprep & Hloop & -> & _).
  assert (sp' = sp) as -> by congruence.
  assert (U' = U) as -> by congruence.
  assert (V' = V) as -> by congruence.
  assert (X' = X) as -> by congruence.
  destruct (prepare_Ok _ _ _ _ _ _ _ Hprep) as (_ & _ & Hm0 & _).
  assert (∀ l n, has_rows w l n → has_rows w0 l n) as Hrows.
  { intros l n (m & Hm & ?). exists m. by rewrite Hm0. }
  destruct (sweeps_entries _ _ _ _ _ _ _ _ _ _ _ _ _
              (Hrows _ _ HrU) (Hrows _ _ HrV) (Hrows _ _ HrX) Hloop)
    as (recons & Hlen & Hrec & Hwf & Hd & Hent).
  exists ind, pos, dt, w0, recons.
  split; [done|]. split; [done|]. split; [done|].
  split; [rewrite length_drop; lia|]. split; [done|].
  intros i j t Hi Hj Ht.
  destruct (Hent (i, j, t) Hi Hj Ht) as (es & Hes & Hacc).
  exists es. split; [done|].
  unfold tdiv. by rewrite tget_tmap, Hacc.
Qed.

End PosteriorMeanEntries.

(** the run of one burn-in sweep and two sampling sweeps on the 2 x 2 x 2
    tensor: of the three reconstructions the second and the third are
    added, and the sum is halved *)
Lemma BPTF_posterior_mean_witness :
  ∃ tensor_hat recons e2 e3,
    (BPTF 0 1 Float64.init0 1 2 Float64.world0).1 = Ok tensor_hat ∧
    length recons = 3 ∧
    Forall2 (λ r e, tget r (1, 0, 1) = Some e) (drop 1 recons) [e2; e3] ∧
    tget tensor_hat (1, 0, 1) = Some ((0 + e2 + e3) / 2)%float.
Proof.
  assert (has_rows Float64.world0 0 2) as HU by by exists Float64.U0.
  assert (has_rows Float64.world0 1 2) as HV by by exists Float64.V0.
  assert (has_rows Float64.world0 2 2) as HX by by exists Float64.X0.
  destruct (BPTF 0 1 Float64.init0 1 2 Float64.world0) as [[tensor_hat|e] w']
    eqn:Hrun; [|vm_compute in Hrun; discriminate Hrun].
  destruct (BPTF_posterior_mean 0 1 Float64.init0 1 2 Float64.world0 w'
              Float64.sparse0 0 1 2 tensor_hat eq_refl eq_refl eq_refl eq_refl
              HU HV HX Hrun)
    as (ind & pos & dt & w0 & recons & _ & Hlen & _ & Hdrop & _ & Hent).
  destruct (Hent 1 0 1) as (es & Hes & Hget); [simpl; lia..|].
  pose proof (Forall2_length _ _ _ Hes) as Hl. rewrite Hdrop in Hl.
  destruct es as [|e2 [|e3 [|? ?]]]; try discriminate Hl.
  exists tensor_hat, recons, e2, e3.
  split; [reflexivity|]. split; [exact Hlen|]. split; [exact Hes|exact Hget].
Defined.

Section NoSampling.
Context {T G : Type} `{!Scalar T} `{!Extern T G}.

(** X15: with gibbs_iter = 0 the accumulator is never added to, and BPTF,
    if it returns, returns zeros divided by zero: a tensor of the shape of
    the sparse tensor of which every entry is 0 / 0 (NaN in binary64),
    whatever the data and however long the burn-in. *)
Theorem BPTF_no_sampling_sweeps dense_tensor sparse_tensor
    (init : gmap string loc) burn_iter (w w' : world T G) tensor_hat :
  BPTF dense_tensor sparse_tensor init burn_iter 0 w = (Ok tensor_hat, w') →
  ∃ sp, tens w !! sparse_tensor = Some sp ∧
        wf_tensor tensor_hat ∧ dims tensor_hat = dims sp ∧
        ∀ i j t, i < (dims sp).1.1 → j < (dims sp).1.2 → t < (dims sp).2 →
          tget tensor_hat (i, j, t) = Some (fdiv fzero (of_nat 0)).
Proof.
  intros H.
  destruct (BPTF_Ok _ _ _ _ _ _ _ _ H)
    as (sp & U & V & X & ind & pos & dt & w0 & c & wN &
        Hsp & _ & _ & _ & _ & Hloop & -> & _).
  exists sp. split; [done|].
  destruct (sweeps_accumulate _ _ _ _ _ _ _ _ _ _ _ _ _ Hloop)
    as (recons & Hlen & _ & Hsum).
  rewrite drop_ge in Hsum by lia. simpl in Hsum. injection Hsum as <-.
  split; [apply wf_tmap, wf_tzeros|]. split; [done|].
  intros i j t Hi Hj Ht. unfold tdiv.
  by rewrite tget_tmap, tget_tzeros.
Qed.
End NoSampling.

Lemma BPTF_no_sampling_sweeps_witness :
  ∃ tensor_hat,
    (BPTF 0 1 Float64.init0 2 0 Float64.world0).1 = Ok tensor_hat ∧
    ∀ i j t, i < 2 → j < 2 → t < 2 →
      ∃ x, tget tensor_hat (i, j, t) = Some x ∧ fisnan x = true.
Proof.
  destruct (BPTF 0 1 Float64.init0 2 0 Float64.world0) as [[tensor_hat|e] w']
    eqn:Hrun; [|vm_compute in Hrun; discriminate Hrun].
  destruct (BPTF_no_sampling_sweeps 0 1 Float64.init0 2 Float64.world0 w'
              tensor_hat Hrun) as (sp & Hsp & _ & _ & Hent).
  injection Hsp as <-.
  exists tensor_hat. split; [reflexivity|].
  intros i j t Hi Hj Ht. eexists. split; [apply Hent; assumption|reflexivity].
Defined.

(** * From the cells that hide entries to the mask of BPTF *)

Section MaskingFacts.
Context {T : Type} `{!Scalar T}.

Lemma elem_of_concat {A} (x : A) (ls : list (list A)) :
  x ∈ concat ls ↔ ∃ l, l ∈ ls ∧ x ∈ l.
Proof.
  induction ls as [|l ls IH]; simpl.
  - split; [by intros ?%elem_of_nil|]. by intros (l & ?%elem_of_nil & _).
  - rewrite elem_of_app, IH. split.
    + intros [Hx|(l' & Hl' & Hx)].
      * exists l. split; [left|done].
      * exists l'. split; [by right|done].
    + intros (l' & [->|Hl']%elem_of_cons & Hx); [by left|].
      right. by exists l'.
Qed.

Lemma elem_of_flat {A} (t : tensor A) (x : A) :
  x ∈ flat t ↔ ∃ p, tget t p = Some x.
Proof.
  unfold flat, tget. split.
  - intros (r & (s & Hs & Hr)%elem_of_concat & Hx)%elem_of_concat.
    apply list_elem_of_lookup in Hs as [i Hi].
    apply list_elem_of_lookup in Hr as [j Hj].
    apply list_elem_of_lookup in Hx as [k Hk].
    exists (i, j, k). simpl. rewrite Hi. simpl. rewrite Hj. done.
  - intros ([[i j] k] & Hp). simpl in Hp.
    destruct (slabs t !! i) as [s|] eqn:Hs; simpl in Hp; [|done].
    destruct (s !! j) as [r|] eqn:Hr; simpl in Hp; [|done].
    apply elem_of_concat. exists r. split; [|by eapply list_elem_of_lookup_2].
    apply elem_of_concat. exists s.
    split; by eapply list_elem_of_lookup_2.
Qed.

Lemma any_nan_false (t : tensor T) p x :
  any_nan t = false → tget t p = Some x → fisnan x = false.
Proof.
  intros Hn Hx. destruct (fisnan x) eqn:Hnan; [|done].
  assert (any_nan t = true) as Hn'; [|congruence].
  apply existsb_exists. exists x. split; [|done].
  apply list_elem_of_In. apply (elem_of_flat t). by exists p.
Qed.

Lemma any_nan_true (t : tensor T) :
  any_nan t = true → ∃ p x, tget t p = Some x ∧ fisnan x = true.
Proof.
  intros (x & Hx & Hnan)%existsb_exists.
  apply list_elem_of_In, (elem_of_flat t) in Hx as [p Hp]. by exists p, x.
Qed.

Lemma wf_zip3 {A B C} (f : A → B → C) (a : tensor A) (b : tensor B) :
  wf_tensor a → wf_tensor b → dims b = dims a →
  wf_tensor (Ten (dims a) (zip_with (zip_with (zip_with f)) (slabs a) (slabs b))).
Proof.
  intros [Hs1 Hs2] [Ht1 Ht2] Hd. rewrite Hd in *.
  split; simpl.
  - rewrite length_zip_with. lia.
  - apply Forall_lookup. intros i s Hsl.
    apply lookup_zip_with_Some in Hsl as (sa & sb & -> & Ha & Hb).
    rewrite Forall_lookup in Hs2. rewrite Forall_lookup in Ht2.
    destruct (Hs2 _ _ Ha) as [Hl1 Hr1]. destruct (Ht2 _ _ Hb) as [Hl2 Hr2].
    split; [rewrite length_zip_with; lia|].
    apply Forall_lookup. intros j r Hr.
    apply lookup_zip_with_Some in Hr as (ra & rb & -> & Hra & Hrb).
    rewrite Forall_lookup in Hr1. rewrite Forall_lookup in Hr2.
    rewrite length_zip_with, (Hr1 _ _ Hra), (Hr2 _ _ Hrb). lia.
Qed.

Lemma set_where_Ok {A} (a : tensor A) (mask : tensor bool) (v : A) :
  wf_tensor a → wf_tensor mask → dims mask = dims a →
  ∃ t, set_where a mask v = Ok t ∧ wf_tensor t ∧ dims t = dims a ∧
       ∀ p, tget t p
            = (x ← tget a p; b ← tget mask p; Some (if b : bool then v else x)).
Proof.
  intros Ha Hm Hd. unfold set_where. rewrite decide_True by done.
  eexists. split; [done|]. split; [by apply wf_zip3|]. split; [done|].
  intros p. by rewrite tget_zip.
Qed.

Lemma tget_same_shape {A B} (a : tensor A) (b : tensor B) p x :
  wf_tensor a → wf_tensor b → dims b = dims a →
  tget a p = Some x → ∃ y, tget b p = Some y.
Proof.
  intros Ha Hb Hd Hx.
  destruct (tget_Some_valid a p Ha) as (Hi & Hj & Hk); [by rewrite Hx|].
  destruct p as [[i j] k]. simpl in *.
  apply (tget_is_Some b i j k Hb); by rewrite Hd.
Qed.

Lemma hide_entries_Ok (nan : T) (dn bin : tensor T) :
  wf_tensor dn → wf_tensor bin → dims bin = dims dn →
  ∃ sp, hide_entries nan dn bin = Ok sp ∧ wf_tensor sp ∧ dims sp = dims dn ∧
        ∀ p, tget sp p
             = (x ← tget dn p; b ← tget bin p;
                Some (if feqb b fzero then nan else x)).
Proof.
  intros Hdn Hbin Hd.
  destruct (set_where_Ok dn (tmap (λ b, feqb b fzero) bin) nan)
    as (sp & Hsp & Hw & Hds & Hp); [done|by apply wf_tmap|done|].
  exists sp. do 3 (split; [done|]).
  intros p. rewrite Hp, tget_tmap.
  destruct (tget dn p); simpl; [|done]. by destruct (tget bin p).
Qed.

Lemma hide_zeros_Ok (nan : T) (sp : tensor T) :
  wf_tensor sp →
  ∃ sp', hide_zeros nan sp = Ok sp' ∧ wf_tensor sp' ∧ dims sp' = dims sp ∧
         ∀ p, tget sp' p
              = (λ x, if feqb x fzero then nan else x) <$> tget sp p.
Proof.
  intros Hsp.
  destruct (set_where_Ok sp (tmap (λ x, feqb x fzero) sp) nan)
    as (sp' & Hsp' & Hw & Hds & Hp); [done|by apply wf_tmap|done|].
  exists sp'. do 3 (split; [done|]).
  intros p. rewrite Hp, tget_tmap. by destruct (tget sp p).
Qed.

End MaskingFacts.

Section Preparation.
Context {T G : Type} `{!Scalar T} `{!Extern T G}.

(** X21: the random-missing cells followed by BPTF on data without
    zeros-as-missing (sparse_tensor = dense_tensor.copy();
    sparse_tensor[binary_tensor == 0] = np.nan).  For a dense tensor
    without NaN: if the binary tensor hides at least one entry, BPTF
    observes exactly the entries that are not hidden (a zero of the dense
    tensor among them counts as an observed zero) and holds out exactly
    the hidden entries whose dense value is not zero.  If the binary
    tensor hides nothing, BPTF instead observes exactly the non-zero
    entries and holds out nothing. *)
Theorem prepare_after_hide_entries (nan : T) (w : world T G)
    (dense_tensor sparse_tensor : loc) (dn bin sp : tensor T) :
  fisnan nan = true →
  wf_tensor dn → wf_tensor bin → dims bin = dims dn → any_nan dn = false →
  hide_entries nan dn bin = Ok sp →
  tens w !! dense_tensor = Some dn → tens w !! sparse_tensor = Some sp →
  ∃ ind pos_test dense_test w',
    prepare dense_tensor sparse_tensor w
    = (Ok (ind, pos_test, dense_test), w') ∧
    ((∃ p b, tget bin p = Some b ∧ feqb b fzero = true) →
       (∀ p, tget ind p = Some true ↔
             ∃ b, tget bin p = Some b ∧ feqb b fzero = false) ∧
       (∀ p, p ∈ pos_test ↔
             ∃ x b, tget dn p = Some x ∧ tget bin p = Some b ∧
                    fneqb x fzero = true ∧ feqb b fzero = true)) ∧
    ((∀ p b, tget bin p = Some b → feqb b fzero = false) →
       (∀ p, tget ind p = Some true ↔
             ∃ x, tget dn p = Some x ∧ fneqb x fzero = true) ∧
       pos_test = []).
Proof.
  intros Hnan Wdn Wbin Hd Hdn Hhide Hld Hls.
  destruct (hide_entries_Ok nan dn bin Wdn Wbin Hd)
    as (sp' & Hsp' & Wsp & Hds & Hget).
  rewrite Hhide in Hsp'. injection Hsp' as <-.
  destruct (prepare_spec w dense_tensor sparse_tensor dn sp Hld Hls Wdn Wsp)
    as (ind & pos & dt & w' & Hprep & HN & HZ); [done|].
  exists ind, pos, dt, w'. split; [done|].
  assert (∀ p y, tget sp p = Some y →
            ∃ x b, tget dn p = Some x ∧ tget bin p = Some b ∧
                   y = if feqb b fzero then nan else x) as Hinv.
  { intros p y Hy. rewrite Hget in Hy.
    destruct (tget dn p) as [x|]; simpl in Hy; [|done].
    destruct (tget bin p) as [b|]; simpl in Hy; [|done].
    injection Hy as <-. by exists x, b. }
  destruct (any_nan sp) eqn:Hany.
  - destruct HN as (Hind & Hpos & _); [done|]. split.
    + intros _. split.
      * intros p. rewrite Hind. split.
        -- intros (y & Hy & Hny).
           destruct (Hinv _ _ Hy) as (x & b & Hx & Hb & ->).
           exists b. split; [done|].
           destruct (feqb b fzero); [congruence|done].
        -- intros (b & Hb & Hb0).
           destruct (tget_same_shape bin dn p b Wbin Wdn) as [x Hx];
             [done..|].
           exists x. rewrite Hget, Hx, Hb. simpl. rewrite Hb0.
           split; [done|]. by eapply any_nan_false.
      * intros p. rewrite Hpos. split.
        -- intros (x & y & Hx & Hy & Hx0 & Hny).
           destruct (Hinv _ _ Hy) as (x' & b & Hx' & Hb & ->).
           exists x, b. do 3 (split; [done|]).
           destruct (feqb b fzero); [done|].
           rewrite (any_nan_false dn p x') in Hny; done.
        -- intros (x & b & Hx & Hb & Hx0 & Hb0).
           exists x, nan. rewrite Hget, Hx, Hb. simpl. by rewrite Hb0.
    + intros Hnone. exfalso.
      destruct (any_nan_true sp Hany) as (p & y & Hy & Hny).
      destruct (Hinv _ _ Hy) as (x & b & Hx & Hb & ->).
      rewrite (Hnone _ _ Hb) in Hny.
      by rewrite (any_nan_false dn p x) in Hny.
  - destruct HZ as (Hind & Hpos & _); [done|]. split.
    + intros (p & b & Hb & Hb0). exfalso.
      destruct (tget_same_shape bin dn p b Wbin Wdn) as [x Hx]; [done..|].
      assert (tget sp p = Some nan) as Hy.
      { rewrite Hget, Hx, Hb. simpl. by rewrite Hb0. }
      rewrite (any_nan_false sp p nan) in Hnan; done.
    + intros Hnone.
      assert (∀ p, tget sp p = tget dn p) as Heq.
      { intros p. rewrite Hget.
        destruct (tget dn p) as [x|] eqn:Hx; simpl; [|done].
        destruct (tget_same_shape dn bin p x Wdn Wbin) as [b Hb]; [done..|].
        rewrite Hb. simpl. by rewrite (Hnone _ _ Hb). }
      split.
      * intros p. rewrite Hind. by rewrite Heq.
      * destruct pos as [|p pos]; [done|]. exfalso.
        destruct (proj1 (Hpos p)) as (x & y & Hx & Hy & Hx0 & Hy0); [left|].
        rewrite Heq, Hx in Hy. injection Hy as <-.
        unfold fneqb in Hx0. by rewrite Hy0 in Hx0.
Qed.

(** X22: the cells that also hide the zeros (sparse_tensor =
    dense_tensor.copy(); sparse_tensor[binary_tensor == 0] = np.nan;
    sparse_tensor[sparse_tensor == 0] = np.nan), followed by BPTF.  For a
    dense tensor without NaN and whatever the binary tensor hides, BPTF
    observes exactly the entries that are not zero in the dense tensor and
    not hidden, and holds out exactly the entries that are not zero in the
    dense tensor and hidden. *)
Theorem prepare_after_hide_zeros (nan : T) (w : world T G)
    (dense_tensor sparse_tensor : loc) (dn bin sp1 sp : tensor T) :
  fisnan nan = true →
  wf_tensor dn → wf_tensor bin → dims bin = dims dn → any_nan dn = false →
  hide_entries nan dn bin = Ok sp1 → hide_zeros nan sp1 = Ok sp →
  tens w !! dense_tensor = Some dn → tens w !! sparse_tensor = Some sp →
  ∃ ind pos_test dense_test w',
    prepare dense_tensor sparse_tensor w
    = (Ok (ind, pos_test, dense_test), w') ∧
    (∀ p, tget ind p = Some true ↔
          ∃ x b, tget dn p = Some x ∧ tget bin p = Some b ∧
                 fneqb x fzero = true ∧ feqb b fzero = false) ∧
    (∀ p, p ∈ pos_test ↔
          ∃ x b, tget dn p = Some x ∧ tget bin p = Some b ∧
                 fneqb x fzero = true ∧ feqb b fzero = true).
Proof.
  intros Hnan Wdn Wbin Hd Hdn Hhide Hzeros Hld Hls.
  destruct (hide_entries_Ok nan dn bin Wdn Wbin Hd)
    as (sp1' & Hsp1' & Wsp1 & Hds1 & Hget1).
  rewrite Hhide in Hsp1'. injection Hsp1' as <-.
  destruct (hide_zeros_Ok nan sp1 Wsp1) as (sp' & Hsp' & Wsp & Hds & Hget2).
  rewrite Hzeros in Hsp'. injection Hsp' as <-.
  destruct (prepare_spec w dense_tensor sparse_tensor dn sp Hld Hls Wdn Wsp)
    as (ind & pos & dt & w' & Hprep & HN & HZ); [congruence|].
  exists ind, pos, dt, w'. split; [done|].
  assert (∀ p, tget sp p
               = (x ← tget dn p; b ← tget bin p;
                  Some (if feqb b fzero || feqb x fzero then nan else x)))
    as Hget.
  { intros p. rewrite Hget2, Hget1.
    destruct (tget dn p) as [x|]; simpl; [|done].
    destruct (tget bin p) as [b|]; simpl; [|done].
    destruct (feqb b fzero); simpl; [by destruct (feqb nan fzero)|done]. }
  assert (∀ p y, tget sp p = Some y →
            ∃ x b, tget dn p = Some x ∧ tget bin p = Some b ∧
                   fisnan x = false ∧
                   y = if feqb b fzero || feqb x fzero then nan else x)
    as Hinv.
  { intros p y Hy. rewrite Hget in Hy.
    destruct (tget dn p) as [x|] eqn:Hx; simpl in Hy; [|done].
    destruct (tget bin p) as [b|]; simpl in Hy; [|done].
    injection Hy as <-. exists x, b. do 2 (split; [done|]).
    split; [by eapply any_nan_false|done]. }
  unfold fneqb in *.
  destruct (any_nan sp) eqn:Hany.
  - destruct HN as (Hind & Hpos & _); [done|]. split.
    + intros p. rewrite Hind. split.
      * intros (y & Hy & Hny).
        destruct (Hinv _ _ Hy) as (x & b & Hx & Hb & Hnx & ->).
        exists x, b. do 2 (split; [done|]).
        destruct (feqb b fzero), (feqb x fzero); simpl in *; first [congruence|done].
      * intros (x & b & Hx & Hb & Hx0 & Hb0).
        exists x. rewrite Hget, Hx, Hb. simpl. rewrite Hb0. simpl.
        destruct (feqb x fzero); [done|].
        split; [done|]. by eapply any_nan_false.
    + intros p. rewrite Hpos. split.
      * intros (x & y & Hx & Hy & Hx0 & Hny).
        destruct (Hinv _ _ Hy) as (x' & b & Hx' & Hb & Hnx & ->).
        rewrite Hx in Hx'. injection Hx' as <-.
        exists x, b. do 3 (split; [done|]).
        destruct (feqb b fzero), (feqb x fzero); simpl in *; first [congruence|done].
      * intros (x & b & Hx & Hb & Hx0 & Hb0).
        exists x, nan. rewrite Hget, Hx, Hb. simpl. by rewrite Hb0.
  - destruct HZ as (Hind & Hpos & _); [done|].
    assert (∀ p x b, tget dn p = Some x → tget bin p = Some b →
              feqb b fzero = false ∧ feqb x fzero = false) as Hnone.
    { intros p x b Hx Hb.
      destruct (feqb b fzero || feqb x fzero) eqn:Hor.
      - assert (tget sp p = Some nan) as Hy.
        { rewrite Hget, Hx, Hb. simpl. by rewrite Hor. }
        rewrite (any_nan_false sp p nan) in Hnan; done.
      - by apply orb_false_elim in Hor. }
    split.
    + intros p. rewrite Hind. split.
      * intros (y & Hy & Hy0).
        destruct (Hinv _ _ Hy) as (x & b & Hx & Hb & Hnx & ->).
        destruct (Hnone _ _ _ Hx Hb) as [Hb0 Hx0].
        exists x, b. by rewrite Hx0.
      * intros (x & b & Hx & Hb & Hx0 & Hb0).
        exists x. rewrite Hget, Hx, Hb. simpl. rewrite Hb0. simpl.
        by destruct (feqb x fzero).
    + intros p. rewrite Hpos. split.
      * intros (x & y & Hx & Hy & Hx0 & Hy0).
        destruct (Hinv _ _ Hy) as (x' & b & Hx' & Hb & Hnx & ->).
        rewrite Hx in Hx'. injection Hx' as <-.
        destruct (Hnone _ _ _ Hx Hb) as [Hb0 Hx0'].
        rewrite Hb0, Hx0' in Hy0. simpl in Hy0. congruence.
      * intros (x & b & Hx & Hb & Hx0 & Hb0).
        destruct (Hnone _ _ _ Hx Hb) as [Hb0' _]. congruence.
Qed.

End Preparation.

Lemma prepare_after_hide_entries_witness :
  ∃ ind pos_test dense_test w',
    prepare 0 1 Float64.world0 = (Ok (ind, pos_test, dense_test), w') ∧
    tget ind (0, 0, 0) = Some true ∧ (0, 0, 1) ∈ pos_test.
Proof.
  destruct (prepare_after_hide_entries (T:=float) (G:=nat) PrimFloat.nan
              Float64.world0 0 1 Float64.dense0 binary_z Float64.sparse0)
    as (ind & pos & dt & w' & Hprep & Hsome & _);
    try reflexivity; try (by repeat constructor).
  exists ind, pos, dt, w'. split; [done|].
  destruct Hsome as [Hind Hpos].
  { exists (0, 0, 1), 0%float. by split. }
  split.
  - apply Hind. exists 1%float. by split.
  - apply Hpos. exists 2%float, 0%float. by repeat split.
Defined.

Lemma prepare_after_hide_zeros_witness :
  ∃ ind pos_test dense_test w',
    prepare 0 1 world_z = (Ok (ind, pos_test, dense_test), w') ∧
    tget ind (0, 0, 0) = Some true ∧ (1, 1, 0) ∈ pos_test.
Proof.
  destruct (prepare_after_hide_zeros (T:=float) (G:=nat) PrimFloat.nan
              world_z 0 1 dense_z binary_z sparse_z1 sparse_z2)
    as (ind & pos & dt & w' & Hprep & Hind & Hpos);
    try reflexivity; try (by repeat constructor).
  exists ind, pos, dt, w'. split; [done|]. split.
  - apply Hind. exists 1%float, 1%float. by repeat split.
  - apply Hpos. exists 7%float, 0%float. by repeat split.
Defined.

(** * What a run prints *)

Section Quiet.
Context {T G : Type} `{!Scalar T} `{!Extern T G}.
Local Abbreviation M := (M T G).

Global Instance same_stdout_po : PreOrder (same_stdout (T:=T) (G:=G)).
Proof.
  split; [by intros w|]. intros w1 w2 w3 H1 H2. unfold same_stdout in *.
  congruence.
Qed.

Lemma quiet_draw {A} (f : G → A * G) :
  preserves (same_stdout (T:=T) (G:=G)) (draw f).
Proof. intros w r w'. unfold draw. destruct (f (rng w)). by intros [= _ <-]. Qed.

Lemma quiet_draw_or_raise {A} (f : G → result A * G) :
  preserves (same_stdout (T:=T) (G:=G)) (draw_or_raise f).
Proof.
  intros w r w'. unfold draw_or_raise. destruct (f (rng w)). by intros [= _ <-].
Qed.

Lemma quiet_write_mat l m :
  preserves (same_stdout (T:=T) (G:=G)) (write_mat l m).
Proof. by intros w r w' [= _ <-]. Qed.

Lemma quiet_write_ten l t :
  preserves (same_stdout (T:=T) (G:=G)) (write_ten l t).
Proof. by intros w r w' [= _ <-]. Qed.

End Quiet.

Ltac quiet_step :=
  lazymatch goal with
  | |- preserves _ (draw _) => apply quiet_draw
  | |- preserves _ (draw_or_raise _) => apply quiet_draw_or_raise
  | |- preserves _ (write_mat _ _) => apply quiet_write_mat
  | |- preserves _ (write_ten _ _) => apply quiet_write_ten
  | |- preserves _ (read_row _ _) => apply preserves_read_row; apply _
  | |- preserves _ (print _) => fail "a line is printed"
  | _ => preserves_step
  end.

Section QuietSamplers.
Context {T G : Type} `{!Scalar T} `{!Extern T G}.
Local Abbreviation M := (M T G).

Lemma quiet_sample_factor_u tst tind U V X beta0 :
  preserves (same_stdout (T:=T) (G:=G)) (sample_factor_u tst tind U V X beta0).
Proof.
  unfold sample_factor_u, resample_row, entity_hyper, mvnrnd_pre, assign_row.
  repeat quiet_step.
Qed.

Lemma quiet_sample_factor_v tst tind U V X beta0 :
  preserves (same_stdout (T:=T) (G:=G)) (sample_factor_v tst tind U V X beta0).
Proof.
  unfold sample_factor_v, resample_row, entity_hyper, mvnrnd_pre, assign_row.
  repeat quiet_step.
Qed.

Lemma quiet_sample_factor_x tst tind U V X beta0 :
  preserves (same_stdout (T:=T) (G:=G)) (sample_factor_x tst tind U V X beta0).
Proof.
  unfold sample_factor_x, resample_step, mvnrnd_pre, assign_row.
  repeat quiet_step.
Qed.

Lemma quiet_sample_precision_tau sp that ind :
  preserves (same_stdout (T:=T) (G:=G)) (sample_precision_tau sp that ind).
Proof. unfold sample_precision_tau. repeat quiet_step. Qed.

Lemma quiet_resample_factors ls U V X ind tau :
  preserves (same_stdout (T:=T) (G:=G)) (resample_factors ls U V X ind tau).
Proof.
  unfold resample_factors.
  repeat lazymatch goal with
         | |- preserves _ (sample_factor_u _ _ _ _ _ _) =>
             apply quiet_sample_factor_u
         | |- preserves _ (sample_factor_v _ _ _ _ _ _) =>
             apply quiet_sample_factor_v
         | |- preserves _ (sample_factor_x _ _ _ _ _ _) =>
             apply quiet_sample_factor_x
         | _ => quiet_step
         end.
Qed.

Lemma quiet_reconstruct U V X :
  preserves (same_stdout (T:=T) (G:=G)) (reconstruct U V X).
Proof. unfold reconstruct. repeat quiet_step. Qed.

(** what one sweep prints *)
Lemma sweep_prints ls U V X ind pos dt burn c it (w w' : world T G) c' :
  sweep ls U V X ind pos dt burn c it w = (Ok c', w') →
  ∃ errors,
    stdout w' = stdout w ++
      (if decide (reports burn it) then report (it + 1) errors else []).
Proof.
  rewrite sweep_unfold. intros H.
  apply bind_Ok in H as ([] & w1 & H1 & H). apply quiet_resample_factors in H1.
  apply bind_Ok in H as (that & w2 & H2 & H). apply quiet_reconstruct in H2.
  apply bind_Ok in H as (h & ? & H3 & H). apply lift_Ok in H3 as [_ ->].
  apply bind_Ok in H as (temp & ? & H4 & H). apply lift_Ok in H4 as [_ ->].
  apply bind_Ok in H as (sp & w5 & H5 & H). injection H5 as _ <-.
  apply bind_Ok in H as (tau' & w6 & H6 & H).
  apply quiet_sample_precision_tau in H6.
  apply bind_Ok in H as (thp & w7 & H7 & H).
  assert (w7 = w6) as ->.
  { destruct (decide (burn < it + 1)).
    - by apply lift_Ok in H7 as [_ ->].
    - by apply ret_Ok in H7 as [_ ->]. }
  apply bind_Ok in H as (temp' & w8 & H8 & H). apply ret_Ok in H as [_ ->].
  unfold same_stdout in *. unfold reports.
  destruct (decide ((it + 1) `mod` show_iter = 0 ∧ it < burn)).
  - apply bind_Ok in H8 as ([] & ? & Hp1 & H8). injection Hp1 as <-.
    apply bind_Ok in H8 as (mape & ? & Hm & H8). apply lift_Ok in Hm as [_ ->].
    apply bind_Ok in H8 as ([] & ? & Hp2 & H8). injection Hp2 as <-.
    apply bind_Ok in H8 as (rmse & ? & Hr & H8). apply lift_Ok in Hr as [_ ->].
    apply bind_Ok in H8 as ([] & ? & Hp3 & H8). injection Hp3 as <-.
    apply bind_Ok in H8 as ([] & ? & Hp4 & H8). injection Hp4 as <-.
    apply ret_Ok in H8 as [_ ->]. simpl.
    exists (mape, rmse). unfold report. simpl.
    rewrite H6, H2, H1, <- !app_assoc. done.
  - apply ret_Ok in H8 as [_ ->]. exists (fzero, fzero).
    rewrite app_nil_r. congruence.
Qed.

(** what a run of sweeps prints *)
Lemma for_fold_sweep_prints ls U V X ind pos dt burn its :
  ∀ c (w w' : world T G) c',
  for_fold its c (sweep ls U V X ind pos dt burn) w = (Ok c', w') →
  ∃ errs,
    length errs = length (filter (reports burn) its) ∧
    stdout w' = stdout w ++
      concat (zip_with (λ it e, report (it + 1) e)
                (filter (reports burn) its) errs).
Proof.
  induction its as [|it its IH]; intros c w w' c' H; simpl in H.
  - apply ret_Ok in H as [_ ->]. exists []. by rewrite app_nil_r.
  - apply bind_Ok in H as (c1 & w1 & Hs & H).
    destruct (sweep_prints _ _ _ _ _ _ _ _ _ _ _ _ _ Hs) as (e & He).
    destruct (IH _ _ _ _ H) as (errs & Hlen & Hout).
    rewrite filter_cons. destruct (decide (reports burn it)).
    + exists (e :: errs). split; [simpl; by rewrite Hlen|].
      simpl. rewrite Hout, He, <- !app_assoc. done.
    + exists errs. split; [done|]. rewrite Hout, He, app_nil_r. done.
Qed.

End QuietSamplers.

Section ReportCount.

Lemma div_succ n m :
  0 < m →
  S n `div` m = n `div` m + (if decide ((n + 1) `mod` m = 0) then 1 else 0).
Proof.
  intros Hm.
  pose proof (Nat.div_mod_eq n m) as Hn.
  pose proof (Nat.mod_upper_bound n m ltac:(lia)) as Hr.
  destruct (decide (n `mod` m + 1 = m)) as [Hlast|Hlast].
  - assert ((n + 1) `mod` m = 0) as H0.
    { symmetry. apply (Nat.mod_unique _ _ (n `div` m + 1)); lia. }
    rewrite decide_True by done.
    symmetry. apply (Nat.div_unique _ _ _ 0); lia.
  - assert ((n + 1) `mod` m = n `mod` m + 1) as H0.
    { symmetry. apply (Nat.mod_unique _ _ (n `div` m)); lia. }
    rewrite decide_False by lia.
    symmetry. apply (Nat.div_unique _ _ _ (n `mod` m + 1)); lia.
Qed.

Lemma filter_multiples m b n :
  0 < m →
  filter (λ it, (it + 1) `mod` m = 0 ∧ it < b) (seq 0 n)
  = (λ k, m * (k + 1) - 1) <$> seq 0 (Nat.min n b `div` m).
Proof.
  intros Hm. induction n as [|n IH]; [by rewrite Nat.Div0.div_0_l|].
  rewrite seq_S, filter_app, IH, Nat.add_0_l.
  rewrite filter_cons, filter_nil.
  destruct (decide (n < b)) as [Hn|Hn].
  - rewrite (Nat.min_l (S n) b), (Nat.min_l n b) by lia.
    rewrite (div_succ n m Hm).
    destruct (decide ((n + 1) `mod` m = 0)) as [H0|H0].
    + rewrite decide_True by done.
      rewrite Nat.add_1_r, seq_S, fmap_app. simpl. do 3 f_equal.
      pose proof (div_succ n m Hm) as Hd. rewrite decide_True in Hd by done.
      pose proof (Nat.div_mod_eq (n + 1) m) as Hs. rewrite H0 in Hs.
      replace ((n + 1) `div` m) with (n `div` m + 1) in Hs; [lia|].
      replace (n + 1) with (S n) by lia. by rewrite Hd.
    + rewrite decide_False by (intros [? ?]; done).
      by rewrite Nat.add_0_r, app_nil_r.
  - rewrite (Nat.min_r (S n) b), (Nat.min_r n b) by lia.
    rewrite decide_False by (intros [? ?]; done). by rewrite app_nil_r.
Qed.

End ReportCount.

Section Printing.
Context {T G : Type} `{!Scalar T} `{!Extern T G}.

(** X24: the three factor samplers print nothing, whether they return or
    raise. *)
Theorem samplers_print_nothing tst tind U V X beta0 (w : world T G) :
  stdout (sample_factor_u tst tind U V X beta0 w).2 = stdout w ∧
  stdout (sample_factor_v tst tind U V X beta0 w).2 = stdout w ∧
  stdout (sample_factor_x tst tind U V X beta0 w).2 = stdout w.
Proof.
  split; [|split].
  - destruct (sample_factor_u tst tind U V X beta0 w) as [r w'] eqn:Hrun.
    by apply quiet_sample_factor_u in Hrun.
  - destruct (sample_factor_v tst tind U V X beta0 w) as [r w'] eqn:Hrun.
    by apply quiet_sample_factor_v in Hrun.
  - destruct (sample_factor_x tst tind U V X beta0 w) as [r w'] eqn:Hrun.
    by apply quiet_sample_factor_x in Hrun.
Qed.

(** X23: what a run of BPTF that returns has printed.  After every 200th
    sweep of the burn-in (sweeps 200, 400, ... up to burn_iter) it prints
    four lines: the number of the sweep, a MAPE, an RMSE and an empty
    line; the Gibbs sweeps print nothing; at the end it prints the
    imputation MAPE, the imputation RMSE and an empty line.  So a burn-in
    shorter than 200 sweeps reports no progress, and the run adds
    4 (burn_iter div 200) + 3 lines to the output. *)
Theorem BPTF_prints dense_tensor sparse_tensor (init : gmap string loc)
    burn_iter gibbs_iter (w w' : world T G) tensor_hat :
  BPTF dense_tensor sparse_tensor init burn_iter gibbs_iter w
    = (Ok tensor_hat, w') →
  ∃ (errs : list (T * T)) (mape rmse : T),
    length errs = burn_iter `div` show_iter ∧
    stdout w' = stdout w ++
      concat (zip_with report
                ((λ k, show_iter * (k + 1)) <$> seq 0 (burn_iter `div` show_iter))
                errs) ++
      [Imputation_MAPE mape; Imputation_RMSE rmse; Blank].
Proof.
  unfold BPTF. intros H.
  apply bind_Ok in H as (sp & w1 & Hsp & H). injection Hsp as _ <-.
  apply bind_Ok in H as (U & w1 & HU & H). apply lift_Ok in HU as [_ ->].
  apply bind_Ok in H as (V & w1 & HV & H). apply lift_Ok in HV as [_ ->].
  apply bind_Ok in H as (X & w1 & HX & H). apply lift_Ok in HX as [_ ->].
  apply bind_Ok in H as ([[ind pos] dt] & w0 & Hprep & H).
  apply prepare_Ok in Hprep as (_ & _ & _ & _ & Hout0 & _).
  apply bind_Ok in H as (c & wN & Hloop & H).
  apply for_fold_sweep_prints in Hloop as (errs & Hlen & HoutN).
  apply bind_Ok in H as (h & ? & Hh & H). apply lift_Ok in Hh as [_ ->].
  apply bind_Ok in H as (mape & ? & Hmape & H). apply lift_Ok in Hmape as [_ ->].
  apply bind_Ok in H as ([] & ? & Hp1 & H). injection Hp1 as <-.
  apply bind_Ok in H as (h' & ? & Hh' & H). apply lift_Ok in Hh' as [_ ->].
  apply bind_Ok in H as (rmse & ? & Hrmse & H). apply lift_Ok in Hrmse as [_ ->].
  apply bind_Ok in H as ([] & ? & Hp2 & H). injection Hp2 as <-.
  apply bind_Ok in H as ([] & ? & Hp3 & H). injection Hp3 as <-.
  apply ret_Ok in H as [_ ->]. cbn [stdout].
  unfold reports in *.
  rewrite (filter_multiples show_iter burn_iter) in Hlen, HoutN
    by (unfold show_iter; lia).
  replace (Nat.min (burn_iter + gibbs_iter) burn_iter) with burn_iter
    in Hlen, HoutN by lia.
  rewrite length_fmap, length_seq in Hlen.
  exists errs, mape, rmse. split; [done|].
  rewrite HoutN, Hout0, <- !app_assoc. f_equal. f_equal. f_equal.
  rewrite !zip_with_fmap_l. apply zip_with_ext; [|done..].
  intros k e. f_equal. unfold show_iter. lia.
Qed.

End Printing.

Lemma BPTF_prints_witness :
  ∃ errs mape rmse,
    length errs = 1 ∧
    stdout (BPTF 0 1 Float64.init0 200 1 Float64.world0).2
    = concat (zip_with report [200] errs)
      ++ [Imputation_MAPE mape; Imputation_RMSE rmse; Blank].
Proof.
  edestruct (BPTF_prints (T:=float) (G:=nat) 0 1 Float64.init0 200 1
               Float64.world0)
    as (errs & mape & rmse & Hlen & Hout); [vm_compute; reflexivity|].
  exists errs, mape, rmse. split; [exact Hlen|].
  etrans; [|exact Hout]. vm_compute. reflexivity.
Defined.
